(** * River storage engine: WAL, block codec, LSM index, engine, compaction,
      column encoders, memory-mapped files

    A shallow embedding of the durability stack of the River key-value
    engine (Go), and the properties of it that the specification states.

    Conventions of the embedding:
    - a Go [[]byte] or [string] is a [list Z] of values in [0, 256); a nil
      slice and an empty slice are both the empty list (the code only ever
      looks at their length and contents);
    - a fixed-width integer is a [Z]; conversions ([uint32(x)], [byte(x)])
      are written out as masks;
    - [time.Now()] is an argument of the operation that reads the clock;
    - file-system calls that can only fail for reasons outside the program
      (permissions, full disk) are taken to succeed; files are values;
    - calls on the engine are made one at a time; the bodies of the
      background goroutines ([flush], [createCheckpoint], [compact]) are
      operations like the others, run when the scheduler would run them. *)

From Stdlib Require Import ZArith List Lia Bool Permutation Sorted String Ascii.
From stdpp Require Import gmap list.
Import ListNotations.

Local Open Scope Z_scope.

(** ** Byte strings and the little-endian codec of [encoding/binary] *)

Module Bytes.

(** [bytes.Compare] and Go's [<] on strings: lexicographic, byte-wise. *)
Fixpoint Compare (a b : list Z) : comparison :=
  match a, b with
  | [], [] => Eq
  | [], _ :: _ => Lt
  | _ :: _, [] => Gt
  | x :: a', y :: b' =>
      match Z.compare x y with
      | Eq => Compare a' b'
      | c => c
      end
  end.

Definition ltb (a b : list Z) : bool :=
  match Compare a b with Lt => true | _ => false end.

Definition leb (a b : list Z) : bool :=
  match Compare a b with Gt => false | _ => true end.

Definition eqb (a b : list Z) : bool :=
  match Compare a b with Eq => true | _ => false end.

(** [len(b)] as a Go [int]. *)
Definition len (b : list Z) : Z := Z.of_nat (length b).

(** [b[i]]; [None] is the index-out-of-range panic. *)
Definition index (b : list Z) (i : Z) : option Z :=
  if (0 <=? i) && (i <? len b) then nth_error b (Z.to_nat i) else None.

(** [b[lo:hi]]; [None] is the slice-bounds panic. *)
Definition slice (b : list Z) (lo hi : Z) : option (list Z) :=
  if (0 <=? lo) && (lo <=? hi) && (hi <=? len b)
  then Some (firstn (Z.to_nat (hi - lo)) (skipn (Z.to_nat lo) b))
  else None.

(** [b[lo:]] *)
Definition drop (b : list Z) (lo : Z) : option (list Z) :=
  slice b lo (len b).

(** The low [n] bytes of [v], least significant first:
    [b[0] = byte(v); b[1] = byte(v >> 8); ...]. *)
Fixpoint putLE (n : nat) (v : Z) : list Z :=
  match n with
  | O => []
  | S n' => Z.land v 255 :: putLE n' (Z.shiftr v 8)
  end.

(** [b[0] | b[1]<<8 | ...] over all of [b]. *)
Fixpoint getLE (b : list Z) : Z :=
  match b with
  | [] => 0
  | x :: b' => Z.lor x (Z.shiftl (getLE b') 8)
  end.

Definition PutUint32 (v : Z) : list Z := putLE 4 v.
Definition PutUint64 (v : Z) : list Z := putLE 8 v.

(** [binary.LittleEndian.Uint32(b)]; [None] when [b] is shorter than
    four bytes (the bounds check [_ = b[3]] panics). *)
Definition Uint32 (b : list Z) : option Z :=
  if 4 <=? len b then Some (getLE (firstn 4 b)) else None.

Definition Uint64 (b : list Z) : option Z :=
  if 8 <=? len b then Some (getLE (firstn 8 b)) else None.

(** [int64(u)] for a [uint64] value [u]. *)
Definition int64_of_uint64 (u : Z) : Z :=
  if u <? 2 ^ 63 then u else u - 2 ^ 64.

(** The bytes of an ASCII literal, for readable examples. *)
Fixpoint ofString (s : String.string) : list Z :=
  match s with
  | String.EmptyString => []
  | String.String c s' => Z.of_N (Ascii.N_of_ascii c) :: ofString s'
  end.

End Bytes.

(** ** CRC-32C ([hash/crc32] with the Castagnoli polynomial) *)

Module CRC32.

(** The reversed Castagnoli polynomial, [crc32.Castagnoli]. *)
Definition Castagnoli : Z := 0x82f63b78.

(** One table entry of [crc32.MakeTable]: eight conditional shifts. *)
Fixpoint tableStep (n : nat) (crc : Z) : Z :=
  match n with
  | O => crc
  | S n' =>
      tableStep n'
        (if Z.testbit crc 0
         then Z.lxor (Z.shiftr crc 1) Castagnoli
         else Z.shiftr crc 1)
  end.

Definition tableAt (i : Z) : Z := tableStep 8 i.

(** [^crc] on a [uint32]. *)
Definition not32 (crc : Z) : Z := Z.land (Z.lnot crc) (Z.ones 32).

(** The byte loop of [crc32.Update]:
    [crc = tab[byte(crc)^v] ^ (crc >> 8)]. *)
Definition updateByte (crc v : Z) : Z :=
  Z.lxor (tableAt (Z.lxor (Z.land crc 255) (Z.land v 255))) (Z.shiftr crc 8).

Definition Update (crc : Z) (p : list Z) : Z :=
  not32 (fold_left updateByte p (not32 crc)).

(** [crc32.Checksum(data, crc32.MakeTable(crc32.Castagnoli))]. *)
Definition Checksum (data : list Z) : Z := Update 0 data.

End CRC32.

(** ** The write-ahead log ([internal/storage/wal.go]) *)

Module WAL.

(** [WALEntry]. *)
Record WALEntry := mkEntry {
  Timestamp : Z;
  OpType : Z;
  Key : list Z;
  Value : list Z;
}.

Definition OpTypePut : Z := 1.
Definition OpTypeDelete : Z := 2.

(** A file [<timestamp>.wal] of the WAL directory. Directory entries that
    are directories, do not end in [.wal], or whose name does not scan as
    [%d.wal] are skipped by every loop of the source and are left out. *)
Record walFile := mkFile {
  timestamp : Z;
  data : list Z;
}.

(** The [WAL] struct. [file] is the name of the open file; the buffered
    writer is flushed at the end of every [append], so it holds nothing
    between two calls. *)
Record WAL := mkWAL {
  walDir : list walFile;
  file : Z;
  size : Z;
  maxSize : Z;
}.

(** The scan of [openCurrentFile]: the file with the largest timestamp
    above [latestTime]. *)
Fixpoint latest (files : list walFile) (latestTime : Z) (latestFile : option walFile)
  : option walFile :=
  match files with
  | [] => latestFile
  | f :: files' =>
      if timestamp f >? latestTime
      then latest files' (timestamp f) (Some f)
      else latest files' latestTime latestFile
  end.

Definition hasFile (files : list walFile) (ts : Z) : bool :=
  existsb (fun f => timestamp f =? ts) files.

(** [openCurrentFile]: reopen the latest file for appending, or create
    [<now>.wal] when the directory has none. *)
Definition openCurrentFile (now : Z) (w : WAL) : WAL :=
  match latest (walDir w) 0 None with
  | None =>
      {| walDir := if hasFile (walDir w) now then walDir w
                   else walDir w ++ [mkFile now []];
         file := now; size := 0; maxSize := maxSize w |}
  | Some f =>
      {| walDir := walDir w; file := timestamp f;
         size := Bytes.len (data f); maxSize := maxSize w |}
  end.

(** [NewWAL] on a directory with the given files. *)
Definition NewWAL (now : Z) (files : list walFile) : WAL :=
  openCurrentFile now
    {| walDir := files; file := 0; size := 0; maxSize := 64 * 1024 * 1024 |}.

(** [rotate]: flush, close, and [openCurrentFile] again. *)
Definition rotate (now : Z) (w : WAL) : WAL := openCurrentFile now w.

(** [entrySize] of [append]: timestamp, operation, key length, key, value
    length and value. *)
Definition entrySize (key value : list Z) : Z :=
  8 + 1 + 4 + Bytes.len key + 4 + Bytes.len value.

(** The bytes [buf[8:offset]] that [append] lays out after the two header
    fields: timestamp, operation, key length, key, value length and, for a
    PUT, the value. *)
Definition payload (e : WALEntry) : list Z :=
  Bytes.PutUint64 (Timestamp e)
  ++ [Z.land (OpType e) 255]
  ++ Bytes.PutUint32 (Bytes.len (Key e))
  ++ Key e
  ++ (if OpType e =? OpTypePut
      then Bytes.PutUint32 (Bytes.len (Value e)) ++ Value e
      else Bytes.PutUint32 0).

(** The bytes [buf[4:offset]]: the entry-size field and the payload. *)
Definition sized (e : WALEntry) : list Z :=
  Bytes.PutUint32 (entrySize (Key e) (Value e)) ++ payload e.

(** The record written for an entry, [buf[:offset]]:
    [crc := crc32.Checksum(buf[4:offset], w.crc32Table)] goes in front. *)
Definition record (e : WALEntry) : list Z :=
  Bytes.PutUint32 (CRC32.Checksum (sized e)) ++ sized e.

Definition writeTo (ts : Z) (bs : list Z) (files : list walFile) : list walFile :=
  map (fun f => if timestamp f =? ts then mkFile ts (data f ++ bs) else f) files.

(** [append], with [now] the reading of [time.Now().UnixNano()] (used for
    the entry and, on rotation, for the name of a new file). *)
Definition append (now : Z) (opType : Z) (key value : list Z) (w : WAL) : WAL :=
  let w := if size w >=? maxSize w then rotate now w else w in
  let entry := mkEntry now opType key value in
  let buf := record entry in
  {| walDir := writeTo (file w) buf (walDir w);
     file := file w;
     size := size w + Bytes.len buf;
     maxSize := maxSize w |}.

Definition AppendPut (now : Z) (key value : list Z) (w : WAL) : WAL :=
  append now OpTypePut key value w.

Definition AppendDelete (now : Z) (key : list Z) (w : WAL) : WAL :=
  append now OpTypeDelete key [] w.

(** How a replay ends: [nil], one of the errors the source builds with
    [fmt.Errorf], or a run-time panic on a malformed payload. *)
Inductive replayError :=
| ErrReadHeader      (* "failed to read WAL entry header" *)
| ErrReadData        (* "failed to read WAL entry data" *)
| ErrCRCMismatch     (* "WAL entry corrupted: CRC mismatch" *)
| ErrApply.          (* "failed to apply WAL entry" *)

Inductive replayResult :=
| ReplayOk
| ReplayErr (e : replayError)
| ReplayPanic
| ReplayFuel.        (* the model ran out of steps; never the case, see
                        [replayFileFrom_total] *)

(** [io.ReadFull(reader, buf)] with [len(buf) = n] on the unread bytes. *)
Inductive readFullResult :=
| ReadFullOk (buf rest : list Z)
| ReadFullEOF
| ReadFullUnexpectedEOF.

Definition ReadFull (n : Z) (rd : list Z) : readFullResult :=
  if n <=? 0 then ReadFullOk [] rd
  else if Bytes.len rd =? 0 then ReadFullEOF
  else if Bytes.len rd <? n then ReadFullUnexpectedEOF
  else ReadFullOk (firstn (Z.to_nat n) rd) (skipn (Z.to_nat n) rd).

(** The fields read after the timestamp; [None] is a panic (index or
    slice out of range). *)
Definition parseAfterTimestamp (ts : Z) (data : list Z) : option WALEntry :=
  op ← Bytes.index data 8;
  keyLen ← Bytes.drop data 9 ≫= Bytes.Uint32;
  key ← Bytes.slice data 13 (13 + keyLen);
  valueLen ← Bytes.drop data (13 + keyLen) ≫= Bytes.Uint32;
  value ← (if valueLen >? 0
           then Bytes.slice data (13 + keyLen + 4) (13 + keyLen + 4 + valueLen)
           else Some []);
  Some (mkEntry ts op key value).

Section Replay.
(** The state the callback works on, and the callback; its boolean is
    [err != nil]. *)
Context {St : Type}.
Variable callback : WALEntry -> St -> St * bool.

(** The loop of [replayFileFrom] over the unread bytes [rd] of a file. *)
Fixpoint replayLoop (fuel : nat) (rd : list Z) (fromTimestamp : Z) (s : St)
  : St * replayResult :=
  match fuel with
  | O => (s, ReplayFuel)
  | S fuel' =>
      match ReadFull 8 rd with
      | ReadFullEOF => (s, ReplayOk)
      | ReadFullUnexpectedEOF => (s, ReplayErr ErrReadHeader)
      | ReadFullOk header rd1 =>
          let crc := Bytes.getLE (firstn 4 header) in
          let entrySize := Bytes.getLE (firstn 4 (skipn 4 header)) in
          match ReadFull entrySize rd1 with
          | ReadFullEOF | ReadFullUnexpectedEOF => (s, ReplayErr ErrReadData)
          | ReadFullOk data rd2 =>
              if negb (CRC32.Checksum data =? crc)
              then (s, ReplayErr ErrCRCMismatch)
              else
                match Bytes.Uint64 data with
                | None => (s, ReplayPanic)
                | Some u =>
                    let ts := Bytes.int64_of_uint64 u in
                    if ts <=? fromTimestamp
                    then replayLoop fuel' rd2 fromTimestamp s
                    else
                      match parseAfterTimestamp ts data with
                      | None => (s, ReplayPanic)
                      | Some entry =>
                          let '(s', failed) := callback entry s in
                          if failed : bool then (s', ReplayErr ErrApply)
                          else replayLoop fuel' rd2 fromTimestamp s'
                      end
                end
          end
      end
  end.

(** [replayFileFrom] on the contents of the file at [path]. Every turn
    of the loop consumes at least the eight header bytes. *)
Definition replayFileFrom (contents : list Z) (fromTimestamp : Z) (s : St)
  : St * replayResult :=
  replayLoop (S (length contents)) contents fromTimestamp s.

(** The inner loop of the exchange sort of [ReplayFrom] for one [i]:
    [x] is [walFiles[i]], the list is [walFiles[i+1:]]. *)
Fixpoint sortPass (x : walFile) (rest : list walFile) : walFile * list walFile :=
  match rest with
  | [] => (x, [])
  | y :: rest' =>
      if timestamp x >? timestamp y
      then let '(m, r) := sortPass y rest' in (m, x :: r)
      else let '(m, r) := sortPass x rest' in (m, y :: r)
  end.

Fixpoint sortFiles (n : nat) (files : list walFile) : list walFile :=
  match n, files with
  | S n', x :: rest =>
      let '(m, r) := sortPass x rest in m :: sortFiles n' r
  | _, _ => files
  end.

Fixpoint replayFiles (files : list walFile) (fromTimestamp : Z) (s : St)
  : St * replayResult :=
  match files with
  | [] => (s, ReplayOk)
  | f :: files' =>
      match replayFileFrom (data f) fromTimestamp s with
      | (s', ReplayOk) => replayFiles files' fromTimestamp s'
      | r => r
      end
  end.

(** [ReplayFrom]: keep the files whose name is not below
    [fromTimestamp], sort them oldest first, replay each. *)
Definition ReplayFrom (w : WAL) (fromTimestamp : Z) (s : St) : St * replayResult :=
  let walFiles := List.filter (fun f => negb (timestamp f <? fromTimestamp)) (walDir w) in
  replayFiles (sortFiles (length walFiles) walFiles) fromTimestamp s.

Definition Replay (w : WAL) (s : St) : St * replayResult := ReplayFrom w 0 s.

End Replay.

(** [Close]: flushes the writer, which holds nothing, and closes the
    file; the directory is as before. *)
Definition Close (w : WAL) : WAL := w.

(** The callback that records the entries it is given. *)
Definition recording (e : WALEntry) (seen : list WALEntry) : list WALEntry * bool :=
  (seen ++ [e], false).

End WAL.

(** ** SHA-256 ([crypto/sha256]) *)

Module SHA256.

Definition add32 (a b : Z) : Z := Z.land (a + b) (Z.ones 32).

Definition rotr (n x : Z) : Z :=
  Z.lor (Z.shiftr x n) (Z.land (Z.shiftl x (32 - n)) (Z.ones 32)).

Definition Ch (x y z : Z) : Z :=
  Z.lxor (Z.land x y) (Z.land (Z.land (Z.lnot x) (Z.ones 32)) z).

Definition Maj (x y z : Z) : Z :=
  Z.lxor (Z.lxor (Z.land x y) (Z.land x z)) (Z.land y z).

Definition bigSigma0 (x : Z) : Z := Z.lxor (rotr 2 x) (Z.lxor (rotr 13 x) (rotr 22 x)).
Definition bigSigma1 (x : Z) : Z := Z.lxor (rotr 6 x) (Z.lxor (rotr 11 x) (rotr 25 x)).
Definition smallSigma0 (x : Z) : Z := Z.lxor (rotr 7 x) (Z.lxor (rotr 18 x) (Z.shiftr x 3)).
Definition smallSigma1 (x : Z) : Z := Z.lxor (rotr 17 x) (Z.lxor (rotr 19 x) (Z.shiftr x 10)).

(** The primes below 312: the first sixty-four. *)
Definition isPrime (n : nat) : bool :=
  forallb (fun d => negb (n mod d =? 0)%nat) (seq 2 (n - 2)).

Definition primes : list Z := map Z.of_nat (List.filter isPrime (seq 2 310)).

(** The integer cube root, one bit at a time from bit [n - 1] down. *)
Fixpoint cbrtBits (n : nat) (x r : Z) : Z :=
  match n with
  | O => r
  | S n' =>
      let r' := r + Z.shiftl 1 (Z.of_nat n') in
      if r' * r' * r' <=? x then cbrtBits n' x r' else cbrtBits n' x r
  end.

(** The round constants: the first 32 bits of the fractional parts of the
    cube roots of the first sixty-four primes. *)
Definition K : list Z :=
  map (fun p => Z.land (cbrtBits 40 (Z.shiftl p 96) 0) (Z.ones 32)) primes.

(** The initial hash value: the first 32 bits of the fractional parts of
    the square roots of the first eight primes. *)
Definition init : list Z :=
  map (fun p => Z.land (Z.sqrt (Z.shiftl p 64)) (Z.ones 32)) (firstn 8 primes).

(** Big-endian bytes of the low [n] bytes of [v]. *)
Definition putBE (n : nat) (v : Z) : list Z := rev (Bytes.putLE n v).
Definition getBE (b : list Z) : Z := Bytes.getLE (rev b).

(** Padding: a one bit, zeros, and the bit length as a 64-bit integer. *)
Definition pad (msg : list Z) : list Z :=
  let l := Bytes.len msg in
  let zeros := (55 - l) mod 64 in
  msg ++ [128] ++ repeat 0 (Z.to_nat zeros) ++ putBE 8 (8 * l).

Fixpoint chunks (fuel : nat) (n : nat) (b : list Z) : list (list Z) :=
  match fuel, b with
  | S fuel', _ :: _ => firstn n b :: chunks fuel' n (skipn n b)
  | _, _ => []
  end.

(** The message schedule, most recent word first. *)
Fixpoint schedule (n : nat) (w : list Z) : list Z :=
  match n with
  | O => w
  | S n' =>
      let x := add32 (add32 (smallSigma1 (nth 1 w 0)) (nth 6 w 0))
                     (add32 (smallSigma0 (nth 14 w 0)) (nth 15 w 0)) in
      schedule n' (x :: w)
  end.

Definition round (st : list Z) (kw : Z * Z) : list Z :=
  match st with
  | [a; b; c; d; e; f; g; h] =>
      let t1 := add32 (add32 (add32 h (bigSigma1 e)) (add32 (Ch e f g) (fst kw))) (snd kw) in
      let t2 := add32 (bigSigma0 a) (Maj a b c) in
      [add32 t1 t2; a; b; c; add32 d t1; e; f; g]
  | _ => st
  end.

Definition block (st : list Z) (chunk : list Z) : list Z :=
  let w16 := map getBE (chunks 16 4 chunk) in
  let w := rev (schedule 48 (rev w16)) in
  let st' := fold_left round (combine K w) st in
  map (fun p => add32 (fst p) (snd p)) (combine st st').

(** [sha256.Sum256(data)], as 32 bytes. *)
Definition Sum256 (data : list Z) : list Z :=
  let padded := pad data in
  let st := fold_left block (chunks (length padded) 64 padded) init in
  flat_map (putBE 4) st.

End SHA256.

(** ** Formatting helpers of [fmt] and [encoding/hex] *)

Module Fmt.

Fixpoint digits (fuel : nat) (n : Z) (acc : list Z) : list Z :=
  match fuel with
  | O => acc
  | S fuel' =>
      let acc' := (48 + n mod 10) :: acc in
      if n <? 10 then acc' else digits fuel' (n / 10) acc'
  end.

(** [fmt.Sprintf("%d", n)]. *)
Definition Int (n : Z) : list Z :=
  if n <? 0
  then 45 :: digits (S (Z.to_nat (Z.log2 (- n)))) (- n) []
  else digits (S (Z.to_nat (Z.log2 n))) n [].

Definition hexDigit (d : Z) : Z := if d <? 10 then 48 + d else 87 + d.

(** [hex.EncodeToString(b)]. *)
Definition Hex (b : list Z) : list Z :=
  flat_map (fun x => [hexDigit (Z.shiftr (Z.land x 255) 4); hexDigit (Z.land x 15)]) b.

(** [strings.HasSuffix(s, suffix)]. *)
Definition HasSuffix (s suffix : list Z) : bool :=
  (length suffix <=? length s)%nat
  && Bytes.eqb (skipn (length s - length suffix) s) suffix.

End Fmt.

(** ** Sorting with [sort.Slice]

    [sort.Slice] returns some permutation of the slice that is ordered by
    [less]; it is not stable. It is modelled by insertion sort. Where the
    order of elements that compare equal would matter this is said at the
    place of use. *)

Module Sort.
Section Slice.
Context {A : Type}.
Variable less : A -> A -> bool.

Fixpoint insert (x : A) (l : list A) : list A :=
  match l with
  | [] => [x]
  | y :: l' => if less x y then x :: l else y :: insert x l'
  end.

Definition Slice (l : list A) : list A := fold_right insert [] l.
End Slice.
End Sort.

(** ** The key-value block ([internal/data/block]) *)

Module Block.

(** [uint32(x)] *)
Definition uint32 (x : Z) : Z := Z.land x (Z.ones 32).

Record Header := mkHeader {
  DataType : Z;
  CompressionType : Z;
  Count : Z;
  RawSizeBytes : Z;
  StoredSizeBytes : Z;
  CreatedAt : Z;
  BlockID : list Z;
}.

Record Stats := mkStats {
  Min : Z;
  Max : Z;
  MinKey : list Z;
  MaxKey : list Z;
}.

Record keyValuePair := mkPair {
  key : list Z;
  value : list Z;
}.

(** The [Block] struct; [buffer] holds the same bytes as [Data] after
    [Finalize] and is not kept apart. *)
Record Block := mkBlock {
  header : Header;
  stats : Stats;
  Data : list Z;
  pairs : list keyValuePair;
}.

(** [NewBlock], created at Unix time [createdAt] (seconds). *)
Definition NewBlock (createdAt : Z) : Block :=
  {| header := mkHeader 0 0 0 0 0 createdAt (repeat 0 32);
     stats := mkStats 0 0 [] [];
     Data := [];
     pairs := [] |}.

Definition Add (k v : list Z) (b : Block) : Block :=
  let st := stats b in
  let minKey :=
    if (Bytes.len (MinKey st) =? 0) || Bytes.ltb k (MinKey st)
    then k else MinKey st in
  let maxKey :=
    if (Bytes.len (MaxKey st) =? 0) || Bytes.ltb (MaxKey st) k
    then k else MaxKey st in
  {| header := header b;
     stats := mkStats (Min st) (Max st) minKey maxKey;
     Data := Data b;
     pairs := pairs b ++ [mkPair k v] |}.

(** [Get]: linear search, first match; [None] is "key not found". *)
Fixpoint find (k : list Z) (ps : list keyValuePair) : option (list Z) :=
  match ps with
  | [] => None
  | p :: ps' => if Bytes.eqb (key p) k then Some (value p) else find k ps'
  end.

Definition Get (k : list Z) (b : Block) : option (list Z) := find k (pairs b).

Definition less (p q : keyValuePair) : bool := Bytes.ltb (key p) (key q).

Definition encodePair (p : keyValuePair) : list Z :=
  Bytes.PutUint32 (uint32 (Bytes.len (key p))) ++ key p
  ++ Bytes.PutUint32 (uint32 (Bytes.len (value p))) ++ value p.

(** The bytes [Finalize] writes to the buffer for sorted pairs. *)
Definition encodePairs (ps : list keyValuePair) : list Z :=
  Bytes.PutUint32 (uint32 (Z.of_nat (length ps))) ++ flat_map encodePair ps.

Definition Finalize (b : Block) : Block :=
  let ps := Sort.Slice less (pairs b) in
  let count := uint32 (Z.of_nat (length ps)) in
  let buf := encodePairs ps in
  let h := header b in
  {| header := mkHeader (DataType h) (CompressionType h) count
                        (uint32 (Bytes.len buf)) (uint32 (Bytes.len buf))
                        (CreatedAt h) (SHA256.Sum256 buf);
     stats := stats b;
     Data := buf;
     pairs := ps |}.

(** [Encode]: the block after the call (finalized on demand) and the
    bytes written. *)
Definition Encode (b : Block) : Block * list Z :=
  let b := if Bytes.len (Data b) =? 0 then Finalize b else b in
  let h := header b in
  let st := stats b in
  let minKeyLen := uint32 (Bytes.len (MinKey st)) in
  let maxKeyLen := uint32 (Bytes.len (MaxKey st)) in
  (b,
   [Z.land (DataType h) 255; Z.land (CompressionType h) 255]
   ++ Bytes.PutUint32 (Count h)
   ++ Bytes.PutUint32 (RawSizeBytes h)
   ++ Bytes.PutUint32 (StoredSizeBytes h)
   ++ Bytes.PutUint64 (CreatedAt h)
   ++ BlockID h
   ++ Bytes.PutUint64 (Min st)
   ++ Bytes.PutUint64 (Max st)
   ++ Bytes.PutUint32 minKeyLen
   ++ (if minKeyLen >? 0 then MinKey st else [])
   ++ Bytes.PutUint32 maxKeyLen
   ++ (if maxKeyLen >? 0 then MaxKey st else [])
   ++ Data b).

(** [io.ReadFull] of [n] bytes; [None] is any read error. *)
Definition take (n : Z) (r : list Z) : option (list Z * list Z) :=
  if n <=? Bytes.len r
  then Some (firstn (Z.to_nat n) r, skipn (Z.to_nat n) r)
  else None.

(** [binary.Read] of a little-endian unsigned integer of [n] bytes. *)
Definition readUint (n : Z) (r : list Z) : option (Z * list Z) :=
  '(b, r) ← take n r; Some (Bytes.getLE b, r).

Fixpoint readPairs (count : nat) (r : list Z) : option (list keyValuePair) :=
  match count with
  | O => Some []
  | S count' =>
      '(keyLen, r) ← readUint 4 r;
      '(k, r) ← take keyLen r;
      '(valueLen, r) ← readUint 4 r;
      '(v, r) ← take valueLen r;
      ps ← readPairs count' r;
      Some (mkPair k v :: ps)
  end.

(** [Decode] into the block [b] from the bytes [r]; [None] is an error
    return. *)
Definition Decode (b : Block) (r : list Z) : option Block :=
  '(dataType, r) ← readUint 1 r;
  '(compressionType, r) ← readUint 1 r;
  '(count, r) ← readUint 4 r;
  '(rawSize, r) ← readUint 4 r;
  '(storedSize, r) ← readUint 4 r;
  '(createdAt, r) ← readUint 8 r;
  '(blockID, r) ← take 32 r;
  '(min, r) ← readUint 8 r;
  '(max, r) ← readUint 8 r;
  '(minKeyLen, r) ← readUint 4 r;
  '(minKey, r) ← (if minKeyLen >? 0 then take minKeyLen r
                   else Some (MinKey (stats b), r));
  '(maxKeyLen, r) ← readUint 4 r;
  '(maxKey, r) ← (if maxKeyLen >? 0 then take maxKeyLen r
                   else Some (MaxKey (stats b), r));
  '(data, r) ← take storedSize r;
  '(pairCount, buffer) ← readUint 4 data;
  ps ← readPairs (Z.to_nat pairCount) buffer;
  Some {| header := mkHeader dataType compressionType count rawSize storedSize
                             (Bytes.int64_of_uint64 createdAt) blockID;
          stats := mkStats min max minKey maxKey;
          Data := data;
          pairs := ps |}.

(** [ID]: the block id in hexadecimal. *)
Definition ID (b : Block) : list Z := Fmt.Hex (BlockID (header b)).

End Block.


(** ** How a call ends *)

Module Go.

(** With a result, with a returned error, or in a run-time panic. *)
Inductive outcome (A : Type) : Type :=
| Done (a : A)
| Failed
| Panicked.

Arguments Done {A} a.
Arguments Failed {A}.
Arguments Panicked {A}.

(** The value of an [int64] expression: the mathematical value wrapped
    to 64 bits, two's complement. *)
Definition int64 (x : Z) : Z := (x + 2 ^ 63) mod 2 ^ 64 - 2 ^ 63.

End Go.

(** ** The data directory *)

Module Disk.

(** The file [data/L<level>/<name>]. *)
Definition path : Type := nat * list Z.

Record fileInfo := mkInfo {
  contents : list Z;
  modTime : Z;
}.

(** The files under the data directory, in no particular order. *)
Definition disk : Type := list (path * fileInfo).

Definition samePath (p q : path) : bool :=
  (fst p =? fst q)%nat && Bytes.eqb (snd p) (snd q).

(** [os.Open] and read; [None] when the file does not exist. *)
Fixpoint read (p : path) (d : disk) : option fileInfo :=
  match d with
  | [] => None
  | (q, f) :: d' => if samePath p q then Some f else read p d'
  end.

(** [os.Remove]. *)
Definition remove (p : path) (d : disk) : disk :=
  List.filter (fun e => negb (samePath p (fst e))) d.

(** [os.Create] followed by writing [bs]. *)
Definition write (p : path) (bs : list Z) (now : Z) (d : disk) : disk :=
  remove p d ++ [(p, mkInfo bs now)].

(** [os.Rename]: [None] when [p] does not exist; a file at [q] is
    replaced. *)
Definition rename (p q : path) (d : disk) : option disk :=
  match read p d with
  | None => None
  | Some f =>
      if samePath p q then Some d
      else Some (remove p (remove q d) ++ [(q, f)])
  end.

(** [os.ReadDir] of a level directory: its entries sorted by file name. *)
Definition ReadDir (level : nat) (d : disk) : list (list Z * fileInfo) :=
  Sort.Slice (fun a b => Bytes.ltb (fst a) (fst b))
    (map (fun e => (snd (fst e), snd e))
         (List.filter (fun e => (fst (fst e) =? level)%nat) d)).

End Disk.

(** ** The LSM index ([LSMTree]) *)

Module LSM.

Record blockInfo := mkBlockInfo {
  path : Disk.path;
  size : Z;
  minKey : list Z;
  maxKey : list Z;
  createdAt : Z;
}.

(** The [LSMTree] struct. [compactionChan] has room for one signal;
    its field here counts the signals waiting in it. The tree's own
    mutex is taken and released inside each method and never held across
    a call back into the tree, so it is free between calls and is not
    represented. *)
Record LSMTree := mkTree {
  levels : list (list blockInfo);
  levelMaxSizes : list Z;
  compactionThresholds : list Z;
  compacting : bool;
  compactionChan : nat;
  compactionChanClosed : bool;
}.

Definition level (t : LSMTree) (i : nat) : list blockInfo := nth i (levels t) [].

Definition setLevel (i : nat) (bs : list blockInfo) (t : LSMTree) : LSMTree :=
  mkTree (<[i := bs]> (levels t)) (levelMaxSizes t) (compactionThresholds t)
         (compacting t) (compactionChan t) (compactionChanClosed t).

Definition blk : list Z := Bytes.ofString ".blk"%string.

(** The block files [loadExistingBlocks] finds in one level directory.
    The min and max keys are the placeholder of the source: the file
    name. *)
Definition loadLevel (d : Disk.disk) (lv : nat) : list blockInfo :=
  flat_map (fun file =>
    let '(name, info) := file in
    if negb (Fmt.HasSuffix name blk) then []
    else [mkBlockInfo (lv, name) (Bytes.len (Disk.contents info))
                      name name (Disk.modTime info)])
    (Disk.ReadDir lv d).

Definition loadExistingBlocks (d : Disk.disk) (t : LSMTree) : LSMTree :=
  fold_left
    (fun t lv =>
       setLevel lv
         (Sort.Slice (fun a b => Bytes.ltb (minKey a) (minKey b))
                     (level t lv ++ loadLevel d lv)) t)
    (seq 0 7) t.

(** [NewLSMTree] over the data directory [d]. *)
Definition NewLSMTree (d : Disk.disk) : LSMTree :=
  let base := 64 * 1024 * 1024 in
  let maxSizes := map (fun i => Z.shiftl base (2 * Z.of_nat i)) (seq 0 7) in
  loadExistingBlocks d
    {| levels := repeat [] 7;
       levelMaxSizes := maxSizes;
       compactionThresholds := map (fun m => m * 3 / 4) maxSizes;
       compacting := false;
       compactionChan := 0;
       compactionChanClosed := false |}.

Definition shouldCompact (t : LSMTree) (lv : nat) : bool :=
  let totalSize := fold_left (fun acc b => acc + size b) (level t lv) 0 in
  totalSize >=? nth lv (compactionThresholds t) 0.

Definition triggerCompaction (t : LSMTree) : LSMTree :=
  if compacting t then t
  else mkTree (levels t) (levelMaxSizes t) (compactionThresholds t) true
              (if (compactionChan t <? 1)%nat then S (compactionChan t)
               else compactionChan t)
              (compactionChanClosed t).

(** [Write] at time [now] (nanoseconds). The file name is built before
    the block is encoded, from the block id the block has then. *)
Definition Write (now : Z) (b : Block.Block) (d : Disk.disk) (t : LSMTree)
  : Disk.disk * LSMTree :=
  let filename :=
    Fmt.Int now ++ Bytes.ofString "_"%string ++ Block.ID b ++ blk in
  let p : Disk.path := (0%nat, filename) in
  let '(b', bs) := Block.Encode b in
  let d' := Disk.write p bs now d in
  let t' :=
    setLevel 0 (level t 0 ++
                [mkBlockInfo p (Bytes.len bs)
                   (Block.MinKey (Block.stats b')) (Block.MaxKey (Block.stats b'))
                   now]) t in
  (d', if shouldCompact t' 0 then triggerCompaction t' else t').

Definition keyInRange (k lo hi : list Z) : bool :=
  Bytes.leb lo k && Bytes.leb k hi.

(** The loop of [findBlockIndex]; the result is the index or [-1]. *)
Fixpoint search (fuel : nat) (blocks : list blockInfo) (k : list Z) (left right : Z) : Z :=
  match fuel with
  | O => -1
  | S fuel' =>
      if left <=? right then
        let mid := (left + right) / 2 in
        match nth_error blocks (Z.to_nat mid) with
        | None => -1
        | Some b =>
            if Bytes.ltb k (minKey b) then search fuel' blocks k left (mid - 1)
            else if Bytes.ltb (maxKey b) k then search fuel' blocks k (mid + 1) right
            else mid
        end
      else -1
  end.

Definition findBlockIndex (t : LSMTree) (lv : nat) (k : list Z) : Z :=
  let blocks := level t lv in
  search (S (length blocks)) blocks k 0 (Z.of_nat (length blocks) - 1).

(** [readFromBlock]; [None] is any error (missing file, undecodable
    block, key not in the block). *)
Definition readFromBlock (d : Disk.disk) (p : Disk.path) (k : list Z) : option (list Z) :=
  f ← Disk.read p d;
  b ← Block.Decode (Block.NewBlock 0) (Disk.contents f);
  Block.Get k b.

(** The scan of level 0, newest block first. *)
Fixpoint scanNewestFirst (d : Disk.disk) (k : list Z) (newestFirst : list blockInfo)
  : option (list Z) :=
  match newestFirst with
  | [] => None
  | b :: older =>
      if keyInRange k (minKey b) (maxKey b) then
        match readFromBlock d (path b) k with
        | Some v => Some v
        | None => scanNewestFirst d k older
        end
      else scanNewestFirst d k older
  end.

Definition readLevel (d : Disk.disk) (t : LSMTree) (k : list Z) (lv : nat)
  : option (list Z) :=
  if (lv =? 0)%nat then scanNewestFirst d k (rev (level t 0))
  else
    let idx := findBlockIndex t lv k in
    if idx >=? 0 then
      match nth_error (level t lv) (Z.to_nat idx) with
      | Some b => readFromBlock d (path b) k
      | None => None
      end
    else None.

Fixpoint readLevels (d : Disk.disk) (t : LSMTree) (k : list Z) (lvs : list nat)
  : option (list Z) :=
  match lvs with
  | [] => None
  | lv :: lvs' =>
      match readLevel d t k lv with
      | Some v => Some v
      | None => readLevels d t k lvs'
      end
  end.

(** [Read]; [None] is the error "key not found". *)
Definition Read (d : Disk.disk) (t : LSMTree) (k : list Z) : option (list Z) :=
  readLevels d t k (seq 0 7).

(** The block as [compactLevel] records it in the next level: the same
    file name under the next level's directory. *)
Definition moved (nextLevel : nat) (b : blockInfo) : blockInfo :=
  mkBlockInfo (nextLevel, snd (path b)) (size b) (minKey b) (maxKey b) (createdAt b).

(** The loop of [compactLevel] over the blocks of the level: a block
    whose file cannot be renamed is skipped. *)
Definition moveBlocks (nextLevel : nat) (blocks : list blockInfo)
    (d : Disk.disk) (t : LSMTree) : Disk.disk * LSMTree :=
  fold_left
    (fun (s : Disk.disk * LSMTree) block =>
       let '(d, t) := s in
       match Disk.rename (path block) (nextLevel, snd (path block)) d with
       | None => (d, t)
       | Some d' =>
           (d', setLevel nextLevel (level t nextLevel ++ [moved nextLevel block]) t)
       end)
    blocks (d, t).

(** [compactLevel(level)] with [below] levels after [level]: the call
    recurses into the next level when that level has reached its
    threshold. With no level after it ([level = 6]) the index
    [t.levels[nextLevel]], or [t.compactionThresholds[nextLevel]] in
    [shouldCompact], is out of range and the call panics. *)
Fixpoint compactFrom (below : nat) (lv : nat) (d : Disk.disk) (t : LSMTree)
  : Go.outcome (Disk.disk * LSMTree) :=
  match below with
  | O => Go.Panicked
  | S below' =>
      let nextLevel := S lv in
      let '(d1, t1) := moveBlocks nextLevel (level t lv) d t in
      let t2 := setLevel lv [] t1 in
      if shouldCompact t2 nextLevel then compactFrom below' nextLevel d1 t2
      else Go.Done (d1, t2)
  end.

Definition compactLevel (lv : nat) (d : Disk.disk) (t : LSMTree)
  : Go.outcome (Disk.disk * LSMTree) :=
  compactFrom (6 - lv) lv d t.

(** [runCompaction]: levels 0 to 5 in turn. *)
Definition runCompaction (d : Disk.disk) (t : LSMTree)
  : Go.outcome (Disk.disk * LSMTree) :=
  fold_left
    (fun (s : Go.outcome (Disk.disk * LSMTree)) lv =>
       match s with
       | Go.Done (d, t) =>
           if shouldCompact t lv then compactLevel lv d t else Go.Done (d, t)
       | Go.Failed => Go.Failed
       | Go.Panicked => Go.Panicked
       end)
    (seq 0 6) (Go.Done (d, t)).

(** [Close]: closes the compaction channel. *)
Definition Close (t : LSMTree) : LSMTree :=
  mkTree (levels t) (levelMaxSizes t) (compactionThresholds t)
         (compacting t) (compactionChan t) true.

End LSM.

(** ** The compaction worker ([CompactionManager.compact]) *)

Module Compaction.

Record compactionTask := mkTask {
  sourceLevel : nat;
  targetLevel : nat;
  blocks : list LSM.blockInfo;
}.

Definition placeholder : list Z := Bytes.ofString "placeholder value"%string.

(** The result of [compact]: bytes read, bytes written, whether an error
    is returned, and the data directory afterwards.

    The goroutines that "read" the source blocks only open them and send
    one pair per block, ([minKey], "placeholder value"), on the channel;
    the loop that "writes" the output only adds up lengths. The target
    file is created and nothing is written to it. The source files are
    removed when every one of them could be opened. The goroutines add
    to [bytesRead] without synchronisation; the sum below is what they
    produce when no update is lost. *)
Definition compact (now : Z) (task : compactionTask) (d : Disk.disk)
  : Z * Z * bool * Disk.disk :=
  let sorted :=
    Sort.Slice (fun a b => Bytes.ltb (LSM.minKey a) (LSM.minKey b)) (blocks task) in
  let opened :=
    List.filter (fun b => match Disk.read (LSM.path b) d with
                          | Some _ => true | None => false end) sorted in
  let failed := negb (length opened =? length sorted)%nat in
  let bytesRead := fold_left (fun acc b => acc + LSM.size b) opened 0 in
  let targetPath : Disk.path :=
    (targetLevel task, Fmt.Int now ++ LSM.blk) in
  let d1 := Disk.write targetPath [] now d in
  let bytesWritten :=
    fold_left (fun acc b => acc + (Bytes.len (LSM.minKey b) + Bytes.len placeholder))
              opened 0 in
  if failed then (bytesRead, bytesWritten, true, d1)
  else
    (bytesRead, bytesWritten, false,
     fold_left (fun d b => Disk.remove (LSM.path b) d) sorted d1).

(** What [RunCompaction] and [ScheduleCompaction] use of the
    [CompactionManager]: the number of workers, the task channel, and
    the two counters [stats.TasksInQueue] and [stats.TasksDropped]. *)
Record CompactionManager := mkCompactionManager {
  numWorkers : Z;
  taskChan : list compactionTask;
  TasksInQueue : Z;
  TasksDropped : Z;
}.

(** [ScheduleCompaction]. [accepted] tells whether the channel took the
    task before the 10 ms timer fired; this depends on the workers and
    on the room left in the channel. *)
Definition ScheduleCompaction (accepted : bool) (source target : nat)
    (bs : list LSM.blockInfo) (c : CompactionManager) : CompactionManager :=
  if (length bs =? 0)%nat then c
  else if accepted then
    mkCompactionManager (numWorkers c)
      (taskChan c ++ [mkTask source target bs]) (TasksInQueue c) (TasksDropped c)
  else
    mkCompactionManager (numWorkers c) (taskChan c) (TasksInQueue c)
      (TasksDropped c + 1).

(** The loop of [RunCompaction] over the levels still to visit. *)
Fixpoint runLevels (accepted1 accepted2 : bool) (lvs : list nat)
    (c : CompactionManager) (t : LSM.LSMTree) : CompactionManager * LSM.LSMTree :=
  match lvs with
  | [] => (c, t)
  | lv :: rest =>
      if negb (LSM.shouldCompact t lv) then runLevels accepted1 accepted2 rest c t
      else
        let bs := LSM.level t lv in
        if (length bs =? 0)%nat then runLevels accepted1 accepted2 rest c t
        else if (lv =? 0)%nat && (4 <? length bs)%nat then
          let batchSize := ((length bs + 1) / 2)%nat in
          let c1 := ScheduleCompaction accepted1 lv (lv + 1) (firstn batchSize bs) c in
          let c2 := ScheduleCompaction accepted2 lv (lv + 1) (skipn batchSize bs) c1 in
          (c2, LSM.setLevel lv [] t)
        else
          (ScheduleCompaction accepted1 lv (lv + 1) bs c, LSM.setLevel lv [] t)
  end.

(** [RunCompaction]; [accepted1] and [accepted2] are the outcomes of the
    first and the second send of the cycle. *)
Definition RunCompaction (accepted1 accepted2 : bool)
    (c : CompactionManager) (t : LSM.LSMTree) : CompactionManager * LSM.LSMTree :=
  if TasksInQueue c >? numWorkers c * 2 then (c, t)
  else runLevels accepted1 accepted2 (seq 0 6) c t.

End Compaction.

(** ** Map keys through [encoding/json] *)

Module JSON.

Definition continuation (b : Z) : bool := (0x80 <=? b) && (b <=? 0xBF).

(** The width of the UTF-8 encoding at the head of [s] as
    [utf8.DecodeRuneInString] finds it, or 0 when the head is not a valid
    encoding (the decoder then returns [RuneError] with width 1). *)
Definition runeWidth (s : list Z) : nat :=
  match s with
  | [] => 0
  | b0 :: s1 =>
      if b0 <? 0x80 then 1
      else if (0xC2 <=? b0) && (b0 <=? 0xDF) then
        match s1 with
        | b1 :: _ => if continuation b1 then 2 else 0
        | _ => 0
        end
      else if (0xE0 <=? b0) && (b0 <=? 0xEF) then
        match s1 with
        | b1 :: b2 :: _ =>
            let lo := if b0 =? 0xE0 then 0xA0 else 0x80 in
            let hi := if b0 =? 0xED then 0x9F else 0xBF in
            if (lo <=? b1) && (b1 <=? hi) && continuation b2 then 3 else 0
        | _ => 0
        end
      else if (0xF0 <=? b0) && (b0 <=? 0xF4) then
        match s1 with
        | b1 :: b2 :: b3 :: _ =>
            let lo := if b0 =? 0xF0 then 0x90 else 0x80 in
            let hi := if b0 =? 0xF4 then 0x8F else 0xBF in
            if (lo <=? b1) && (b1 <=? hi) && continuation b2 && continuation b3
            then 4 else 0
        | _ => 0
        end
      else 0
  end.

(** U+FFFD in UTF-8. *)
Definition replacement : list Z := [0xEF; 0xBF; 0xBD].

(** A string written by the encoder and read back by the decoder: valid
    encodings come back as they were (the escapes the encoder writes for
    some of them are undone by the decoder); a byte that begins no valid
    encoding is written as [\ufffd] and comes back as U+FFFD. Every pass
    consumes a byte or more; [fuel] is the number of bytes. *)
Fixpoint roundTrip (fuel : nat) (s : list Z) : list Z :=
  match fuel, s with
  | S fuel', _ :: s' =>
      match runeWidth s with
      | O => replacement ++ roundTrip fuel' s'
      | w => firstn w s ++ roundTrip fuel' (skipn w s)
      end
  | _, _ => []
  end.

Definition key (s : list Z) : list Z := roundTrip (length s) s.

(** A [map[string][]byte] written and read back: the encoder writes the
    entries in ascending order of their keys, the decoder stores them one
    after the other under the keys it reads, a later entry replacing an
    earlier one with the same key. *)
Definition mapKeys (m : gmap (list Z) (list Z)) : gmap (list Z) (list Z) :=
  fold_left (fun acc kv => <[key (fst kv) := snd kv]> acc)
            (Sort.Slice (fun a b => Bytes.ltb (fst a) (fst b)) (map_to_list m)) ∅.

End JSON.
(** ** The engine ([Engine]) *)

Module Engine.

(** [CheckpointData], the document [Checkpoint.Save] encodes as JSON. *)
Record CheckpointData := mkData {
  Timestamp : Z;
  LastWALTimestamp : Z;
  MemTable : gmap (list Z) (list Z);
  MemTableSize : Z;
}.

(** The file [checkpoint/checkpoint.json]: absent, not decodable, or
    holding a document, given here as [json.Decoder] reads it back. *)
Inductive checkpointFile :=
| NoFile
| Undecodable
| Saved (d : CheckpointData).

Record Checkpoint := mkCheckpoint {
  stored : checkpointFile;
  lastWALTimestamp : Z;
}.

Definition NewCheckpoint (f : checkpointFile) : Checkpoint := mkCheckpoint f 0.

(** [Save]: the document goes through [json.Encoder]. The integers and
    the values of the map (base64) come back as they were; the keys of
    the map come back as [JSON.mapKeys] gives them. *)
Definition Save (now : Z) (memTable : gmap (list Z) (list Z)) (memTableSize : Z)
           (lastWAL : Z) (c : Checkpoint) : Checkpoint :=
  mkCheckpoint (Saved (mkData now lastWAL (JSON.mapKeys memTable) memTableSize)) lastWAL.

Definition Load (c : Checkpoint)
  : gmap (list Z) (list Z) * Z * Z * Checkpoint :=
  match stored c with
  | NoFile | Undecodable => (∅, 0, 0, c)
  | Saved d =>
      (MemTable d, MemTableSize d, LastWALTimestamp d,
       mkCheckpoint (stored c) (LastWALTimestamp d))
  end.

(** What the engine touches of its [CompactionManager]. *)
Record CompactionManager := mkManager {
  numWorkers : nat;
  taskChan : list Compaction.compactionTask;
  stopped : bool;
}.

(** A [chan struct{}] with a buffer of one. *)
Record signalChan := mkChan {
  pending : nat;
  chanClosed : bool;
}.

(** [select { case ch <- struct{}{}: default: }] *)
Definition trySend (c : signalChan) : signalChan :=
  if (pending c <? 1)%nat then mkChan (S (pending c)) (chanClosed c) else c.

(** The state of a [sync.RWMutex]. *)
Inductive RWMutex :=
| Unlocked
| ReadLocked (readers : nat)      (* [S readers] holders *)
| WriteLocked.

Record Engine := mkEngine {
  disk : Disk.disk;
  lsm : LSM.LSMTree;
  wal : WAL.WAL;
  checkpoint : Checkpoint;
  compaction : CompactionManager;
  mu : RWMutex;
  memTable : gmap (list Z) (list Z);
  memTableSize : Z;
  maxMemTableSize : Z;
  flushChan : signalChan;
  checkpointChan : signalChan;
  lastCheckpointedWALTimestamp : Z;
  closed : bool;
}.

Definition set_disk (x : Disk.disk) (e : Engine) : Engine :=
  mkEngine x (lsm e) (wal e) (checkpoint e) (compaction e) (mu e) (memTable e) (memTableSize e) (maxMemTableSize e) (flushChan e) (checkpointChan e) (lastCheckpointedWALTimestamp e) (closed e).
Definition set_lsm (x : LSM.LSMTree) (e : Engine) : Engine :=
  mkEngine (disk e) x (wal e) (checkpoint e) (compaction e) (mu e) (memTable e) (memTableSize e) (maxMemTableSize e) (flushChan e) (checkpointChan e) (lastCheckpointedWALTimestamp e) (closed e).
Definition set_wal (x : WAL.WAL) (e : Engine) : Engine :=
  mkEngine (disk e) (lsm e) x (checkpoint e) (compaction e) (mu e) (memTable e) (memTableSize e) (maxMemTableSize e) (flushChan e) (checkpointChan e) (lastCheckpointedWALTimestamp e) (closed e).
Definition set_checkpoint (x : Checkpoint) (e : Engine) : Engine :=
  mkEngine (disk e) (lsm e) (wal e) x (compaction e) (mu e) (memTable e) (memTableSize e) (maxMemTableSize e) (flushChan e) (checkpointChan e) (lastCheckpointedWALTimestamp e) (closed e).
Definition set_compaction (x : CompactionManager) (e : Engine) : Engine :=
  mkEngine (disk e) (lsm e) (wal e) (checkpoint e) x (mu e) (memTable e) (memTableSize e) (maxMemTableSize e) (flushChan e) (checkpointChan e) (lastCheckpointedWALTimestamp e) (closed e).
Definition set_mu (x : RWMutex) (e : Engine) : Engine :=
  mkEngine (disk e) (lsm e) (wal e) (checkpoint e) (compaction e) x (memTable e) (memTableSize e) (maxMemTableSize e) (flushChan e) (checkpointChan e) (lastCheckpointedWALTimestamp e) (closed e).
Definition set_memTable (x : gmap (list Z) (list Z)) (e : Engine) : Engine :=
  mkEngine (disk e) (lsm e) (wal e) (checkpoint e) (compaction e) (mu e) x (memTableSize e) (maxMemTableSize e) (flushChan e) (checkpointChan e) (lastCheckpointedWALTimestamp e) (closed e).
Definition set_memTableSize (x : Z) (e : Engine) : Engine :=
  mkEngine (disk e) (lsm e) (wal e) (checkpoint e) (compaction e) (mu e) (memTable e) x (maxMemTableSize e) (flushChan e) (checkpointChan e) (lastCheckpointedWALTimestamp e) (closed e).
Definition set_maxMemTableSize (x : Z) (e : Engine) : Engine :=
  mkEngine (disk e) (lsm e) (wal e) (checkpoint e) (compaction e) (mu e) (memTable e) (memTableSize e) x (flushChan e) (checkpointChan e) (lastCheckpointedWALTimestamp e) (closed e).
Definition set_flushChan (x : signalChan) (e : Engine) : Engine :=
  mkEngine (disk e) (lsm e) (wal e) (checkpoint e) (compaction e) (mu e) (memTable e) (memTableSize e) (maxMemTableSize e) x (checkpointChan e) (lastCheckpointedWALTimestamp e) (closed e).
Definition set_checkpointChan (x : signalChan) (e : Engine) : Engine :=
  mkEngine (disk e) (lsm e) (wal e) (checkpoint e) (compaction e) (mu e) (memTable e) (memTableSize e) (maxMemTableSize e) (flushChan e) x (lastCheckpointedWALTimestamp e) (closed e).
Definition set_lastCheckpointedWALTimestamp (x : Z) (e : Engine) : Engine :=
  mkEngine (disk e) (lsm e) (wal e) (checkpoint e) (compaction e) (mu e) (memTable e) (memTableSize e) (maxMemTableSize e) (flushChan e) (checkpointChan e) x (closed e).
Definition set_closed (x : bool) (e : Engine) : Engine :=
  mkEngine (disk e) (lsm e) (wal e) (checkpoint e) (compaction e) (mu e) (memTable e) (memTableSize e) (maxMemTableSize e) (flushChan e) (checkpointChan e) (lastCheckpointedWALTimestamp e) x.
(** The errors the engine returns. *)
Inductive error :=
| ErrClosed                         (* "engine is closed" *)
| ErrKeyNotFound                    (* "key not found" *)
| ErrRecover (r : WAL.replayResult). (* "failed to recover from checkpoint/WAL" *)

(** How a call ends: it returns, it waits on the engine's mutex, or it
    panics. Calls are made one at a time, so a mutex found held is held by
    the very call that waits for it, and the wait has no end. A panic is
    recovered nowhere in the package: it unwinds through the callers, and
    nothing after the point of the panic is run. *)
Inductive outcome (A : Type) :=
| Returned (a : A) (e : Engine)
| Blocked (e : Engine)
| Panicked (e : Engine).
Arguments Returned {A} a e.
Arguments Blocked {A} e.
Arguments Panicked {A} e.

Definition M (A : Type) : Type := Engine -> outcome A.

#[global] Instance M_ret : MRet M := fun A a e => Returned a e.
#[global] Instance M_bind : MBind M := fun A B f m e =>
  match m e with
  | Returned a e' => f a e'
  | Blocked e' => Blocked e'
  | Panicked e' => Panicked e'
  end.

Definition gets {A} (f : Engine -> A) : M A := fun e => Returned (f e) e.
Definition modify (f : Engine -> Engine) : M unit := fun e => Returned tt (f e).

(** [e.mu.Lock()]: waits while the mutex is held in any mode. *)
Definition Lock : M unit := fun e =>
  match mu e with
  | Unlocked => Returned tt (set_mu WriteLocked e)
  | _ => Blocked e
  end.

Definition Unlock : M unit := modify (set_mu Unlocked).

(** [e.mu.RLock()]: waits while a writer holds the mutex. *)
Definition RLock : M unit := fun e =>
  match mu e with
  | Unlocked => Returned tt (set_mu (ReadLocked 0) e)
  | ReadLocked n => Returned tt (set_mu (ReadLocked (S n)) e)
  | WriteLocked => Blocked e
  end.

Definition RUnlock : M unit := fun e =>
  match mu e with
  | ReadLocked (S n) => Returned tt (set_mu (ReadLocked n) e)
  | _ => Returned tt (set_mu Unlocked e)
  end.

Definition oldSizeOf (m : gmap (list Z) (list Z)) (k : list Z) : Z :=
  match m !! k with
  | Some oldValue => Bytes.len oldValue
  | None => 0
  end.

(** [Put] at time [now]. *)
Definition Put (now : Z) (k v : list Z) : M (option error) :=
  Lock;;
  isClosed ← gets closed;
  if isClosed : bool then Unlock;; mret (Some ErrClosed)
  else
    modify (fun e => set_wal (WAL.AppendPut now k v (wal e)) e);;
    oldSize ← gets (fun e => oldSizeOf (memTable e) k);
    modify (fun e => set_memTable (<[k := v]> (memTable e)) e);;
    modify (fun e => set_memTableSize
                       (memTableSize e + (Bytes.len k + Bytes.len v) - oldSize) e);;
    full ← gets (fun e => memTableSize e >=? maxMemTableSize e);
    (if full : bool then modify (fun e => set_flushChan (trySend (flushChan e)) e)
     else mret tt);;
    Unlock;;
    mret None.

(** [Get]: the value and the error of the Go result pair. *)
Definition Get (k : list Z) : M (list Z * option error) :=
  RLock;;
  isClosed ← gets closed;
  if isClosed : bool then RUnlock;; mret ([], Some ErrClosed)
  else
    hit ← gets (fun e => memTable e !! k);
    match hit with
    | Some v => RUnlock;; mret (v, None)
    | None =>
        RUnlock;;
        found ← gets (fun e => LSM.Read (disk e) (lsm e) k);
        match found with
        | Some v => mret (v, None)
        | None => mret ([], Some ErrKeyNotFound)
        end
    end.

(** [Delete] at time [now]. *)
Definition Delete (now : Z) (k : list Z) : M (option error) :=
  Lock;;
  isClosed ← gets closed;
  if isClosed : bool then Unlock;; mret (Some ErrClosed)
  else
    modify (fun e => set_wal (WAL.AppendDelete now k (wal e)) e);;
    oldSize ← gets (fun e => oldSizeOf (memTable e) k);
    modify (fun e => set_memTable (delete k (memTable e)) e);;
    modify (fun e => set_memTableSize (memTableSize e - oldSize) e);;
    Unlock;;
    mret None.

(** The callback [recover] gives to [ReplayFrom]. *)
Definition applyEntry (entry : WAL.WALEntry) (e : Engine) : Engine * bool :=
  let e1 :=
    if WAL.OpType entry =? WAL.OpTypePut then
      set_memTableSize
        (memTableSize e + (Bytes.len (WAL.Key entry) + Bytes.len (WAL.Value entry)))
        (set_memTable (<[WAL.Key entry := WAL.Value entry]> (memTable e)) e)
    else if WAL.OpType entry =? WAL.OpTypeDelete then
      set_memTable (delete (WAL.Key entry) (memTable e)) e
    else e in
  (set_lastCheckpointedWALTimestamp (WAL.Timestamp entry) e1, false).

(** [recover]: load the checkpoint, then replay the WAL after it. A
    panic in the replay loop (a record with a matching CRC whose payload
    is too short for the fields read from it) passes through [ReplayFrom]
    and [recover]. *)
Definition recover : M (option error) := fun e =>
  let '(memTable, memTableSize, lastWALTimestamp, c) := Load (checkpoint e) in
  let e1 :=
    set_lastCheckpointedWALTimestamp lastWALTimestamp
      (set_memTableSize memTableSize
         (set_memTable memTable (set_checkpoint c e))) in
  match WAL.ReplayFrom applyEntry (wal e1) lastWALTimestamp e1 with
  | (e2, WAL.ReplayOk) => Returned None e2
  | (e2, WAL.ReplayPanic) => Panicked e2
  | (e2, r) => Returned (Some (ErrRecover r)) e2
  end.

(** [createCheckpoint] at time [now]. *)
Definition createCheckpoint (now : Z) : M (option error) :=
  RLock;;
  modify (fun e =>
    set_checkpoint
      (Save now (memTable e) (memTableSize e) (lastCheckpointedWALTimestamp e)
            (checkpoint e)) e);;
  RUnlock;;
  mret None.

(** [flush] at time [now]. The pairs are added to the block in the order
    in which [range] visits the map, which Go leaves unspecified; the
    enumeration of the finite map stands for it. *)
Definition flush (now : Z) : M (option error) :=
  Lock;;
  memTable ← gets memTable;
  modify (set_memTable ∅);;
  modify (set_memTableSize 0);;
  Unlock;;
  let b :=
    fold_left (fun b kv => Block.Add (fst kv) (snd kv) b)
              (map_to_list memTable) (Block.NewBlock (now / 1000000000)) in
  modify (fun e =>
    let '(d, t) := LSM.Write now b (disk e) (lsm e) in
    set_lsm t (set_disk d e));;
  mret None.

Definition closeChan (c : signalChan) : signalChan := mkChan (pending c) true.

(** [Close] at time [now]. *)
Definition Close (now : Z) : M (option error) :=
  Lock;;
  isClosed ← gets closed;
  if isClosed : bool then Unlock;; mret None
  else
    modify (set_closed true);;
    createCheckpoint now;;
    flush now;;
    modify (fun e => set_flushChan (closeChan (flushChan e)) e);;
    modify (fun e => set_checkpointChan (closeChan (checkpointChan e)) e);;
    modify (fun e =>
      set_compaction (mkManager (numWorkers (compaction e))
                                (taskChan (compaction e)) true) e);;
    modify (fun e => set_wal (WAL.Close (wal e)) e);;
    modify (fun e => set_lsm (LSM.Close (lsm e)) e);;
    Unlock;;
    mret None.

(** The engine [NewEngine] builds over a base directory with the given
    data files, WAL files and checkpoint file, before recovery. *)
Definition create (now : Z) (d : Disk.disk) (walFiles : list WAL.walFile)
           (c : checkpointFile) : Engine :=
  {| disk := d;
     lsm := LSM.NewLSMTree d;
     wal := WAL.NewWAL now walFiles;
     checkpoint := NewCheckpoint c;
     compaction := mkManager 4 [] false;
     mu := Unlocked;
     memTable := ∅;
     memTableSize := 0;
     maxMemTableSize := 32 * 1024 * 1024;
     flushChan := mkChan 0 false;
     checkpointChan := mkChan 0 false;
     lastCheckpointedWALTimestamp := 0;
     closed := false |}.

(** [NewEngine]: build, recover, and on a recovery error close the
    engine and return the error. *)
Definition NewEngine (now : Z) (d : Disk.disk) (walFiles : list WAL.walFile)
           (c : checkpointFile) : outcome (option error) :=
  (r ← recover;
   match r with
   | Some err => Close now;; mret (Some err)
   | None => mret None
   end) (create now d walFiles c).

End Engine.


(** ** Column encoders ([internal/data/encoding]) *)

Module Encoding.

(** A slice passed as [interface{}]: its dynamic type and its elements.
    A float is held by its IEEE-754 bit pattern, which is what
    [binary.Write] writes and what [binary.Read] reads back. *)
Inductive values : Type :=
| Int32s (l : list Z)
| Int64s (l : list Z)
| Float32s (bits : list Z)
| Float64s (bits : list Z)
| Bools (l : list bool)
| Strings (l : list (list Z)).

(** The element type of the slice a [dst] pointer points to. *)
Inductive kind : Type := KInt32 | KInt64 | KFloat32 | KFloat64 | KBool | KString.

Definition uint32 (x : Z) : Z := Z.land x (Z.ones 32).

(** [int32(u)] for a [uint32] value [u]. *)
Definition int32_of_uint32 (u : Z) : Z :=
  if u <? 2 ^ 31 then u else u - 2 ^ 32.

(** [binary.Write(w, binary.LittleEndian, v)] for a slice of integers of
    [width] bytes each. *)
Definition binaryWrite (width : nat) (l : list Z) : list Z :=
  flat_map (Bytes.putLE width) l.

Definition byteOfBool (b : bool) : Z := if b then 1 else 0.

(** [io.ReadFull(r, buf)] with [len(buf) = n], [n >= 0]: the bytes read
    and the rest of the reader, or [None] at a short read. *)
Definition ReadFull (n : nat) (r : list Z) : option (list Z * list Z) :=
  if (n <=? length r)%nat then Some (firstn n r, skipn n r) else None.

Fixpoint uints (width count : nat) (b : list Z) : list Z :=
  match count with
  | O => []
  | S count' => Bytes.getLE (firstn width b) :: uints width count' (skipn width b)
  end.

(** [binary.Read(r, binary.LittleEndian, s)] for a slice [s] of [count]
    integers of [width] bytes each: one [io.ReadFull] of
    [count * width] bytes, then the elements as unsigned numbers. *)
Definition binaryRead (width count : nat) (r : list Z) : option (list Z * list Z) :=
  '(b, r') ← ReadFull (count * width) r;
  Some (uints width count b, r').

Module Fixed.

(** [Encode]; [None] is the error for an unsupported type. The bytes
    are those written to [w]. *)
Definition Encode (src : values) : option (list Z) :=
  match src with
  | Int32s l => Some (binaryWrite 4 l)
  | Int64s l => Some (binaryWrite 8 l)
  | Float32s l => Some (binaryWrite 4 l)
  | Float64s l => Some (binaryWrite 8 l)
  | Bools l => Some (binaryWrite 1 (map byteOfBool l))
  | Strings _ => None
  end.

(** The slice [binary.Read] fills and the rest of the reader. *)
Definition read (width : nat) (numValues : Z) (conv : list Z -> values) (r : list Z)
  : Go.outcome (values * list Z) :=
  if numValues <? 0 then Go.Panicked
  else
    match binaryRead width (Z.to_nat numValues) r with
    | Some (l, r') => Go.Done (conv l, r')
    | None => Go.Failed
    end.

(** [Decode] into a [dst] of the given element type. [make] panics at a
    negative [numValues]. *)
Definition Decode (r : list Z) (dst : kind) (numValues : Z) : Go.outcome (values * list Z) :=
  match dst with
  | KInt32 => read 4 numValues (fun l => Int32s (map int32_of_uint32 l)) r
  | KInt64 => read 8 numValues (fun l => Int64s (map Bytes.int64_of_uint64 l)) r
  | KFloat32 => read 4 numValues Float32s r
  | KFloat64 => read 8 numValues Float64s r
  | KBool => read 1 numValues (fun l => Bools (map (fun x => negb (x =? 0)) l)) r
  | KString => Go.Failed
  end.

End Fixed.

Module String.

(** The running total of [Encode], a [uint32], after each value. *)
Fixpoint offsets (totalSize : Z) (l : list (list Z)) : list Z :=
  match l with
  | [] => []
  | v :: l' =>
      let totalSize' := uint32 (totalSize + uint32 (Bytes.len v)) in
      totalSize' :: offsets totalSize' l'
  end.

(** [Encode]: the offsets, then the strings one after the other. *)
Definition Encode (src : values) : option (list Z) :=
  match src with
  | Strings l => Some (binaryWrite 4 (offsets 0 l) ++ concat l)
  | _ => None
  end.

(** The loop that cuts [data] at the offsets; [None] is the
    slice-bounds panic of [data[currentOffset:offset]]. *)
Fixpoint cut (data : list Z) (currentOffset : Z) (offs : list Z)
  : option (list (list Z)) :=
  match offs with
  | [] => Some []
  | offset :: offs' =>
      v ← Bytes.slice data currentOffset offset;
      vs ← cut data offset offs';
      Some (v :: vs)
  end.

Definition Decode (r : list Z) (dst : kind) (numValues : Z)
  : Go.outcome (values * list Z) :=
  match dst with
  | KString =>
      if numValues =? 0 then Go.Done (Strings [], r)
      else if numValues <? 0 then Go.Panicked
      else
        match binaryRead 4 (Z.to_nat numValues) r with
        | None => Go.Failed
        | Some (offs, r1) =>
            let totalSize := List.last offs 0 in
            match ReadFull (Z.to_nat totalSize) r1 with
            | None => Go.Failed
            | Some (data, r2) =>
                match cut data 0 offs with
                | None => Go.Panicked
                | Some vs => Go.Done (Strings vs, r2)
                end
            end
        end
  | _ => Go.Failed
  end.

End String.

End Encoding.

(** ** Memory-mapped files ([MmapFile], [MmapBlock]) *)

Module Mmap.

(** [data] is [None] once the file is closed ([m.data == nil]); [size]
    keeps the size the file had when it was mapped. *)
Record MmapFile := mkMmapFile {
  data : option (list Z);
  size : Z;
}.

(** [NewMmapFile] on a file that can be opened and mapped, with the
    given contents. *)
Definition NewMmapFile (contents : list Z) : MmapFile :=
  mkMmapFile (Some contents) (Bytes.len contents).

Definition Read (m : MmapFile) (offset length : Z) : Go.outcome (list Z) :=
  match data m with
  | None => Go.Failed
  | Some d =>
      if (offset <? 0) || (offset >=? size m) then Go.Failed
      else
        let length :=
          if Go.int64 (offset + length) >? size m
          then Go.int64 (size m - offset) else length in
        match Bytes.slice d offset (Go.int64 (offset + length)) with
        | Some s => Go.Done s
        | None => Go.Panicked
        end
  end.

(** [ReadAt]: the buffer after the copy and the number of bytes copied. *)
Definition ReadAt (m : MmapFile) (p : list Z) (offset : Z) : Go.outcome (list Z * Z) :=
  match data m with
  | None => Go.Failed
  | Some d =>
      if (offset <? 0) || (offset >=? size m) then Go.Failed
      else
        let n :=
          if Go.int64 (offset + Bytes.len p) >? size m
          then Go.int64 (size m - offset) else Bytes.len p in
        match Bytes.slice d offset (Go.int64 (offset + n)) with
        | Some s =>
            let copied := firstn (length p) s in
            Go.Done (copied ++ skipn (length copied) p, n)
        | None => Go.Panicked
        end
  end.

(** [Close]. A file that is already closed is left as it is. The view
    is unmapped at the address [&m.data[0]]: on the empty mapping of an
    empty file this index is out of range and the call panics. *)
Definition Close (m : MmapFile) : Go.outcome MmapFile :=
  match data m with
  | None => Go.Done m
  | Some [] => Go.Panicked
  | Some (_ :: _) => Go.Done (mkMmapFile None (size m))
  end.

Definition Size (m : MmapFile) : Z := size m.

Definition Data (m : MmapFile) : Go.outcome (list Z) :=
  match data m with
  | None => Go.Failed
  | Some d => Go.Done d
  end.

Record MmapBlock := mkMmapBlock {
  file : MmapFile;
  minKey : list Z;
  maxKey : list Z;
  index : gmap (list Z) Z;
}.

(** [int64(d[o]) | int64(d[o+1])<<8 | int64(d[o+2])<<16 | int64(d[o+3])<<24];
    [None] is the index-out-of-range panic. *)
Definition le32 (d : list Z) (o : Z) : option Z :=
  b0 ← Bytes.index d o;
  b1 ← Bytes.index d (Go.int64 (o + 1));
  b2 ← Bytes.index d (Go.int64 (o + 2));
  b3 ← Bytes.index d (Go.int64 (o + 3));
  Some (Z.lor (Z.lor (Z.lor b0 (Z.shiftl b1 8)) (Z.shiftl b2 16)) (Z.shiftl b3 24)).

(** The loop of [loadHeader] from [offset] on. [None] when the fuel runs
    out before the loop ends. *)
Fixpoint scan (fuel : nat) (d : list Z) (size offset : Z) (index : gmap (list Z) Z)
  : option (Go.outcome (gmap (list Z) Z)) :=
  match fuel with
  | O => None
  | S fuel' =>
      if offset <? size then
        if Go.int64 (offset + 4) >? size then Some (Go.Done index)
        else
          match le32 d offset with
          | None => Some Go.Panicked
          | Some keyLen =>
              let offset := Go.int64 (offset + 4) in
              if Go.int64 (offset + keyLen) >? size then Some (Go.Done index)
              else
                match Bytes.slice d offset (Go.int64 (offset + keyLen)) with
                | None => Some Go.Panicked
                | Some key =>
                    let offset := Go.int64 (offset + keyLen) in
                    let index := <[key := offset]> index in
                    if Go.int64 (offset + 4) >? size then Some (Go.Done index)
                    else
                      match le32 d offset with
                      | None => Some Go.Panicked
                      | Some valueLen =>
                          let offset := Go.int64 (offset + 4) in
                          let offset := Go.int64 (offset + valueLen) in
                          scan fuel' d size offset index
                      end
                end
          end
      else Some (Go.Done index)
  end.

(** [loadHeader]: every pass of the loop that goes on moves the offset
    forward by eight bytes or more, so the length of the data bounds the
    number of passes. *)
Definition loadHeader (b : MmapBlock) : option (Go.outcome MmapBlock) :=
  match Data (file b) with
  | Go.Done d =>
      if Bytes.len d <? 8 then Some Go.Failed
      else
        match scan (S (length d)) d (Size (file b)) 8 (index b) with
        | None => None
        | Some (Go.Done idx) => Some (Go.Done (mkMmapBlock (file b) (minKey b) (maxKey b) idx))
        | Some Go.Failed => Some Go.Failed
        | Some Go.Panicked => Some Go.Panicked
        end
  | Go.Failed => Some Go.Failed
  | Go.Panicked => Some Go.Panicked
  end.

(** [NewMmapBlock] on a file with the given contents. When [loadHeader]
    returns an error the file is closed before the error is returned. *)
Definition NewMmapBlock (contents : list Z) : option (Go.outcome MmapBlock) :=
  let file := NewMmapFile contents in
  match loadHeader (mkMmapBlock file [] [] ∅) with
  | Some Go.Failed =>
      match Close file with
      | Go.Panicked => Some Go.Panicked
      | _ => Some Go.Failed
      end
  | r => r
  end.

Definition Get (b : MmapBlock) (key : list Z) : Go.outcome (list Z) :=
  match index b !! key with
  | None => Go.Failed
  | Some offset =>
      match Read (file b) offset 4 with
      | Go.Done lenBuf =>
          match le32 lenBuf 0 with
          | None => Go.Panicked
          | Some valueLen => Read (file b) (Go.int64 (offset + 4)) valueLen
          end
      | Go.Failed => Go.Failed
      | Go.Panicked => Go.Panicked
      end
  end.

End Mmap.
(** * Vocabulary of the statements *)

(** ** Write-ahead log *)

(** A record as [replayFileFrom] validates it: the CRC field holds the
    checksum of the bytes that follow the eight-byte header. *)
Definition frame (crc : Z) (payload : list Z) : list Z :=
  Bytes.PutUint32 crc ++ Bytes.PutUint32 (Bytes.len payload) ++ payload.

Definition validFrame (payload : list Z) : list Z :=
  frame (CRC32.Checksum payload) payload.

(** What the loop does with a payload whose CRC matched: panic ([None]),
    skip it ([Some None]), or hand an entry to the callback. *)
Definition decode (fromTimestamp : Z) (payload : list Z) : option (option WAL.WALEntry) :=
  match Bytes.Uint64 payload with
  | None => None
  | Some u =>
      let ts := Bytes.int64_of_uint64 u in
      if ts <=? fromTimestamp then Some None
      else match WAL.parseAfterTimestamp ts payload with
           | None => None
           | Some e => Some (Some e)
           end
  end.

Definition wellFormed (fromTimestamp : Z) (payload : list Z) : Prop :=
  Bytes.len payload < 2 ^ 32 /\ decode fromTimestamp payload <> None.

(** The entries a list of payloads hands to the callback. *)
Definition applied (fromTimestamp : Z) (payloads : list (list Z)) : list WAL.WALEntry :=
  flat_map (fun p => match decode fromTimestamp p with
                     | Some (Some e) => [e]
                     | _ => []
                     end) payloads.

(** The ways the bytes after the last whole record can be damaged, and the
    error each one makes the loop return. *)
Inductive tornTail : list Z -> WAL.replayError -> Prop :=
| torn_header t :
    0 < Bytes.len t < 8 -> tornTail t WAL.ErrReadHeader
| torn_data hdr d :
    Bytes.len hdr = 8 ->
    Bytes.len d < Bytes.getLE (firstn 4 (skipn 4 hdr)) ->
    tornTail (hdr ++ d) WAL.ErrReadData
| torn_crc c p rest :
    0 <= c < 2 ^ 32 -> Bytes.len p < 2 ^ 32 -> CRC32.Checksum p <> c ->
    tornTail (frame c p ++ rest) WAL.ErrCRCMismatch.

Definition frames (payloads : list (list Z)) : list Z :=
  concat (map validFrame payloads).


(** Inputs used in the examples below. *)
Module Sample.

Definition k_a : list Z := Bytes.ofString "a"%string.
Definition v_1 : list Z := Bytes.ofString "1"%string.

(** The entry of [put("a","1")] at time 300. *)
Definition e_a : WAL.WALEntry := WAL.mkEntry 300 WAL.OpTypePut k_a v_1.

(** A WAL opened on an empty directory at time 100, then one
    [AppendPut("a","1")] at time 300. *)
Definition wal_put_a : WAL.WAL := WAL.AppendPut 300 k_a v_1 (WAL.NewWAL 100 []).

(** The same log with [AppendDelete("a")] at time 300 instead. *)
Definition wal_delete_a : WAL.WAL := WAL.AppendDelete 300 k_a (WAL.NewWAL 100 []).

(** A directory holding one file [100.wal] with the given contents. *)
Definition wal_of (contents : list Z) : WAL.WAL :=
  WAL.mkWAL [WAL.mkFile 100 contents] 100 (Bytes.len contents) (64 * 1024 * 1024).

(** The record of [e_a] with the checksum the reader expects. *)
Definition good_a : list Z := validFrame (WAL.payload e_a).

(** The same record with a wrong checksum. *)
Definition bad_crc_a : list Z := frame 0 (WAL.payload e_a).

(** The same record cut short after ten bytes. *)
Definition cut_a : list Z := firstn 10 good_a.

End Sample.

(** ** Sorting *)

(** Two neighbours of a sorted slice: the second is not [less] than the
    first. *)
Definition inOrder {A : Type} (less : A -> A -> bool) (a b : A) : Prop :=
  less b a = false.

(** ** Blocks *)

(** The block obtained from a new block by adding the pairs in order. *)
Definition build (createdAt : Z) (ps : list Block.keyValuePair) : Block.Block :=
  fold_left (fun b p => Block.Add (Block.key p) (Block.value p) b) ps
            (Block.NewBlock createdAt).

(** ** Memtable *)

(** The sum of [len(key) + len(value)] over the entries of a memtable. *)
Definition memSum (m : gmap (list Z) (list Z)) : Z :=
  map_fold (fun k v acc => acc + (Bytes.len k + Bytes.len v)) 0 m.

(** The value a call returns, when it returns. *)
Definition run {A} (m : Engine.M A) (e : Engine.Engine) : option A :=
  match m e with
  | Engine.Returned a _ => Some a
  | Engine.Blocked _ => None
  | Engine.Panicked _ => None
  end.

(** The engine after a call, whether it returned or not. *)
Definition after {A} (o : Engine.outcome A) : Engine.Engine :=
  match o with
  | Engine.Returned _ e => e
  | Engine.Blocked e => e
  | Engine.Panicked e => e
  end.

Definition returns {A} (o : Engine.outcome A) : bool :=
  match o with
  | Engine.Returned _ _ => true
  | Engine.Blocked _ => false
  | Engine.Panicked _ => false
  end.

Module Scenario.

Definition k : list Z := Bytes.ofString "k"%string.
Definition v : list Z := Bytes.ofString "v"%string.
Definition w : list Z := Bytes.ofString "w"%string.

(** [NewEngine] on an empty base directory at time 100. *)
Definition fresh : Engine.Engine := Engine.create 100 [] [] Engine.NoFile.

(** The counter and the true byte sum of the memtable. *)
Definition sizes : Engine.M (Z * Z) :=
  Engine.gets (fun e => (Engine.memTableSize e, memSum (Engine.memTable e))).

(** A WAL directory whose single file holds, in the format the reader
    accepts, put(k,v) at 200, put(k,w) at 300 and delete(k) at 400. *)
Definition log : list WAL.walFile :=
  [WAL.mkFile 100
     (validFrame (WAL.payload (WAL.mkEntry 200 WAL.OpTypePut k v))
      ++ validFrame (WAL.payload (WAL.mkEntry 300 WAL.OpTypePut k w))
      ++ validFrame (WAL.payload (WAL.mkEntry 400 WAL.OpTypeDelete k [])))].

(** A block holding the pair ("k","v"), written to level 0 at time 300
    by a tree opened on an empty data directory. *)
Definition written : Disk.disk * LSM.LSMTree :=
  LSM.Write 300 (Block.Add k v (Block.NewBlock 0)) [] (LSM.NewLSMTree []).

(** Two pairs with distinct keys, in both orders. *)
Definition ab : list Block.keyValuePair :=
  [Block.mkPair Sample.k_a Sample.v_1; Block.mkPair k v].
Definition ba : list Block.keyValuePair :=
  [Block.mkPair k v; Block.mkPair Sample.k_a Sample.v_1].

(** The task of compacting that block from level 0 to level 1. *)
Definition task : Compaction.compactionTask :=
  Compaction.mkTask 0 1 (LSM.level (snd written) 0).

End Scenario.

(** ** More vocabulary: write-ahead log *)

(** An entry as [AppendPut] and [AppendDelete] make them, small enough for
    the 32-bit length fields and with a timestamp that fits an [int64]. *)
Definition loggable (e : WAL.WALEntry) : Prop :=
  (WAL.OpType e = WAL.OpTypePut
   \/ (WAL.OpType e = WAL.OpTypeDelete /\ WAL.Value e = []))
  /\ - 2 ^ 63 <= WAL.Timestamp e < 2 ^ 63
  /\ WAL.entrySize (WAL.Key e) (WAL.Value e) < 2 ^ 32.

(** The size field of the WAL agrees with the open file, and no two files
    of the directory have the same name. *)
Definition sizeOk (w : WAL.WAL) : Prop :=
  NoDup (map WAL.timestamp (WAL.walDir w))
  /\ exists f, In f (WAL.walDir w)
               /\ WAL.timestamp f = WAL.file w
               /\ WAL.size w = Bytes.len (WAL.data f).

Definition olderFirst (a b : WAL.walFile) : Prop :=
  WAL.timestamp a <= WAL.timestamp b.

(** One call of [append]: the clock reading, the operation, key and value. *)
Record appendCall := mkCall {
  at_time : Z;
  op_type : Z;
  op_key : list Z;
  op_value : list Z;
}.

Definition appendAll (calls : list appendCall) (w : WAL.WAL) : WAL.WAL :=
  fold_left (fun w c => WAL.append (at_time c) (op_type c) (op_key c) (op_value c) w)
            calls w.

(** ** More vocabulary: engine *)

(** What one logged entry does to a memtable. *)
Definition applyToMap (m : gmap (list Z) (list Z)) (e : WAL.WALEntry)
  : gmap (list Z) (list Z) :=
  if WAL.OpType e =? WAL.OpTypePut then <[WAL.Key e := WAL.Value e]> m
  else if WAL.OpType e =? WAL.OpTypeDelete then delete (WAL.Key e) m
  else m.

(** The key and value bytes of the PUT entries of a list. *)
Definition putBytes (es : list WAL.WALEntry) : Z :=
  fold_left (fun acc e =>
               if WAL.OpType e =? WAL.OpTypePut
               then acc + (Bytes.len (WAL.Key e) + Bytes.len (WAL.Value e))
               else acc) es 0.

(** The state after handing the entries to a callback one by one. *)
Definition applyAll {St : Type} (cb : WAL.WALEntry -> St -> St * bool)
           (es : list WAL.WALEntry) (s : St) : St :=
  fold_left (fun s e => fst (cb e s)) es s.

(** The error [recover] returns for the way replay ended. *)
Definition recoverError (r : WAL.replayResult) : option Engine.error :=
  match r with
  | WAL.ReplayOk => None
  | _ => Some (Engine.ErrRecover r)
  end.

(** One call of [Put]: the clock reading, the key and the value. *)
Record putCall := mkPut {
  put_time : Z;
  put_key : list Z;
  put_value : list Z;
}.

(** The engine after a sequence of [Put] calls. *)
Definition afterPuts (calls : list putCall) (e : Engine.Engine) : Engine.Engine :=
  fold_left (fun e c => after (Engine.Put (put_time c) (put_key c) (put_value c) e))
            calls e.

(** The answer [Get] builds from the answer of the index. *)
Definition fromIndex (found : option (list Z)) : list Z * option Engine.error :=
  match found with
  | Some v => (v, None)
  | None => ([], Some Engine.ErrKeyNotFound)
  end.

(** ** More vocabulary: blocks *)

(** The payload [Finalize] builds for the pairs of a block. *)
Definition payloadOf (ps : list Block.keyValuePair) : list Z :=
  Block.encodePairs (Sort.Slice Block.less ps).

(** The pairs of a memtable, in the order of its enumeration. *)
Definition pairsOf (m : gmap (list Z) (list Z)) : list Block.keyValuePair :=
  map (fun kv => Block.mkPair (fst kv) (snd kv)) (map_to_list m).

(** ** More vocabulary: levels *)

(** Every block has [minKey <= maxKey], and each block's [maxKey] is
    below the [minKey] of every later block of the level. *)
Fixpoint orderedLevel (bs : list LSM.blockInfo) : bool :=
  match bs with
  | [] => true
  | b :: rest =>
      Bytes.leb (LSM.minKey b) (LSM.maxKey b)
      && forallb (fun c => Bytes.ltb (LSM.maxKey b) (LSM.minKey c)) rest
      && orderedLevel rest
  end.

(** The block covers the key. *)
Definition covers (k : list Z) (b : LSM.blockInfo) : bool :=
  LSM.keyInRange k (LSM.minKey b) (LSM.maxKey b).

(** ** More vocabulary: column encoders *)

(** The elements are values of the slice's element type. *)
Definition wellTyped (src : Encoding.values) : bool :=
  match src with
  | Encoding.Int32s l => forallb (fun x => (- 2 ^ 31 <=? x) && (x <? 2 ^ 31)) l
  | Encoding.Int64s l => forallb (fun x => (- 2 ^ 63 <=? x) && (x <? 2 ^ 63)) l
  | Encoding.Float32s l => forallb (fun x => (0 <=? x) && (x <? 2 ^ 32)) l
  | Encoding.Float64s l => forallb (fun x => (0 <=? x) && (x <? 2 ^ 64)) l
  | Encoding.Bools _ => true
  | Encoding.Strings _ => true
  end.

Definition kindOf (src : Encoding.values) : Encoding.kind :=
  match src with
  | Encoding.Int32s _ => Encoding.KInt32
  | Encoding.Int64s _ => Encoding.KInt64
  | Encoding.Float32s _ => Encoding.KFloat32
  | Encoding.Float64s _ => Encoding.KFloat64
  | Encoding.Bools _ => Encoding.KBool
  | Encoding.Strings _ => Encoding.KString
  end.

(** [len(src)] *)
Definition count (src : Encoding.values) : Z :=
  match src with
  | Encoding.Int32s l | Encoding.Int64s l
  | Encoding.Float32s l | Encoding.Float64s l => Bytes.len l
  | Encoding.Bools l => Z.of_nat (length l)
  | Encoding.Strings l => Z.of_nat (length l)
  end.

(** The bytes of all the strings together. *)
Definition totalLen (l : list (list Z)) : Z := Bytes.len (concat l).

(** The end of each string in the concatenation, counted from [start]. *)
Fixpoint ends (start : Z) (l : list (list Z)) : list Z :=
  match l with
  | [] => []
  | v :: l' => (start + Bytes.len v) :: ends (start + Bytes.len v) l'
  end.

(** ** More vocabulary: memory-mapped blocks *)

(** The index [loadHeader] builds when pairs laid out one after the other
    start at [offset]: each key with the offset of its value-length
    field, a later pair replacing an earlier one with the same key. *)
Fixpoint indexFrom (offset : Z) (ps : list Block.keyValuePair) (index : gmap (list Z) Z)
  : gmap (list Z) Z :=
  match ps with
  | [] => index
  | p :: ps' =>
      indexFrom (offset + 8 + Bytes.len (Block.key p) + Bytes.len (Block.value p)) ps'
                (<[Block.key p := offset + 4 + Bytes.len (Block.key p)]> index)
  end.

(** Both lengths of the pair fit their 32-bit fields. *)
Definition fits32 (p : Block.keyValuePair) : Prop :=
  Bytes.len (Block.key p) < 2 ^ 32 /\ Bytes.len (Block.value p) < 2 ^ 32.

(** ** More vocabulary: the tree's own compaction *)

(** What the index and the directory hold for a block: the file name,
    the size, the key range and the creation time recorded in the index,
    and the file found at the block's path. *)
Definition entry (d : Disk.disk) (b : LSM.blockInfo)
  : list Z * Z * list Z * list Z * Z * option Disk.fileInfo :=
  (snd (LSM.path b), LSM.size b, LSM.minKey b, LSM.maxKey b, LSM.createdAt b,
   Disk.read (LSM.path b) d).

(** The entries of all the blocks of the tree, level by level. *)
Definition view (d : Disk.disk) (t : LSM.LSMTree)
  : list (list Z * Z * list Z * list Z * Z * option Disk.fileInfo) :=
  map (entry d) (concat (LSM.levels t)).

Definition fileName (b : LSM.blockInfo) : list Z := snd (LSM.path b).

Definition totalSize (bs : list LSM.blockInfo) : Z :=
  fold_right Z.add 0 (map LSM.size bs).

(** The tree has its seven levels; its blocks have distinct file names,
    non-negative sizes and a file each; and together they are smaller
    than the threshold of the last level. *)
Definition intact (d : Disk.disk) (t : LSM.LSMTree) : Prop :=
  length (LSM.levels t) = 7%nat
  /\ NoDup (map fileName (concat (LSM.levels t)))
  /\ List.Forall (fun b => Disk.read (LSM.path b) d <> None) (concat (LSM.levels t))
  /\ List.Forall (fun b => 0 <= LSM.size b) (concat (LSM.levels t))
  /\ totalSize (concat (LSM.levels t)) < nth 6 (LSM.compactionThresholds t) 0.

(** ** More vocabulary: the compaction manager *)

(** The tasks the channel took, of the tasks offered in turn, and the
    number it did not take. *)
Definition taken (accepted : list bool) (offered : list Compaction.compactionTask)
  : list Compaction.compactionTask :=
  map snd (List.filter fst (combine accepted offered)).

Definition refused (accepted : list bool) (offered : list Compaction.compactionTask) : Z :=
  Z.of_nat (length (List.filter (fun x => negb (fst x)) (combine accepted offered))).

(** The bytes of [contents] from [offset] on, [length] of them or as
    many as there are. *)
Definition range (contents : list Z) (offset length : Z) : list Z :=
  firstn (Z.to_nat length) (skipn (Z.to_nat offset) contents).

(** ** More vocabulary: panics, and keys that JSON keeps *)

Definition isPanic (r : WAL.replayResult) : bool :=
  match r with
  | WAL.ReplayPanic => true
  | _ => false
  end.

(** The call ended in a panic. *)
Definition panics {A} (o : Engine.outcome A) : bool :=
  match o with
  | Engine.Panicked _ => true
  | _ => false
  end.

(** The bytes are a sequence of valid UTF-8 encodings. *)
Fixpoint validFrom (fuel : nat) (s : list Z) : bool :=
  match s with
  | [] => true
  | _ :: _ =>
      match fuel with
      | O => false
      | S fuel' =>
          match JSON.runeWidth s with
          | O => false
          | w => validFrom fuel' (skipn w s)
          end
      end
  end.

Definition validUTF8 (s : list Z) : bool := validFrom (length s) s.
(** * Properties *)

Example sha256_constants :
  length SHA256.K = 64%nat
  /\ nth 0 SHA256.K 0 = 0x428a2f98 /\ nth 63 SHA256.K 0 = 0xc67178f2
  /\ nth 0 SHA256.init 0 = 0x6a09e667 /\ nth 7 SHA256.init 0 = 0x5be0cd19.
Proof. vm_compute. repeat split; reflexivity. Qed.

Example sha256_check_values :
  SHA256.Sum256 [] = 
      [227; 176; 196; 66; 152; 252; 28; 20; 154; 251; 244; 200; 153; 111; 185; 36; 39; 174; 65; 228; 100; 155; 147; 76; 164; 149; 153; 27; 120; 82; 184; 85]
  /\ SHA256.Sum256 (Bytes.ofString "abc"%string) = 
      [186; 120; 22; 191; 143; 1; 207; 234; 65; 65; 64; 222; 93; 174; 34; 35; 176; 3; 97; 163; 150; 23; 122; 156; 180; 16; 255; 97; 242; 0; 21; 173]
  /\ SHA256.Sum256 (repeat 97 119) = 
      [49; 235; 165; 28; 49; 58; 92; 8; 34; 106; 223; 24; 212; 163; 89; 207; 223; 216; 210; 232; 22; 177; 63; 74; 249; 82; 247; 234; 101; 132; 220; 251].
Proof. vm_compute. repeat split; reflexivity. Qed.

Example crc32c_check_value :
  CRC32.Checksum (Bytes.ofString "123456789"%string) = 0xE3069283.
Proof. vm_compute. reflexivity. Qed.

(** ** Little-endian codec *)

Lemma length_putLE n v : length (Bytes.putLE n v) = n.
Proof. revert v; induction n as [|n IH]; intros v; simpl; [reflexivity|]. now rewrite IH. Qed.

Lemma getLE_putLE n v :
  Bytes.getLE (Bytes.putLE n v) = Z.land v (Z.ones (8 * Z.of_nat n)).
Proof.
  revert v; induction n as [|n IH]; intros v.
  - simpl. now rewrite Z.land_0_r.
  - cbn [Bytes.putLE Bytes.getLE]. rewrite IH.
    apply Z.bits_inj'. intros i Hi.
    change 255 with (Z.ones 8).
    rewrite Z.lor_spec, !Z.land_spec, !Z.testbit_ones by lia.
    destruct (Z.ltb_spec i 8) as [Hlt|Hge].
    + rewrite Z.shiftl_spec by lia. rewrite (Z.testbit_neg_r _ (i - 8)) by lia.
      replace (0 <=? i) with true by (symmetry; apply Z.leb_le; lia).
      replace (i <? 8 * Z.of_nat (S n)) with true by (symmetry; apply Z.ltb_lt; lia).
      simpl. now rewrite orb_false_r, andb_true_r.
    + rewrite Z.shiftl_spec, Z.land_spec, Z.shiftr_spec, Z.testbit_ones by lia.
      replace (i - 8 + 8) with i by lia.
      replace (0 <=? i) with true by (symmetry; apply Z.leb_le; lia).
      replace (0 <=? i - 8) with true by (symmetry; apply Z.leb_le; lia).
      rewrite andb_false_r. simpl. f_equal.
      destruct (Z.ltb_spec (i - 8) (8 * Z.of_nat n)), (Z.ltb_spec i (8 * Z.of_nat (S n)));
        try reflexivity; lia.
Qed.

Lemma getLE_PutUint32 v : 0 <= v < 2 ^ 32 -> Bytes.getLE (Bytes.PutUint32 v) = v.
Proof.
  intros Hv. unfold Bytes.PutUint32. rewrite getLE_putLE.
  change (8 * Z.of_nat 4) with 32. rewrite Z.land_ones by lia.
  apply Z.mod_small; lia.
Qed.

Lemma Checksum_range d : 0 <= CRC32.Checksum d < 2 ^ 32.
Proof.
  unfold CRC32.Checksum, CRC32.Update, CRC32.not32.
  rewrite Z.land_ones by lia. apply Z.mod_pos_bound. lia.
Qed.

Lemma len_nonneg b : 0 <= Bytes.len b.
Proof. unfold Bytes.len. lia. Qed.

Lemma len_app a b : Bytes.len (a ++ b) = Bytes.len a + Bytes.len b.
Proof. unfold Bytes.len. rewrite length_app. lia. Qed.

Lemma ReadFull_exact n a rest :
  Bytes.len a = n -> WAL.ReadFull n (a ++ rest) = WAL.ReadFullOk a rest.
Proof.
  intros Hn. unfold WAL.ReadFull.
  destruct (Z.leb_spec n 0) as [Hle|Hpos].
  - assert (a = []) as ->.
    { destruct a; [reflexivity|]. unfold Bytes.len in Hn. simpl in Hn. lia. }
    reflexivity.
  - pose proof (len_nonneg rest) as Hr. rewrite len_app.
    destruct (Z.eqb_spec (Bytes.len a + Bytes.len rest) 0); [lia|].
    destruct (Z.ltb_spec (Bytes.len a + Bytes.len rest) n); [lia|].
    assert (Z.to_nat n = length a) as -> by (unfold Bytes.len in Hn; lia).
    rewrite firstn_app, Nat.sub_diag, firstn_all, skipn_app, Nat.sub_diag, skipn_all.
    simpl. now rewrite app_nil_r.
Qed.

Lemma replayLoop_frame {St} (cb : WAL.WALEntry -> St -> St * bool)
      fuel c p rest from s :
  0 <= c < 2 ^ 32 -> Bytes.len p < 2 ^ 32 ->
  WAL.replayLoop cb (S fuel) (frame c p ++ rest) from s =
    if negb (CRC32.Checksum p =? c) then (s, WAL.ReplayErr WAL.ErrCRCMismatch)
    else match Bytes.Uint64 p with
         | None => (s, WAL.ReplayPanic)
         | Some u =>
             let ts := Bytes.int64_of_uint64 u in
             if ts <=? from then WAL.replayLoop cb fuel rest from s
             else match WAL.parseAfterTimestamp ts p with
                  | None => (s, WAL.ReplayPanic)
                  | Some entry =>
                      let '(s', failed) := cb entry s in
                      if failed : bool then (s', WAL.ReplayErr WAL.ErrApply)
                      else WAL.replayLoop cb fuel rest from s'
                  end
         end.
Proof.
  intros Hc Hp. pose proof (len_nonneg p) as Hp0.
  cbn [WAL.replayLoop]. unfold frame.
  replace ((Bytes.PutUint32 c ++ Bytes.PutUint32 (Bytes.len p) ++ p) ++ rest)
    with ((Bytes.PutUint32 c ++ Bytes.PutUint32 (Bytes.len p)) ++ (p ++ rest))
    by (now rewrite <- !app_assoc).
  rewrite (ReadFull_exact 8) by (rewrite len_app; unfold Bytes.len, Bytes.PutUint32;
                                 now rewrite !length_putLE).
  replace (firstn 4 (Bytes.PutUint32 c ++ Bytes.PutUint32 (Bytes.len p)))
    with (Bytes.PutUint32 c) by reflexivity.
  replace (firstn 4 (skipn 4 (Bytes.PutUint32 c ++ Bytes.PutUint32 (Bytes.len p))))
    with (Bytes.PutUint32 (Bytes.len p)) by reflexivity.
  rewrite !getLE_PutUint32 by lia.
  rewrite ReadFull_exact by reflexivity.
  reflexivity.
Qed.

Lemma replayLoop_torn {St} (cb : WAL.WALEntry -> St -> St * bool) fuel tail e from s :
  tornTail tail e ->
  WAL.replayLoop cb (S fuel) tail from s = (s, WAL.ReplayErr e).
Proof.
  intros [t Ht | hdr d Hh Hd | c p rest Hc Hp Hne].
  - cbn [WAL.replayLoop]. unfold WAL.ReadFull.
    destruct (Z.leb_spec 8 0); [lia|].
    destruct (Z.eqb_spec (Bytes.len t) 0); [lia|].
    destruct (Z.ltb_spec (Bytes.len t) 8); [reflexivity|lia].
  - cbn [WAL.replayLoop]. rewrite (ReadFull_exact 8) by assumption.
    pose proof (len_nonneg d). unfold WAL.ReadFull.
    destruct (Z.leb_spec (Bytes.getLE (firstn 4 (skipn 4 hdr))) 0); [lia|].
    destruct (Z.eqb_spec (Bytes.len d) 0); [reflexivity|].
    destruct (Z.ltb_spec (Bytes.len d) (Bytes.getLE (firstn 4 (skipn 4 hdr))));
      [reflexivity|lia].
  - rewrite replayLoop_frame by assumption.
    destruct (Z.eqb_spec (CRC32.Checksum p) c); [contradiction|reflexivity].
Qed.

Lemma replayLoop_valid_frame {St} (cb : WAL.WALEntry -> St -> St * bool)
      fuel p rest from s :
  wellFormed from p ->
  WAL.replayLoop cb (S fuel) (validFrame p ++ rest) from s =
    match decode from p with
    | Some (Some entry) =>
        let '(s', failed) := cb entry s in
        if failed : bool then (s', WAL.ReplayErr WAL.ErrApply)
        else WAL.replayLoop cb fuel rest from s'
    | _ => WAL.replayLoop cb fuel rest from s
    end.
Proof.
  intros [Hlen Hdec]. unfold validFrame.
  rewrite replayLoop_frame by (auto using Checksum_range).
  rewrite Z.eqb_refl. cbn [negb].
  unfold decode in *. destruct (Bytes.Uint64 p) as [u|]; [|contradiction].
  cbv zeta in *. destruct (Bytes.int64_of_uint64 u <=? from); [reflexivity|].
  destruct (WAL.parseAfterTimestamp _ p); [reflexivity|contradiction].
Qed.

Lemma replayLoop_frames_torn payloads : forall tail e from acc fuel,
  Forall (wellFormed from) payloads -> tornTail tail e ->
  (length payloads < fuel)%nat ->
  WAL.replayLoop WAL.recording fuel (frames payloads ++ tail) from acc
  = (acc ++ applied from payloads, WAL.ReplayErr e).
Proof.
  induction payloads as [|p ps IH]; intros tail e from acc fuel Hwf Ht Hfuel.
  - destruct fuel as [|fuel]; [simpl in Hfuel; lia|].
    cbn [frames map concat app applied flat_map]. rewrite app_nil_r.
    now apply replayLoop_torn.
  - destruct fuel as [|fuel]; [simpl in Hfuel; lia|].
    inversion Hwf as [|? ? Hp Hps]; subst.
    unfold frames. cbn [map concat]. rewrite <- app_assoc.
    rewrite replayLoop_valid_frame by assumption.
    fold (frames ps). cbn [applied flat_map]. fold (applied from ps).
    simpl in Hfuel.
    destruct Hp as [_ Hp]. destruct (decode from p) as [[entry|]|].
    + unfold WAL.recording at 1. rewrite (IH tail e) by (auto; lia).
      now rewrite <- app_assoc.
    + rewrite (IH tail e) by (auto; lia). reflexivity.
    + contradiction.
Qed.

Lemma replayLoop_frames_eof payloads : forall from acc fuel,
  Forall (wellFormed from) payloads ->
  (length payloads < fuel)%nat ->
  WAL.replayLoop WAL.recording fuel (frames payloads) from acc
  = (acc ++ applied from payloads, WAL.ReplayOk).
Proof.
  induction payloads as [|p ps IH]; intros from acc fuel Hwf Hfuel.
  - destruct fuel as [|fuel]; [simpl in Hfuel; lia|].
    cbn. now rewrite app_nil_r.
  - destruct fuel as [|fuel]; [simpl in Hfuel; lia|].
    inversion Hwf as [|? ? Hp Hps]; subst.
    unfold frames. cbn [map concat].
    rewrite replayLoop_valid_frame by assumption.
    fold (frames ps). cbn [applied flat_map]. fold (applied from ps).
    simpl in Hfuel.
    destruct Hp as [_ Hp]. destruct (decode from p) as [[entry|]|].
    + unfold WAL.recording at 1. rewrite IH by (auto; lia).
      now rewrite <- app_assoc.
    + rewrite IH by (auto; lia). reflexivity.
    + contradiction.
Qed.

Lemma length_validFrame p : length (validFrame p) = (8 + length p)%nat.
Proof.
  unfold validFrame, frame, Bytes.PutUint32.
  rewrite !length_app, !length_putLE. lia.
Qed.

Lemma length_frames payloads : (length payloads <= length (frames payloads))%nat.
Proof.
  induction payloads as [|p ps IH]; [simpl; lia|].
  unfold frames in *. cbn [map concat length].
  rewrite length_app, length_validFrame. lia.
Qed.

(** A damaged record makes [replayFileFrom] return an error, after the
    records in front of it were applied; it is never passed over. *)
Lemma replayFileFrom_torn payloads tail e from acc :
  Forall (wellFormed from) payloads -> tornTail tail e ->
  WAL.replayFileFrom WAL.recording (frames payloads ++ tail) from acc
  = (acc ++ applied from payloads, WAL.ReplayErr e).
Proof.
  intros Hwf Ht. unfold WAL.replayFileFrom.
  apply replayLoop_frames_torn; auto.
  rewrite length_app. pose proof (length_frames payloads). lia.
Qed.

(** A file of whole, valid records replays to the end and returns [nil]. *)
Lemma replayFileFrom_clean payloads from acc :
  Forall (wellFormed from) payloads ->
  WAL.replayFileFrom WAL.recording (frames payloads) from acc
  = (acc ++ applied from payloads, WAL.ReplayOk).
Proof.
  intros Hwf. unfold WAL.replayFileFrom.
  apply replayLoop_frames_eof; auto.
  pose proof (length_frames payloads). lia.
Qed.

Lemma replayFiles_app {St} (cb : WAL.WALEntry -> St -> St * bool) pre rest from s s1 :
  WAL.replayFiles cb pre from s = (s1, WAL.ReplayOk) ->
  WAL.replayFiles cb (pre ++ rest) from s = WAL.replayFiles cb rest from s1.
Proof.
  revert s. induction pre as [|f pre IH]; intros s H.
  - simpl in *. now inversion H.
  - cbn [WAL.replayFiles app] in *.
    destruct (WAL.replayFileFrom cb (WAL.data f) from s) as [s' r].
    destruct r; try discriminate. now apply IH.
Qed.

(** Files named before the cutoff are dropped before anything is read. *)
Lemma ReplayFrom_older_files_skipped {St} (cb : WAL.WALEntry -> St -> St * bool) w from s :
  Forall (fun f => WAL.timestamp f < from) (WAL.walDir w) ->
  WAL.ReplayFrom cb w from s = (s, WAL.ReplayOk).
Proof.
  intros H. unfold WAL.ReplayFrom.
  assert (List.filter (fun f => negb (WAL.timestamp f <? from)) (WAL.walDir w) = []) as ->.
  { induction H as [|f fs Hf _ IH]; [reflexivity|].
    cbn [List.filter]. apply Z.ltb_lt in Hf. rewrite Hf. exact IH. }
  reflexivity.
Qed.

(** ** C1: records written by [append] do not pass the check of replay *)

(** The checksum [append] stores covers the entry-size field as well as the
    payload. *)
Lemma append_crc_covers_size e :
  firstn 4 (WAL.record e)
  = Bytes.PutUint32 (CRC32.Checksum
      (Bytes.PutUint32 (WAL.entrySize (WAL.Key e) (WAL.Value e)) ++ WAL.payload e)).
Proof. reflexivity. Qed.

(** C1 (the code departs from the claim): after [AppendPut("a","1")] on a
    fresh log, and likewise after [AppendDelete("a")], [ReplayFrom(0)]
    rejects the record with a CRC mismatch and the callback is never
    invoked; the stored CRC differs from the CRC32C of the payload, which
    is what replay recomputes. The record with the CRC of the payload in
    front is replayed. *)
Theorem C1_append_then_replay_rejects_record :
  WAL.ReplayFrom WAL.recording Sample.wal_put_a 0 []
    = ([], WAL.ReplayErr WAL.ErrCRCMismatch)
  /\ WAL.ReplayFrom WAL.recording Sample.wal_delete_a 0 []
    = ([], WAL.ReplayErr WAL.ErrCRCMismatch)
  /\ Bytes.getLE (firstn 4 (WAL.record Sample.e_a))
       <> CRC32.Checksum (WAL.payload Sample.e_a)
  /\ WAL.ReplayFrom WAL.recording (Sample.wal_of Sample.good_a) 0 []
    = ([Sample.e_a], WAL.ReplayOk).
Proof. vm_compute. repeat split; congruence. Qed.

(** ** C2: the file filter of [ReplayFrom] *)

(** C2 (the code departs from the claim): a record with timestamp 300 in
    the file [100.wal] is not handed to the callback by [ReplayFrom(200)],
    because the whole file is dropped for having a name below the cutoff;
    this holds for a record the reader would accept (it is applied when the
    cutoff is 100) and for the log the writer itself produced. *)
Theorem C2_record_after_cutoff_in_older_file_not_replayed :
  WAL.ReplayFrom WAL.recording (Sample.wal_of Sample.good_a) 200 []
    = ([], WAL.ReplayOk)
  /\ WAL.ReplayFrom WAL.recording (Sample.wal_of Sample.good_a) 100 []
    = ([Sample.e_a], WAL.ReplayOk)
  /\ WAL.walDir Sample.wal_put_a = [WAL.mkFile 100 (WAL.record Sample.e_a)]
  /\ WAL.ReplayFrom WAL.recording Sample.wal_put_a 200 [] = ([], WAL.ReplayOk).
Proof. vm_compute. repeat split; reflexivity. Qed.

(** ** C3: damaged records *)

(** C3 (counterexample): a CRC mismatch in the last record of the only,
    hence most recent, file makes replay return an error, and so does a
    last record that is cut short; neither is passed over as a torn
    tail. *)
Lemma C3_torn_tail_not_tolerated :
  WAL.ReplayFrom WAL.recording
      (Sample.wal_of (Sample.good_a ++ Sample.bad_crc_a)) 0 []
    = ([Sample.e_a], WAL.ReplayErr WAL.ErrCRCMismatch)
  /\ WAL.ReplayFrom WAL.recording
      (Sample.wal_of (Sample.good_a ++ Sample.cut_a)) 0 []
    = ([Sample.e_a], WAL.ReplayErr WAL.ErrReadData)
  /\ snd (WAL.ReplayFrom WAL.recording
      (Sample.wal_of (Sample.good_a ++ Sample.bad_crc_a)) 0 []) <> WAL.ReplayOk.
Proof. vm_compute. repeat split; congruence. Qed.

(** *** A replay that succeeds read whole records only *)

Lemma getLE_range (b : list Z) :
  List.Forall (fun x => 0 <= x < 256) b ->
  0 <= Bytes.getLE b < 2 ^ (8 * Z.of_nat (length b)).
Proof.
  induction 1 as [|x b Hx Hb IH]; [cbn; lia|].
  cbn [Bytes.getLE length]. rewrite Nat2Z.inj_succ.
  replace (8 * Z.succ (Z.of_nat (length b))) with (8 + 8 * Z.of_nat (length b)) by lia.
  rewrite Z.pow_add_r by lia.
  assert (Hdisj : Z.land x (Z.shiftl (Bytes.getLE b) 8) = 0).
  { apply Z.bits_inj'. intros i Hi. rewrite Z.land_spec, Z.bits_0.
    destruct (Z.ltb_spec i 8) as [Hlt|Hge].
    - rewrite Z.shiftl_spec_low by lia. apply andb_false_r.
    - replace (Z.testbit x i) with false; [reflexivity|].
      symmetry. apply (Z.bits_above_log2 x i); [lia|].
      destruct (Z.eq_dec x 0) as [->|Hx0]; [cbn; lia|].
      apply Z.log2_lt_pow2; [lia|]. apply Z.lt_le_trans with (2 ^ 8); [lia|].
      apply Z.pow_le_mono_r; lia. }
  rewrite <- Z.add_nocarry_lor by exact Hdisj.
  rewrite Z.shiftl_mul_pow2 by lia. change (2 ^ 8) with 256. nia.
Qed.

Lemma putLE_getLE (b : list Z) :
  List.Forall (fun x => 0 <= x < 256) b ->
  Bytes.putLE (length b) (Bytes.getLE b) = b.
Proof.
  induction 1 as [|x b Hx Hb IH]; [reflexivity|].
  cbn [Bytes.getLE length Bytes.putLE].
  pose proof (getLE_range b Hb) as [Hg _].
  assert (Hdisj : Z.land x (Z.shiftl (Bytes.getLE b) 8) = 0).
  { apply Z.bits_inj'. intros i Hi. rewrite Z.land_spec, Z.bits_0.
    destruct (Z.ltb_spec i 8) as [Hlt|Hge].
    - rewrite Z.shiftl_spec_low by lia. apply andb_false_r.
    - replace (Z.testbit x i) with false; [reflexivity|].
      symmetry. apply (Z.bits_above_log2 x i); [lia|].
      destruct (Z.eq_dec x 0) as [->|Hx0]; [cbn; lia|].
      apply Z.log2_lt_pow2; [lia|]. apply Z.lt_le_trans with (2 ^ 8); [lia|].
      apply Z.pow_le_mono_r; lia. }
  rewrite <- Z.add_nocarry_lor by exact Hdisj.
  rewrite Z.shiftl_mul_pow2 by lia. change (2 ^ 8) with 256.
  f_equal.
  - change 255 with (Z.ones 8). rewrite Z.land_ones by lia. change (2 ^ 8) with 256.
    rewrite Z.mod_add by lia. apply Z.mod_small. lia.
  - rewrite Z.shiftr_div_pow2 by lia. change (2 ^ 8) with 256.
    rewrite Z.div_add by lia. rewrite (Z.div_small x) by lia.
    rewrite Z.add_0_l. exact IH.
Qed.

Lemma ReadFull_Ok (n : Z) (rd a b : list Z) :
  WAL.ReadFull n rd = WAL.ReadFullOk a b ->
  rd = a ++ b /\ (0 < n -> Bytes.len a = n) /\ (n <= 0 -> a = []).
Proof.
  unfold WAL.ReadFull, Bytes.len.
  destruct (Z.leb_spec n 0) as [Hn|Hn].
  - intros Heq; inversion Heq; subst. split; [reflexivity|].
    split; [intros; lia|reflexivity].
  - destruct (Z.eqb_spec (Z.of_nat (length rd)) 0) as [H0|H0]; [discriminate|].
    destruct (Z.ltb_spec (Z.of_nat (length rd)) n) as [H1|H1]; [discriminate|].
    intros Heq; inversion Heq; subst. split; [now rewrite firstn_skipn|].
    split; [intros _; rewrite length_firstn; lia|intros; lia].
Qed.

Lemma Forall_app_bytes (a b : list Z) :
  List.Forall (fun x => 0 <= x < 256) (a ++ b) ->
  List.Forall (fun x => 0 <= x < 256) a /\ List.Forall (fun x => 0 <= x < 256) b.
Proof. intros H. now apply Forall_app in H. Qed.

(** When the loop ends with [nil], the bytes it read are whole records,
    each with the CRC of its payload, and nothing else. *)
Lemma replayLoop_ok (fuel : nat) : forall rd from acc res,
  List.Forall (fun x => 0 <= x < 256) rd ->
  WAL.replayLoop WAL.recording fuel rd from acc = (res, WAL.ReplayOk) ->
  exists payloads,
    rd = frames payloads
    /\ List.Forall (wellFormed from) payloads
    /\ res = acc ++ applied from payloads.
Proof.
  induction fuel as [|fuel IH]; intros rd from acc res Hbytes Hrun; [discriminate|].
  cbn [WAL.replayLoop] in Hrun.
  destruct (WAL.ReadFull 8 rd) as [header rd1| |] eqn:Hh; try discriminate.
  2:{ inversion Hrun; subst. exists []. unfold WAL.ReadFull in Hh.
      cbn in Hh. destruct (Z.eqb_spec (Bytes.len rd) 0) as [H0|H0].
      - destruct rd; [|unfold Bytes.len in H0; cbn in H0; lia].
        repeat split; [constructor|now rewrite app_nil_r].
      - destruct (Bytes.len rd <? 8); discriminate. }
  apply ReadFull_Ok in Hh as (-> & Hlen8 & _). specialize (Hlen8 ltac:(lia)).
  apply Forall_app_bytes in Hbytes as [Hhdr Hrd1].
  destruct (WAL.ReadFull _ rd1) as [data rd2| |] eqn:Hd; try discriminate.
  apply ReadFull_Ok in Hd as (-> & Hlen & Hempty).
  apply Forall_app_bytes in Hrd1 as [Hdata Hrd2].
  destruct (negb _) eqn:Hcrc; [discriminate|].
  apply negb_false_iff, Z.eqb_eq in Hcrc.
  destruct (Bytes.Uint64 data) as [u|] eqn:Hu; [|discriminate].
  (* the header is the four bytes of the CRC and the four of the length *)
  assert (Hdata8 : 8 <= Bytes.len data).
  { unfold Bytes.Uint64 in Hu. destruct (Z.leb_spec 8 (Bytes.len data)); [assumption|discriminate]. }
  assert (Hsize : Bytes.getLE (firstn 4 (skipn 4 header)) = Bytes.len data).
  { destruct (Z.lt_ge_cases 0 (Bytes.getLE (firstn 4 (skipn 4 header)))) as [Hpos|Hneg].
    - now rewrite Hlen.
    - rewrite (Hempty Hneg) in Hdata8. unfold Bytes.len in Hdata8. cbn in Hdata8. lia. }
  assert (Hl8 : length header = 8%nat) by (unfold Bytes.len in Hlen8; lia).
  assert (Hh1 : List.Forall (fun x => 0 <= x < 256) (firstn 4 header))
    by (apply Forall_take; exact Hhdr).
  assert (Hh2 : List.Forall (fun x => 0 <= x < 256) (firstn 4 (skipn 4 header)))
    by (apply Forall_take, Forall_drop; exact Hhdr).
  assert (Hheader : header = Bytes.PutUint32 (CRC32.Checksum data)
                             ++ Bytes.PutUint32 (Bytes.len data)).
  { rewrite Hcrc, <- Hsize. unfold Bytes.PutUint32.
    pose proof (putLE_getLE _ Hh1) as P1. pose proof (putLE_getLE _ Hh2) as P2.
    rewrite length_firstn in P1, P2. rewrite length_skipn in P2.
    replace (Init.Nat.min 4 (length header)) with 4%nat in P1 by lia.
    replace (Init.Nat.min 4 (length header - 4)) with 4%nat in P2 by lia.
    rewrite P1, P2.
    rewrite <- (firstn_skipn 4 header) at 1. f_equal.
    symmetry. apply firstn_all2. rewrite length_skipn. lia. }
  assert (Hlt : Bytes.len data < 2 ^ 32).
  { rewrite <- Hsize. pose proof (getLE_range _ Hh2) as Hr.
    rewrite length_firstn, length_skipn in Hr.
    replace (Init.Nat.min 4 (length header - 4)) with 4%nat in Hr by lia.
    change (8 * Z.of_nat 4) with 32 in Hr. lia. }
  assert (Hframe : (header ++ data ++ rd2) = validFrame data ++ rd2).
  { unfold validFrame, frame. rewrite Hheader. now rewrite <- !app_assoc. }
  cbv zeta in Hrun.
  assert (Hstep : forall acc', WAL.replayLoop WAL.recording fuel rd2 from acc' = (res, WAL.ReplayOk) ->
            decode from data <> None ->
            acc' = acc ++ applied from [data] ->
            exists payloads,
              header ++ data ++ rd2 = frames payloads
              /\ List.Forall (wellFormed from) payloads
              /\ res = acc ++ applied from payloads).
  { intros acc' Hrest Hdec Hacc.
    destruct (IH rd2 from acc' res Hrd2 Hrest) as (ps & Hps & Hwf & Hres).
    exists (data :: ps). split; [|split].
    - unfold frames. cbn [map concat]. fold (frames ps). now rewrite Hframe, Hps.
    - constructor; [split; assumption|exact Hwf].
    - rewrite Hres, Hacc. cbn [applied flat_map]. rewrite app_nil_r.
      now rewrite <- app_assoc. }
  unfold decode in Hstep. rewrite Hu in Hstep. cbv zeta in Hstep.
  destruct (Bytes.int64_of_uint64 u <=? from) eqn:Hts.
  - apply (Hstep acc Hrun); [discriminate|]. cbn [applied flat_map].
    unfold decode. rewrite Hu. cbv zeta. rewrite Hts. now rewrite !app_nil_r.
  - destruct (WAL.parseAfterTimestamp _ data) as [entry|] eqn:Hparse; [|discriminate].
    unfold WAL.recording at 1 in Hrun. cbv iota beta in Hrun.
    apply (Hstep (acc ++ [entry]) Hrun); [discriminate|]. cbn [applied flat_map].
    unfold decode. rewrite Hu. cbv zeta. rewrite Hts, Hparse. now rewrite app_nil_r.
Qed.

Lemma replayFileFrom_ok (contents : list Z) (from : Z) (acc res : list WAL.WALEntry) :
  List.Forall (fun x => 0 <= x < 256) contents ->
  WAL.replayFileFrom WAL.recording contents from acc = (res, WAL.ReplayOk) ->
  exists payloads,
    contents = frames payloads
    /\ List.Forall (wellFormed from) payloads
    /\ res = acc ++ applied from payloads.
Proof. unfold WAL.replayFileFrom. apply replayLoop_ok. Qed.

(** C3 (amended): wherever a record with a CRC mismatch or an incomplete
    record stands -- in the last position of the last file replayed as much
    as in the middle of a file -- replay returns the corresponding error,
    after the callback received the records in front of it that lie after
    the cutoff; files after that one are not read. And the replay of a
    file (of bytes) ends successfully only when the file is made of whole
    records, each carrying the CRC of its payload, and ends at the end of
    the last of them; the callback has then received the records after
    the cutoff. *)
Theorem C3_damaged_record_aborts_replay
    (w : WAL.WAL) (from : Z) (pre post : list WAL.walFile) (f : WAL.walFile)
    (payloads : list (list Z)) (tail : list Z) (e : WAL.replayError)
    (acc acc1 : list WAL.WALEntry)
    (contents : list Z) (from' : Z) (acc' res : list WAL.WALEntry) :
  ((let kept := List.filter (fun f => negb (WAL.timestamp f <? from)) (WAL.walDir w) in
    WAL.sortFiles (length kept) kept = pre ++ f :: post) ->
   WAL.replayFiles WAL.recording pre from acc = (acc1, WAL.ReplayOk) ->
   WAL.data f = frames payloads ++ tail ->
   Forall (wellFormed from) payloads ->
   tornTail tail e ->
   WAL.ReplayFrom WAL.recording w from acc
     = (acc1 ++ applied from payloads, WAL.ReplayErr e))
  /\ (List.Forall (fun x => 0 <= x < 256) contents ->
      WAL.replayFileFrom WAL.recording contents from' acc' = (res, WAL.ReplayOk) ->
      exists whole,
        contents = frames whole
        /\ Forall (wellFormed from') whole
        /\ res = acc' ++ applied from' whole).
Proof.
  split.
  - intros Hsort Hpre Hdata Hwf Htorn. unfold WAL.ReplayFrom.
    cbv zeta in Hsort. rewrite Hsort.
    rewrite (replayFiles_app _ _ _ _ _ _ Hpre).
    cbn [WAL.replayFiles]. rewrite Hdata.
    now rewrite (replayFileFrom_torn payloads tail e from acc1 Hwf Htorn).
  - apply replayFileFrom_ok.
Qed.

Lemma C3_damaged_record_aborts_replay_witness :
  WAL.ReplayFrom WAL.recording
      (Sample.wal_of (frames [WAL.payload Sample.e_a]
                      ++ frame 0 (WAL.payload Sample.e_a) ++ [])) 0 []
    = ([] ++ applied 0 [WAL.payload Sample.e_a], WAL.ReplayErr WAL.ErrCRCMismatch)
  /\ exists whole,
       Sample.good_a = frames whole
       /\ Forall (wellFormed 0) whole
       /\ [Sample.e_a] = [] ++ applied 0 whole.
Proof.
  destruct (C3_damaged_record_aborts_replay
           (Sample.wal_of (frames [WAL.payload Sample.e_a]
                           ++ frame 0 (WAL.payload Sample.e_a) ++ []))
           0 [] []
           (WAL.mkFile 100 (frames [WAL.payload Sample.e_a]
                            ++ frame 0 (WAL.payload Sample.e_a) ++ []))
           [WAL.payload Sample.e_a] (frame 0 (WAL.payload Sample.e_a) ++ [])
           WAL.ErrCRCMismatch [] []
           Sample.good_a 0 [] [Sample.e_a]) as [Herr Honly].
  split.
  - apply Herr.
    + reflexivity.
    + reflexivity.
    + reflexivity.
    + repeat constructor; vm_compute; congruence.
    + apply torn_crc; vm_compute; try split; congruence.
  - apply Honly.
    + apply List.Forall_forall. intros x Hx.
      assert (Hb : forallb (fun x => (0 <=? x) && (x <? 256)) Sample.good_a = true)
        by (vm_compute; reflexivity).
      rewrite forallb_forall in Hb. specialize (Hb x Hx).
      apply andb_prop in Hb as [H0 H1]. apply Z.leb_le in H0. apply Z.ltb_lt in H1. lia.
    + vm_compute. reflexivity.
Defined.

(** ** The replay loop always comes to an end *)

Lemma ReadFull_rest n rd a b :
  WAL.ReadFull n rd = WAL.ReadFullOk a b ->
  (length b <= length rd)%nat /\ (0 < n -> Z.of_nat (length b) + n = Z.of_nat (length rd)).
Proof.
  unfold WAL.ReadFull, Bytes.len.
  destruct (Z.leb_spec n 0) as [Hn|Hn].
  - intros Heq; inversion Heq; subst. split; [lia|lia].
  - destruct (Z.eqb_spec (Z.of_nat (length rd)) 0) as [H0|H0]; [discriminate|].
    destruct (Z.ltb_spec (Z.of_nat (length rd)) n) as [H1|H1]; [discriminate|].
    intros Heq; inversion Heq; subst. rewrite length_skipn. split; lia.
Qed.

(** With more steps than unread bytes the loop never runs out of steps:
    [replayFileFrom] always returns [nil], an error, or panics. *)
Lemma replayLoop_total {St} (cb : WAL.WALEntry -> St -> St * bool) fuel :
  forall rd from s,
    (length rd < fuel)%nat ->
    snd (WAL.replayLoop cb fuel rd from s) <> WAL.ReplayFuel.
Proof.
  induction fuel as [|fuel IH]; intros rd from s Hlen; [lia|].
  cbn [WAL.replayLoop].
  destruct (WAL.ReadFull 8 rd) as [header rd1| |] eqn:Hh; try (simpl; congruence).
  apply ReadFull_rest in Hh as [_ Hh]. specialize (Hh ltac:(lia)).
  destruct (WAL.ReadFull _ rd1) as [data rd2| |] eqn:Hd; try (simpl; congruence).
  apply ReadFull_rest in Hd as [Hd _].
  assert (length rd2 < fuel)%nat as Hrd2 by lia.
  destruct (negb _); [simpl; congruence|].
  destruct (Bytes.Uint64 data) as [u|]; [|simpl; congruence].
  cbv zeta. destruct (_ <=? from); [now apply IH|].
  destruct (WAL.parseAfterTimestamp _ data) as [entry|]; [|simpl; congruence].
  destruct (cb entry s) as [s' failed]. destruct failed; [simpl; congruence|].
  now apply IH.
Qed.

Lemma replayFileFrom_total {St} (cb : WAL.WALEntry -> St -> St * bool) contents from s :
  snd (WAL.replayFileFrom cb contents from s) <> WAL.ReplayFuel.
Proof. unfold WAL.replayFileFrom. apply replayLoop_total. lia. Qed.

(** ** Order on byte strings *)

Lemma Compare_eq a : forall b, Bytes.Compare a b = Eq -> a = b.
Proof.
  induction a as [|x a IH]; intros [|y b]; simpl; try congruence.
  destruct (Z.compare_spec x y) as [Hxy|Hxy|Hxy]; try congruence.
  intros Hc. subst. f_equal. now apply IH.
Qed.

Lemma Compare_antisym a : forall b, Bytes.Compare b a = CompOpp (Bytes.Compare a b).
Proof.
  induction a as [|x a IH]; intros [|y b]; simpl; try reflexivity.
  rewrite (Z.compare_antisym x y).
  destruct (x ?= y); simpl; auto.
Qed.

Lemma Compare_lt_trans a : forall b c,
  Bytes.Compare a b = Lt -> Bytes.Compare b c = Lt -> Bytes.Compare a c = Lt.
Proof.
  induction a as [|x a IH]; intros [|y b] [|z c]; simpl; try congruence.
  destruct (Z.compare_spec x y) as [Hxy|Hxy|Hxy], (Z.compare_spec y z) as [Hyz|Hyz|Hyz];
    try congruence; intros H1 H2.
  - subst. rewrite Z.compare_refl. eauto.
  - subst. now replace (y ?= z) with Lt by (symmetry; apply Z.compare_lt_iff; lia).
  - subst. now replace (x ?= z) with Lt by (symmetry; apply Z.compare_lt_iff; lia).
  - now replace (x ?= z) with Lt by (symmetry; apply Z.compare_lt_iff; lia).
Qed.

Lemma ltb_trans a b c : Bytes.ltb a b = true -> Bytes.ltb b c = true -> Bytes.ltb a c = true.
Proof.
  unfold Bytes.ltb. intros H1 H2.
  destruct (Bytes.Compare a b) eqn:E1; try discriminate.
  destruct (Bytes.Compare b c) eqn:E2; try discriminate.
  now rewrite (Compare_lt_trans a b c E1 E2).
Qed.

Lemma ltb_asym a b : Bytes.ltb a b = true -> Bytes.ltb b a = false.
Proof.
  unfold Bytes.ltb. rewrite (Compare_antisym a b).
  destruct (Bytes.Compare a b); simpl; congruence.
Qed.

Lemma ltb_total a b : a <> b -> Bytes.ltb a b = true \/ Bytes.ltb b a = true.
Proof.
  intros Hne. unfold Bytes.ltb. rewrite (Compare_antisym a b).
  destruct (Bytes.Compare a b) eqn:E; simpl; auto.
  apply Compare_eq in E. contradiction.
Qed.

(** ** The model of [sort.Slice] sorts *)

Section SliceSorts.
Context {A : Type}.
Variable less : A -> A -> bool.
Hypothesis less_asym : forall a b, less a b = true -> less b a = false.

Lemma insert_Permutation x l : Permutation (Sort.insert less x l) (x :: l).
Proof.
  induction l as [|y l IH]; [reflexivity|].
  cbn [Sort.insert]. destruct (less x y); [reflexivity|].
  rewrite IH. apply perm_swap.
Qed.

Lemma Slice_Permutation l : Permutation (Sort.Slice less l) l.
Proof.
  induction l as [|x l IH]; [reflexivity|].
  cbn [Sort.Slice fold_right]. fold (Sort.Slice less l).
  rewrite insert_Permutation. now constructor.
Qed.

Lemma Slice_In l x : In x (Sort.Slice less l) <-> In x l.
Proof.
  split; apply Permutation_in; [|symmetry]; apply Slice_Permutation.
Qed.

Lemma insert_Sorted x l :
  Sorted (inOrder less) l -> Sorted (inOrder less) (Sort.insert less x l).
Proof.
  induction 1 as [|y l Hs IH Hhd]; cbn [Sort.insert].
  - repeat constructor.
  - destruct (less x y) eqn:Hxy.
    + constructor; [now constructor|]. constructor. now apply less_asym.
    + constructor; [exact IH|].
      destruct l as [|z l]; cbn [Sort.insert].
      * constructor. exact Hxy.
      * destruct (less x z); constructor; [exact Hxy|now inversion Hhd].
Qed.

Lemma Slice_Sorted l : Sorted (inOrder less) (Sort.Slice less l).
Proof.
  induction l as [|x l IH]; [constructor|].
  cbn [Sort.Slice fold_right]. now apply insert_Sorted.
Qed.

End SliceSorts.

(** ** Sorting pairs with distinct keys *)

Lemma insert_insert (x y : Block.keyValuePair) l :
  Block.key x <> Block.key y ->
  Sort.insert Block.less x (Sort.insert Block.less y l)
  = Sort.insert Block.less y (Sort.insert Block.less x l).
Proof.
  intros Hne. induction l as [|e l IH].
  - simpl. unfold Block.less.
    destruct (ltb_total _ _ Hne) as [H|H]; rewrite H, (ltb_asym _ _ H); reflexivity.
  - cbn [Sort.insert].
    destruct (Block.less y e) eqn:Hye, (Block.less x e) eqn:Hxe; cbn [Sort.insert];
      rewrite ?Hye, ?Hxe.
    + unfold Block.less in *.
      destruct (ltb_total _ _ Hne) as [H|H]; rewrite H, (ltb_asym _ _ H); reflexivity.
    + assert (Block.less x y = false) as ->; [|reflexivity].
      unfold Block.less in *.
      destruct (Bytes.ltb (Block.key x) (Block.key y)) eqn:Hxy; [|reflexivity].
      now rewrite (ltb_trans _ _ _ Hxy Hye) in Hxe.
    + assert (Block.less y x = false) as ->; [|reflexivity].
      unfold Block.less in *.
      destruct (Bytes.ltb (Block.key y) (Block.key x)) eqn:Hyx; [|reflexivity].
      now rewrite (ltb_trans _ _ _ Hyx Hxe) in Hye.
    + now rewrite IH.
Qed.

Lemma Slice_permutation (l1 l2 : list Block.keyValuePair) :
  Permutation l1 l2 -> NoDup (map Block.key l1) ->
  Sort.Slice Block.less l1 = Sort.Slice Block.less l2.
Proof.
  induction 1 as [|x l l' Hp IH|x y l|l l' l'' Hp1 IH1 Hp2 IH2]; intros Hnd.
  - reflexivity.
  - cbn [Sort.Slice fold_right]. fold (Sort.Slice Block.less l) (Sort.Slice Block.less l').
    rewrite IH; [reflexivity|]. simpl in Hnd. now apply NoDup_cons in Hnd.
  - cbn [Sort.Slice fold_right]. apply insert_insert.
    simpl in Hnd. apply NoDup_cons in Hnd as [Hin _].
    intros Heq. apply Hin. rewrite Heq. apply elem_of_cons. now left.
  - rewrite IH1 by assumption. apply IH2.
    pose proof (Permutation_map Block.key Hp1) as HP. now rewrite <- HP.
Qed.

Lemma pairs_build ps : forall b,
  Block.pairs (fold_left (fun b p => Block.Add (Block.key p) (Block.value p) b) ps b)
  = Block.pairs b ++ ps.
Proof.
  induction ps as [|p ps IH]; intros b; simpl.
  - now rewrite app_nil_r.
  - rewrite IH. simpl. rewrite <- app_assoc. now destruct p.
Qed.

Lemma Data_build ps : forall b,
  Block.Data (fold_left (fun b p => Block.Add (Block.key p) (Block.value p) b) ps b)
  = Block.Data b.
Proof. induction ps as [|p ps IH]; intros b; simpl; [|rewrite IH]; reflexivity. Qed.

(** ** C9: block determinism and content hash *)

(** C9: two blocks built by adding the same pairs, with distinct keys, in
    any two orders (and at any two creation times) have, once finalized,
    the same payload and the same block id; and the block id of a
    finalized block is the SHA-256 of its payload, which is the byte
    string [Encode] writes after the header and the stats. *)
Theorem C9_block_determinism_and_content_hash
    (ps1 ps2 : list Block.keyValuePair) (t1 t2 : Z) :
  Permutation ps1 ps2 ->
  NoDup (map Block.key ps1) ->
  Block.Data (Block.Finalize (build t1 ps1)) = Block.Data (Block.Finalize (build t2 ps2))
  /\ Block.BlockID (Block.header (Block.Finalize (build t1 ps1)))
     = Block.BlockID (Block.header (Block.Finalize (build t2 ps2)))
  /\ Block.BlockID (Block.header (Block.Finalize (build t1 ps1)))
     = SHA256.Sum256 (Block.Data (Block.Finalize (build t1 ps1)))
  /\ (exists front,
        snd (Block.Encode (build t1 ps1))
        = front ++ Block.Data (Block.Finalize (build t1 ps1))).
Proof.
  intros Hperm Hnd.
  assert (Hsort : Sort.Slice Block.less (Block.pairs (build t1 ps1))
                  = Sort.Slice Block.less (Block.pairs (build t2 ps2))).
  { unfold build. rewrite !pairs_build. simpl. now apply Slice_permutation. }
  split; [|split; [|split]].
  - unfold Block.Finalize. cbn [Block.Data]. now rewrite Hsort.
  - unfold Block.Finalize. cbn [Block.header Block.BlockID]. now rewrite Hsort.
  - reflexivity.
  - unfold Block.Encode.
    assert (Block.Data (build t1 ps1) = []) as -> by (unfold build; now rewrite Data_build).
    change (Bytes.len [] =? 0) with true. cbv iota. cbn [snd].
    eexists. rewrite !app_assoc. reflexivity.
Qed.

Lemma C9_block_determinism_and_content_hash_witness :
  Block.Data (Block.Finalize (build 1 Scenario.ab))
  = Block.Data (Block.Finalize (build 2 Scenario.ba))
  /\ Block.BlockID (Block.header (Block.Finalize (build 1 Scenario.ab)))
     = Block.BlockID (Block.header (Block.Finalize (build 2 Scenario.ba)))
  /\ Block.BlockID (Block.header (Block.Finalize (build 1 Scenario.ab)))
     = SHA256.Sum256 (Block.Data (Block.Finalize (build 1 Scenario.ab)))
  /\ (exists front,
        snd (Block.Encode (build 1 Scenario.ab))
        = front ++ Block.Data (Block.Finalize (build 1 Scenario.ab))).
Proof.
  apply (C9_block_determinism_and_content_hash Scenario.ab Scenario.ba 1 2).
  - apply perm_swap.
  - vm_compute. repeat constructor; rewrite ?elem_of_cons, ?elem_of_nil; intuition congruence.
Defined.

(** ** Files of the data directory *)

Lemma Compare_refl a : Bytes.Compare a a = Eq.
Proof. induction a as [|x a IH]; simpl; [reflexivity|]. now rewrite Z.compare_refl. Qed.

Lemma eqb_true a b : Bytes.eqb a b = true <-> a = b.
Proof.
  unfold Bytes.eqb. split.
  - destruct (Bytes.Compare a b) eqn:E; try discriminate. intros _. now apply Compare_eq.
  - intros ->. now rewrite Compare_refl.
Qed.

Lemma samePath_true p q : Disk.samePath p q = true <-> p = q.
Proof.
  destruct p as [lp np], q as [lq nq]. unfold Disk.samePath, Bytes.eqb. simpl. split.
  - intros H. apply andb_true_iff in H as [Hl Hn]. apply Nat.eqb_eq in Hl.
    destruct (Bytes.Compare np nq) eqn:E; try discriminate.
    apply Compare_eq in E. now subst.
  - intros H. inversion H; subst. now rewrite Nat.eqb_refl, Compare_refl.
Qed.

Lemma samePath_false p q : Disk.samePath p q = false <-> p <> q.
Proof.
  rewrite <- samePath_true. destruct (Disk.samePath p q); split; congruence.
Qed.

Lemma read_app p d1 d2 :
  Disk.read p (d1 ++ d2)
  = match Disk.read p d1 with Some f => Some f | None => Disk.read p d2 end.
Proof.
  induction d1 as [|[q f] d1 IH]; [reflexivity|].
  cbn [Disk.read app]. now destruct (Disk.samePath p q).
Qed.

Lemma read_remove_same p d : Disk.read p (Disk.remove p d) = None.
Proof.
  unfold Disk.remove. induction d as [|[q f] d IH]; [reflexivity|].
  cbn [List.filter fst]. destruct (Disk.samePath p q) eqn:E; cbn [negb]; [exact IH|].
  cbn [Disk.read]. now rewrite E.
Qed.

Lemma read_remove_other p q d : p <> q -> Disk.read p (Disk.remove q d) = Disk.read p d.
Proof.
  intros Hne. unfold Disk.remove. induction d as [|[r f] d IH]; [reflexivity|].
  cbn [List.filter fst]. destruct (Disk.samePath q r) eqn:E; cbn [negb Disk.read].
  - apply samePath_true in E. subst r.
    apply samePath_false in Hne. now rewrite Hne.
  - now rewrite IH.
Qed.

Lemma read_write_same p bs now d :
  Disk.read p (Disk.write p bs now d) = Some (Disk.mkInfo bs now).
Proof.
  unfold Disk.write. rewrite read_app, read_remove_same. cbn [Disk.read].
  now rewrite (proj2 (samePath_true p p) eq_refl).
Qed.

Lemma read_write_other p q bs now d :
  p <> q -> Disk.read p (Disk.write q bs now d) = Disk.read p d.
Proof.
  intros Hne. unfold Disk.write. rewrite read_app, read_remove_other by assumption.
  cbn [Disk.read]. apply samePath_false in Hne. rewrite Hne.
  now destruct (Disk.read p d).
Qed.

Lemma read_remove_all p (bs : list LSM.blockInfo) : forall d,
  Disk.read p (fold_left (fun d b => Disk.remove (LSM.path b) d) bs d)
  = if existsb (fun b => Disk.samePath p (LSM.path b)) bs then None else Disk.read p d.
Proof.
  induction bs as [|b bs IH]; intros d; [reflexivity|].
  cbn [fold_left existsb]. rewrite IH.
  destruct (existsb _ bs); [now rewrite orb_true_r|]. rewrite orb_false_r.
  destruct (Disk.samePath p (LSM.path b)) eqn:E.
  - apply samePath_true in E. subst p. apply read_remove_same.
  - apply samePath_false in E. now apply read_remove_other.
Qed.

(** ** What [loadExistingBlocks] records as key range *)

Lemma loadLevel_keys d lv b :
  In b (LSM.loadLevel d lv) ->
  LSM.minKey b = snd (LSM.path b) /\ LSM.maxKey b = snd (LSM.path b).
Proof.
  unfold LSM.loadLevel. intros H. apply in_flat_map in H as [[name info] [_ H]].
  destruct (negb _); [destruct H|]. destruct H as [<-|[]]. now split.
Qed.

Lemma level_setLevel t i j bs :
  LSM.level (LSM.setLevel i bs t) j
  = if decide (i = j /\ (i < length (LSM.levels t))%nat) then bs else LSM.level t j.
Proof.
  unfold LSM.level, LSM.setLevel. cbn [LSM.levels].
  rewrite !nth_lookup.
  destruct (decide (i = j /\ (i < length (LSM.levels t))%nat)) as [[-> Hlt]|Hn].
  - now rewrite list_lookup_insert_eq.
  - destruct (decide (i = j)) as [->|Hij].
    + rewrite list_insert_ge by lia. reflexivity.
    + now rewrite list_lookup_insert_ne.
Qed.

(** Every [BlockInfo] of a tree built by [NewLSMTree] has the name of its
    file as min key and as max key, whatever the file holds. *)
Lemma NewLSMTree_key_range_is_file_name d lv b :
  In b (LSM.level (LSM.NewLSMTree d) lv) ->
  LSM.minKey b = snd (LSM.path b) /\ LSM.maxKey b = snd (LSM.path b).
Proof.
  unfold LSM.NewLSMTree, LSM.loadExistingBlocks.
  set (named t := forall lv b, In b (LSM.level t lv) ->
         LSM.minKey b = snd (LSM.path b) /\ LSM.maxKey b = snd (LSM.path b)).
  enough (Hfold : forall lvs t, named t ->
            named (fold_left
              (fun t lv =>
                 LSM.setLevel lv
                   (Sort.Slice (fun a b => Bytes.ltb (LSM.minKey a) (LSM.minKey b))
                               (LSM.level t lv ++ LSM.loadLevel d lv)) t) lvs t)).
  { apply Hfold. intros lv' b' Hb'. unfold LSM.level in Hb'. cbn [LSM.levels] in Hb'.
    do 7 (destruct lv' as [|lv']; [destruct Hb'|]). destruct lv'; destruct Hb'. }
  induction lvs as [|l lvs IH]; intros t Ht; [exact Ht|].
  cbn [fold_left]. apply IH. intros lv' b' Hb'.
  rewrite level_setLevel in Hb'. destruct (decide _) as [[-> _]|_].
  - apply Slice_In in Hb'. apply in_app_or in Hb' as [Hb'|Hb'].
    + eapply Ht; eauto.
    + eapply loadLevel_keys; eauto.
  - eapply Ht; eauto.
Qed.

(** ** What [compact] leaves behind *)

Lemma filter_all {A} (f : A -> bool) l :
  Forall (fun x => f x = true) l -> List.filter f l = l.
Proof.
  induction 1 as [|x l Hx _ IH]; [reflexivity|].
  cbn [List.filter]. now rewrite Hx, IH.
Qed.

(** When every source file exists and none lies where the output goes,
    [compact] returns without error, the output file is empty, no key can
    be read from it, and every source file is gone. *)
Lemma compact_loses_every_record now task d :
  let target : Disk.path := (Compaction.targetLevel task, Fmt.Int now ++ LSM.blk) in
  let d' := snd (Compaction.compact now task d) in
  Forall (fun b => Disk.read (LSM.path b) d <> None /\ LSM.path b <> target)
         (Compaction.blocks task) ->
  snd (fst (Compaction.compact now task d)) = false
  /\ Disk.read target d' = Some (Disk.mkInfo [] now)
  /\ (forall k, LSM.readFromBlock d' target k = None)
  /\ (forall b, In b (Compaction.blocks task) -> Disk.read (LSM.path b) d' = None).
Proof.
  intros target d' Hsrc. subst d'. unfold Compaction.compact. fold target.
  set (sorted := Sort.Slice _ (Compaction.blocks task)).
  assert (Hsorted : forall b, In b sorted <-> In b (Compaction.blocks task))
    by (intros b; apply Slice_In).
  rewrite List.Forall_forall in Hsrc.
  rewrite filter_all.
  2:{ apply List.Forall_forall. intros b Hb. apply Hsorted in Hb.
      destruct (Hsrc b Hb) as [Hex _]. now destruct (Disk.read (LSM.path b) d). }
  rewrite Nat.eqb_refl. cbn [negb snd fst].
  assert (Htarget : Disk.read target
            (fold_left (fun d b => Disk.remove (LSM.path b) d) sorted
                       (Disk.write target [] now d)) = Some (Disk.mkInfo [] now)).
  { rewrite read_remove_all.
    assert (existsb (fun b => Disk.samePath target (LSM.path b)) sorted = false) as ->.
    { apply not_true_is_false. intros Hex. apply existsb_exists in Hex as [b [Hb Hs]].
      apply samePath_true in Hs. apply Hsorted in Hb.
      destruct (Hsrc b Hb) as [_ Hne]. congruence. }
    apply read_write_same. }
  repeat split.
  - exact Htarget.
  - intros k. unfold LSM.readFromBlock. rewrite Htarget. reflexivity.
  - intros b Hb. rewrite read_remove_all.
    assert (existsb (fun b' => Disk.samePath (LSM.path b) (LSM.path b')) sorted = true) as ->;
      [|reflexivity].
    apply existsb_exists. exists b. split; [now apply Hsorted|].
    now apply samePath_true.
Qed.

(** ** The binary search of [findBlockIndex] has steps to spare *)

Lemma search_fuel bs k fuel : forall left right,
  right - left + 1 < Z.of_nat fuel ->
  LSM.search fuel bs k left right = LSM.search (S fuel) bs k left right.
Proof.
  induction fuel as [|fuel IH]; intros left right Hfuel.
  - cbn [LSM.search]. destruct (Z.leb_spec left right); [lia|reflexivity].
  - remember (S fuel) as n eqn:Hn. cbn [LSM.search]. rewrite Hn at 1. cbn [LSM.search].
    destruct (Z.leb_spec left right) as [Hle|Hgt]; [|reflexivity].
    assert (left <= (left + right) / 2 <= right) as Hmid
        by (split; [apply Z.div_le_lower_bound|apply Z.div_le_upper_bound]; lia).
    destruct (nth_error bs _) as [b|]; [|reflexivity].
    subst n. rewrite <- !IH by lia. reflexivity.
Qed.

(** ** Lookups in the LSM index *)

Lemma scanNewestFirst_absent d k bs :
  (forall b, In b bs -> LSM.readFromBlock d (LSM.path b) k = None) ->
  LSM.scanNewestFirst d k bs = None.
Proof.
  induction bs as [|b bs IH]; intros H; [reflexivity|].
  cbn [LSM.scanNewestFirst].
  rewrite (H b) by now left.
  rewrite IH by (intros b' Hb'; apply H; now right).
  now destruct (LSM.keyInRange k (LSM.minKey b) (LSM.maxKey b)).
Qed.

Lemma readLevel_absent d t k lv :
  (forall b, In b (LSM.level t lv) -> LSM.readFromBlock d (LSM.path b) k = None) ->
  LSM.readLevel d t k lv = None.
Proof.
  intros H. unfold LSM.readLevel.
  destruct (lv =? 0)%nat eqn:Hlv.
  - apply Nat.eqb_eq in Hlv. subst lv.
    apply scanNewestFirst_absent. intros b Hb. apply H. now apply in_rev.
  - destruct (LSM.findBlockIndex t lv k >=? 0); [|reflexivity].
    destruct (nth_error (LSM.level t lv) _) as [b|] eqn:Hb; [|reflexivity].
    apply H. eapply nth_error_In; eauto.
Qed.

(** When no block of any level yields the key, [Read] reports
    "key not found". *)
Lemma Read_absent d t k :
  (forall lv b, In b (LSM.level t lv) -> LSM.readFromBlock d (LSM.path b) k = None) ->
  LSM.Read d t k = None.
Proof.
  intros H. unfold LSM.Read.
  induction (seq 0 7) as [|lv lvs IH]; [reflexivity|].
  cbn [LSM.readLevels]. rewrite readLevel_absent by (intros; eapply H; eauto).
  exact IH.
Qed.

Lemma set_mu_same e : Engine.set_mu (Engine.mu e) e = e.
Proof. now destruct e. Qed.

(** ** C5: a key that is nowhere *)

(** C5 (counterexample): on a freshly opened engine, [Get] of a key that
    is in neither the memtable nor the index returns the error
    "key not found", not a nil error. *)
Lemma C5_get_absent_key_returns_error :
  run (Engine.Get Scenario.k) Scenario.fresh = Some ([], Some Engine.ErrKeyNotFound)
  /\ (forall v, run (Engine.Get Scenario.k) Scenario.fresh <> Some (v, None)).
Proof. split; [reflexivity|]. intros v. vm_compute. congruence. Qed.

(** C5 (amended): for a key that is not in the memtable and that no block
    of any level of the index yields, [Get] on an open engine returns no
    value and the error "key not found" that the LSM lookup produced; the
    engine passes the error on unchanged and is left as it was. *)
Theorem C5_get_absent_key (e : Engine.Engine) (k : list Z) :
  Engine.mu e = Engine.Unlocked ->
  Engine.closed e = false ->
  Engine.memTable e !! k = None ->
  (forall lv b, In b (LSM.level (Engine.lsm e) lv) ->
                LSM.readFromBlock (Engine.disk e) (LSM.path b) k = None) ->
  Engine.Get k e = Engine.Returned ([], Some Engine.ErrKeyNotFound) e.
Proof.
  intros Hmu Hopen Hmem Hlsm.
  pose proof (Read_absent _ _ _ Hlsm) as Hread.
  destruct e; simpl in *; subst.
  unfold Engine.Get, Engine.RLock, Engine.RUnlock, Engine.gets, mbind, mret,
    Engine.M_bind, Engine.M_ret, Engine.set_mu; simpl.
  rewrite Hmem. simpl. now rewrite Hread.
Qed.

Lemma C5_get_absent_key_witness :
  Engine.Get Scenario.k Scenario.fresh
  = Engine.Returned ([], Some Engine.ErrKeyNotFound) Scenario.fresh.
Proof.
  apply (C5_get_absent_key Scenario.fresh Scenario.k).
  - reflexivity.
  - reflexivity.
  - reflexivity.
  - intros lv b Hb. exfalso. revert Hb.
    do 7 (destruct lv as [|lv]; [simpl; tauto|]). destruct lv; simpl; tauto.
Defined.

(** ** C6: [Put] with an empty key *)

(** C6 (counterexample): [Put] with an empty key on a freshly opened
    engine returns a nil error, appends a record to the WAL and stores the
    value under the empty key. *)
Lemma C6_put_empty_key_accepted :
  run (Engine.Put 300 [] Scenario.v) Scenario.fresh = Some None
  /\ Engine.memTable (after (Engine.Put 300 [] Scenario.v Scenario.fresh)) !! []
     = Some Scenario.v
  /\ Engine.memTableSize (after (Engine.Put 300 [] Scenario.v Scenario.fresh)) = 1
  /\ WAL.walDir (Engine.wal (after (Engine.Put 300 [] Scenario.v Scenario.fresh)))
     = [WAL.mkFile 100 (WAL.record (WAL.mkEntry 300 WAL.OpTypePut [] Scenario.v))].
Proof. vm_compute. repeat split; reflexivity. Qed.

(** C6 (amended): on an open engine [Put] with an empty key succeeds like
    any other [Put]: it returns a nil error, appends a PUT record with a
    zero-length key to the WAL, stores the value under the empty key, and
    moves the size counter by the length of the value less the length of
    the value it replaces. The engine has no check of the key. *)
Theorem C6_put_empty_key (e : Engine.Engine) (now : Z) (v : list Z) :
  Engine.mu e = Engine.Unlocked ->
  Engine.closed e = false ->
  exists e',
    Engine.Put now [] v e = Engine.Returned None e'
    /\ Engine.wal e' = WAL.AppendPut now [] v (Engine.wal e)
    /\ Engine.memTable e' = <[ [] := v ]> (Engine.memTable e)
    /\ Engine.memTableSize e'
       = Engine.memTableSize e + Bytes.len v - Engine.oldSizeOf (Engine.memTable e) [].
Proof.
  intros Hmu Hopen. destruct e; simpl in *; subst.
  unfold Engine.Put, Engine.Lock, Engine.Unlock, Engine.gets, Engine.modify,
    mbind, mret, Engine.M_bind, Engine.M_ret; simpl.
  match goal with |- context [if ?c then _ else _] => destruct c end;
    simpl; eexists; repeat split; simpl; unfold Bytes.len; simpl; lia.
Qed.

Lemma C6_put_empty_key_witness :
  exists e',
    Engine.Put 300 [] Scenario.v Scenario.fresh = Engine.Returned None e'
    /\ Engine.wal e' = WAL.AppendPut 300 [] Scenario.v (Engine.wal Scenario.fresh)
    /\ Engine.memTable e' = <[ [] := Scenario.v ]> (Engine.memTable Scenario.fresh)
    /\ Engine.memTableSize e'
       = Engine.memTableSize Scenario.fresh + Bytes.len Scenario.v
         - Engine.oldSizeOf (Engine.memTable Scenario.fresh) [].
Proof.
  apply (C6_put_empty_key Scenario.fresh 300 Scenario.v); reflexivity.
Defined.

(** ** C7: the size counter of the memtable *)

(** What [Put] does to the counter: it adds the length of the key even
    when the key is already in the memtable. *)
Lemma Put_counter (e : Engine.Engine) (now : Z) (k v : list Z) :
  Engine.mu e = Engine.Unlocked ->
  Engine.closed e = false ->
  Engine.memTableSize (after (Engine.Put now k v e))
  = Engine.memTableSize e + (Bytes.len k + Bytes.len v)
    - Engine.oldSizeOf (Engine.memTable e) k.
Proof.
  intros Hmu Hopen. destruct e; simpl in *; subst.
  unfold Engine.Put, Engine.Lock, Engine.Unlock, Engine.gets, Engine.modify,
    mbind, mret, Engine.M_bind, Engine.M_ret; simpl.
  match goal with |- context [if ?c then _ else _] => destruct c end; reflexivity.
Qed.

(** What [Delete] does to the counter: it takes off the length of the
    value only. *)
Lemma Delete_counter (e : Engine.Engine) (now : Z) (k : list Z) :
  Engine.mu e = Engine.Unlocked ->
  Engine.closed e = false ->
  Engine.memTableSize (after (Engine.Delete now k e))
  = Engine.memTableSize e - Engine.oldSizeOf (Engine.memTable e) k.
Proof.
  intros Hmu Hopen. destruct e; simpl in *; subst. reflexivity.
Qed.

(** C7 (the code departs from the claim): the counter and the byte sum of
    the memtable, in this order, after
    - put(k,v), put(k,w): 3 and 2 (the overwrite added the key again);
    - put(k,v), delete(k): 1 and 0 (the delete left the key's byte);
    - recovery over a log of put(k,v), put(k,w), delete(k): 4 and 0
      (replayed puts never subtract, replayed deletes subtract nothing). *)
Theorem C7_counter_differs_from_byte_sum :
  run (Engine.Put 200 Scenario.k Scenario.v;;
       Engine.Put 300 Scenario.k Scenario.w;;
       Scenario.sizes) Scenario.fresh = Some (3, 2)
  /\ run (Engine.Put 200 Scenario.k Scenario.v;;
          Engine.Delete 300 Scenario.k;;
          Scenario.sizes) Scenario.fresh = Some (1, 0)
  /\ run (Engine.recover;; Scenario.sizes)
         (Engine.create 500 [] Scenario.log Engine.NoFile) = Some (4, 0)
  /\ run Engine.recover (Engine.create 500 [] Scenario.log Engine.NoFile) = Some None.
Proof. vm_compute. repeat split; reflexivity. Qed.

(** ** C10: the final flush of [Close] *)

(** A flush cycle writes a block file to level 0 whatever the memtable
    holds: from an empty memtable, a file whose block has no records. *)
Lemma flush_of_empty_memtable_writes_block :
  returns (Engine.flush 300 Scenario.fresh) = true
  /\ map (fun f => fst (fst f)) (Engine.disk (after (Engine.flush 300 Scenario.fresh)))
     = [0%nat]
  /\ map (fun f => Block.pairs <$> Block.Decode (Block.NewBlock 0) (Disk.contents (snd f)))
         (Engine.disk (after (Engine.flush 300 Scenario.fresh)))
     = [Some []].
Proof. vm_compute. repeat split; reflexivity. Qed.

(** C10 (the code departs from the claim): [Close] on a freshly opened
    engine does not return: it takes the engine's mutex for writing, sets
    the closed flag, and then waits in [createCheckpoint] for a read lock
    on the mutex it holds itself. The final flush is never reached and no
    block file is created. *)
Theorem C10_close_never_reaches_final_flush :
  Engine.NewEngine 100 [] [] Engine.NoFile = Engine.Returned None Scenario.fresh
  /\ returns (Engine.Close 200 Scenario.fresh) = false
  /\ Engine.disk (after (Engine.Close 200 Scenario.fresh)) = []
  /\ Engine.closed (after (Engine.Close 200 Scenario.fresh)) = true
  /\ Engine.mu (after (Engine.Close 200 Scenario.fresh)) = Engine.WriteLocked
  /\ Engine.stored (Engine.checkpoint (after (Engine.Close 200 Scenario.fresh)))
     = Engine.NoFile.
Proof. vm_compute. repeat split; reflexivity. Qed.

(** [Close] blocks on every open engine, whatever it holds. *)
Lemma Close_blocks (e : Engine.Engine) (now : Z) :
  Engine.mu e = Engine.Unlocked ->
  Engine.closed e = false ->
  Engine.Close now e
  = Engine.Blocked (Engine.set_closed true (Engine.set_mu Engine.WriteLocked e)).
Proof.
  intros Hmu Hopen. destruct e; simpl in *; subst. reflexivity.
Qed.

(** ** C8: the index rebuilt on open *)

(** C8 (the code departs from the claim): a block holding the key "k" is
    written to level 0; its header stores "k" as min and max key and the
    tree that wrote it finds the key. A tree opened afterwards on the same
    directory records the file name as both min and max key of the block,
    and its lookup of "k" does not search the block: "key not found". *)
Theorem C8_reloaded_index_has_file_name_as_key_range :
  LSM.Read (fst Scenario.written) (snd Scenario.written) Scenario.k = Some Scenario.v
  /\ map (fun f => (fun b => (Block.MinKey (Block.stats b), Block.MaxKey (Block.stats b)))
                     <$> Block.Decode (Block.NewBlock 0) (Disk.contents (snd f)))
         (fst Scenario.written)
     = [Some (Scenario.k, Scenario.k)]
  /\ map (fun b => (LSM.minKey b, LSM.maxKey b))
         (LSM.level (LSM.NewLSMTree (fst Scenario.written)) 0)
     = map (fun f => (snd (fst f), snd (fst f))) (fst Scenario.written)
  /\ map LSM.path (LSM.level (LSM.NewLSMTree (fst Scenario.written)) 0)
     = map LSM.path (LSM.level (snd Scenario.written) 0)
  /\ LSM.Read (fst Scenario.written) (LSM.NewLSMTree (fst Scenario.written)) Scenario.k
     = None.
Proof. vm_compute. repeat split; reflexivity. Qed.

(** ** C4: the compaction worker *)

(** C4 (the code departs from the claim): compacting the level-0 block
    that holds ("k","v") into level 1 returns without error, leaves one
    file in the data directory, in level 1, which is empty and cannot be
    decoded as a block, and removes the source file; the key the source
    block yielded before is yielded by no file afterwards. *)
Theorem C4_compaction_output_is_empty :
  map (fun b => LSM.readFromBlock (fst Scenario.written) (LSM.path b) Scenario.k)
      (Compaction.blocks Scenario.task)
    = [Some Scenario.v]
  /\ snd (fst (Compaction.compact 400 Scenario.task (fst Scenario.written))) = false
  /\ map (fun f => (fst (fst f), Disk.contents (snd f)))
         (snd (Compaction.compact 400 Scenario.task (fst Scenario.written)))
     = [(1%nat, [])]
  /\ map (fun f => LSM.readFromBlock
                     (snd (Compaction.compact 400 Scenario.task (fst Scenario.written)))
                     (fst f) Scenario.k)
         (snd (Compaction.compact 400 Scenario.task (fst Scenario.written)))
     = [None].
Proof. vm_compute. repeat split; reflexivity. Qed.

(** * Further properties *)

(** ** Write-ahead log: what replay hands to the callback *)

Lemma parseAfterTimestamp_Timestamp ts data e :
  WAL.parseAfterTimestamp ts data = Some e -> WAL.Timestamp e = ts.
Proof.
  unfold WAL.parseAfterTimestamp. intros H.
  repeat match type of H with
         | (?m ≫= _) = Some _ => destruct m; simpl in H; [|discriminate]
         end.
  now inversion H.
Qed.

Lemma replayLoop_after_cutoff fuel : forall rd from acc,
  Forall (fun e => from < WAL.Timestamp e) acc ->
  Forall (fun e => from < WAL.Timestamp e)
         (fst (WAL.replayLoop WAL.recording fuel rd from acc)).
Proof.
  induction fuel as [|fuel IH]; intros rd from acc Hacc; [exact Hacc|].
  cbn [WAL.replayLoop].
  destruct (WAL.ReadFull 8 rd) as [header rd1| |]; try exact Hacc.
  destruct (WAL.ReadFull _ rd1) as [data rd2| |]; try exact Hacc.
  destruct (negb _); [exact Hacc|].
  destruct (Bytes.Uint64 data) as [u|]; [|exact Hacc].
  cbv zeta. destruct (Z.leb_spec (Bytes.int64_of_uint64 u) from) as [Hle|Hgt];
    [now apply IH|].
  destruct (WAL.parseAfterTimestamp _ data) as [entry|] eqn:Hp; [|exact Hacc].
  unfold WAL.recording at 1. cbv iota beta. apply IH.
  apply Forall_app. split; [exact Hacc|]. constructor; [|constructor].
  apply parseAfterTimestamp_Timestamp in Hp. lia.
Qed.

Lemma replayFiles_after_cutoff files : forall from acc,
  Forall (fun e => from < WAL.Timestamp e) acc ->
  Forall (fun e => from < WAL.Timestamp e)
         (fst (WAL.replayFiles WAL.recording files from acc)).
Proof.
  induction files as [|f files IH]; intros from acc Hacc; [exact Hacc|].
  cbn [WAL.replayFiles].
  pose proof (replayLoop_after_cutoff (S (length (WAL.data f))) (WAL.data f) from acc Hacc)
    as Hf.
  unfold WAL.replayFileFrom.
  destruct (WAL.replayLoop _ _ _ _ _) as [acc' r]. simpl in Hf.
  destruct r; try exact Hf. now apply IH.
Qed.

(** X1: whatever bytes the WAL files hold, and however replay ends, every
    entry [ReplayFrom] hands to the callback has a timestamp after the
    cutoff. *)
Theorem X1_replay_never_applies_entry_at_or_before_cutoff (w : WAL.WAL) (from : Z) :
  Forall (fun e => from < WAL.Timestamp e)
         (fst (WAL.ReplayFrom WAL.recording w from [])).
Proof. unfold WAL.ReplayFrom. apply replayFiles_after_cutoff. constructor. Qed.

(** ** Write-ahead log: the payload layout is read back *)

Lemma slice_middle a b c :
  Bytes.slice (a ++ b ++ c) (Bytes.len a) (Bytes.len a + Bytes.len b) = Some b.
Proof.
  unfold Bytes.slice. rewrite !len_app.
  pose proof (len_nonneg a). pose proof (len_nonneg b). pose proof (len_nonneg c).
  replace ((0 <=? Bytes.len a) && (Bytes.len a <=? Bytes.len a + Bytes.len b)
           && (Bytes.len a + Bytes.len b <=? Bytes.len a + (Bytes.len b + Bytes.len c)))
    with true
    by (symmetry; rewrite !andb_true_iff; repeat split; apply Z.leb_le; lia).
  f_equal. unfold Bytes.len.
  replace (Z.to_nat (Z.of_nat (length a))) with (length a) by lia.
  replace (Z.to_nat (Z.of_nat (length a) + Z.of_nat (length b) - Z.of_nat (length a)))
    with (length b) by lia.
  rewrite skipn_app, skipn_all, Nat.sub_diag. change (skipn 0 (b ++ c)) with (b ++ c).
  cbn [app]. rewrite firstn_app, firstn_all, Nat.sub_diag. cbn [firstn]. apply app_nil_r.
Qed.

Lemma drop_prefix a b : Bytes.drop (a ++ b) (Bytes.len a) = Some b.
Proof.
  unfold Bytes.drop.
  pose proof (slice_middle a b []) as H. rewrite app_nil_r in H.
  now rewrite len_app.
Qed.

Lemma Uint32_PutUint32 v rest :
  0 <= v < 2 ^ 32 -> Bytes.Uint32 (Bytes.PutUint32 v ++ rest) = Some v.
Proof.
  intros Hv. unfold Bytes.Uint32. rewrite len_app.
  pose proof (len_nonneg rest).
  replace (Bytes.len (Bytes.PutUint32 v)) with 4 by reflexivity.
  replace (4 <=? 4 + Bytes.len rest) with true by (symmetry; apply Z.leb_le; lia).
  replace (firstn 4 (Bytes.PutUint32 v ++ rest)) with (Bytes.PutUint32 v) by reflexivity.
  now rewrite getLE_PutUint32.
Qed.

Lemma int64_PutUint64 ts rest :
  - 2 ^ 63 <= ts < 2 ^ 63 ->
  Bytes.int64_of_uint64 <$> Bytes.Uint64 (Bytes.PutUint64 ts ++ rest) = Some ts.
Proof.
  intros Hts. unfold Bytes.Uint64. rewrite len_app.
  pose proof (len_nonneg rest).
  replace (Bytes.len (Bytes.PutUint64 ts)) with 8 by reflexivity.
  replace (8 <=? 8 + Bytes.len rest) with true by (symmetry; apply Z.leb_le; lia).
  replace (firstn 8 (Bytes.PutUint64 ts ++ rest)) with (Bytes.PutUint64 ts) by reflexivity.
  unfold Bytes.PutUint64. rewrite getLE_putLE. change (8 * Z.of_nat 8) with 64.
  rewrite Z.land_ones by lia. simpl. f_equal. unfold Bytes.int64_of_uint64.
  destruct (Z.ltb_spec (ts mod 2 ^ 64) (2 ^ 63)) as [Hlt|Hge].
  - destruct (Z.lt_ge_cases ts 0) as [Hneg|Hpos].
    + replace ts with (ts + 2 ^ 64 - 1 * 2 ^ 64) in Hlt by lia.
      rewrite Zminus_mod, Z_mod_mult, Z.sub_0_r, Z.mod_mod in Hlt by lia.
      rewrite Z.mod_small in Hlt by lia. lia.
    + apply Z.mod_small. lia.
  - destruct (Z.lt_ge_cases ts 0) as [Hneg|Hpos].
    + replace ts with (ts + 2 ^ 64 - 1 * 2 ^ 64) at 1 by lia.
      rewrite Zminus_mod, Z_mod_mult, Z.sub_0_r, Z.mod_mod by lia.
      rewrite Z.mod_small by lia. lia.
    + rewrite Z.mod_small in Hge by lia. lia.
Qed.

(** The payload [append] lays out for an entry is parsed back to that
    entry by the loop of [replayFileFrom]. *)
Lemma decode_payload from e :
  loggable e ->
  decode from (WAL.payload e)
  = Some (if WAL.Timestamp e <=? from then None else Some e).
Proof.
  intros (Hop & Hts & Hsize).
  destruct e as [ts op k v]. cbn [WAL.Timestamp WAL.OpType WAL.Key WAL.Value] in *.
  unfold WAL.entrySize in Hsize.
  pose proof (len_nonneg k) as Hk. pose proof (len_nonneg v) as Hv.
  unfold decode, WAL.payload. cbn [WAL.Timestamp WAL.OpType WAL.Key WAL.Value].
  pose proof (int64_PutUint64 ts
                ([Z.land op 255] ++ Bytes.PutUint32 (Bytes.len k) ++ k ++
                 (if op =? WAL.OpTypePut
                  then Bytes.PutUint32 (Bytes.len v) ++ v else Bytes.PutUint32 0)) Hts) as H64.
  destruct (Bytes.Uint64 _) as [u|]; [|discriminate]. simpl in H64.
  injection H64 as ->. cbv zeta.
  destruct (ts <=? from); [reflexivity|].
  set (tailv := if op =? WAL.OpTypePut
                then Bytes.PutUint32 (Bytes.len v) ++ v else Bytes.PutUint32 0).
  set (pre := Bytes.PutUint64 ts ++ [Z.land op 255] ++ Bytes.PutUint32 (Bytes.len k)).
  replace (Bytes.PutUint64 ts ++ [Z.land op 255] ++ Bytes.PutUint32 (Bytes.len k) ++ k ++ tailv)
    with (pre ++ k ++ tailv) by (unfold pre; now rewrite <- !app_assoc).
  assert (Hpre : Bytes.len pre = 13) by reflexivity.
  assert (Hland : Z.land op 255 = op)
    by (destruct Hop as [->|[-> _]]; reflexivity).
  unfold WAL.parseAfterTimestamp.
  assert (Bytes.index (pre ++ k ++ tailv) 8 = Some op) as ->.
  { unfold Bytes.index. rewrite !len_app, Hpre.
    pose proof (len_nonneg tailv).
    replace ((0 <=? 8) && (8 <? 13 + (Bytes.len k + Bytes.len tailv))) with true
      by (symmetry; rewrite andb_true_iff; split; [reflexivity|apply Z.ltb_lt; lia]).
    unfold pre. simpl. now rewrite Hland. }
  assert (Bytes.drop (pre ++ k ++ tailv) 9 ≫= Bytes.Uint32 = Some (Bytes.len k)) as ->.
  { replace (pre ++ k ++ tailv)
      with ((Bytes.PutUint64 ts ++ [Z.land op 255])
            ++ (Bytes.PutUint32 (Bytes.len k) ++ k ++ tailv))
      by (unfold pre; now rewrite <- !app_assoc).
    change 9 with (Bytes.len (Bytes.PutUint64 ts ++ [Z.land op 255])).
    rewrite drop_prefix. cbn [mbind option_bind]. apply Uint32_PutUint32. lia. }
  cbn [mbind option_bind]. change 13 with (Bytes.len pre).
  rewrite slice_middle. cbn [mbind option_bind].
  assert (Bytes.drop (pre ++ k ++ tailv) (Bytes.len pre + Bytes.len k) = Some tailv) as ->.
  { rewrite app_assoc, <- len_app. apply drop_prefix. }
  cbn [mbind option_bind]. subst tailv. destruct Hop as [->|[-> ->]].
  - change (WAL.OpTypePut =? WAL.OpTypePut) with true. cbv iota.
    rewrite Uint32_PutUint32 by lia. cbn [mbind option_bind].
    destruct (Z.gtb_spec (Bytes.len v) 0) as [Hpos|Hzero].
    + replace (pre ++ k ++ Bytes.PutUint32 (Bytes.len v) ++ v)
        with ((pre ++ k ++ Bytes.PutUint32 (Bytes.len v)) ++ v ++ [])
        by (now rewrite app_nil_r, <- !app_assoc).
      replace (Bytes.len pre + Bytes.len k + 4)
        with (Bytes.len (pre ++ k ++ Bytes.PutUint32 (Bytes.len v)))
        by (rewrite !len_app; change (Bytes.len (Bytes.PutUint32 (Bytes.len v))) with 4; lia).
      rewrite slice_middle. reflexivity.
    + assert (v = []) as -> by (destruct v; [reflexivity|unfold Bytes.len in *; simpl in *; lia]).
      reflexivity.
  - change (WAL.OpTypeDelete =? WAL.OpTypePut) with false. cbv iota.
    rewrite <- (app_nil_r (Bytes.PutUint32 0)), Uint32_PutUint32 by lia. reflexivity.
Qed.

Lemma len_payload e :
  loggable e -> Bytes.len (WAL.payload e) = WAL.entrySize (WAL.Key e) (WAL.Value e).
Proof.
  intros (Hop & _ & _). destruct e as [ts op k v].
  cbn [WAL.Timestamp WAL.OpType WAL.Key WAL.Value] in *.
  unfold WAL.payload, WAL.entrySize. cbn [WAL.Timestamp WAL.OpType WAL.Key WAL.Value].
  destruct Hop as [->|[-> ->]].
  - change (WAL.OpTypePut =? WAL.OpTypePut) with true. cbv iota. rewrite !len_app.
    change (Bytes.len (Bytes.PutUint64 ts)) with 8.
    change (Bytes.len (Bytes.PutUint32 (Bytes.len k))) with 4.
    change (Bytes.len (Bytes.PutUint32 (Bytes.len v))) with 4.
    change (Bytes.len [Z.land WAL.OpTypePut 255]) with 1. lia.
  - change (WAL.OpTypeDelete =? WAL.OpTypePut) with false. cbv iota. rewrite !len_app.
    change (Bytes.len (Bytes.PutUint64 ts)) with 8.
    change (Bytes.len (Bytes.PutUint32 (Bytes.len k))) with 4.
    change (Bytes.len (Bytes.PutUint32 0)) with 4.
    change (Bytes.len [Z.land WAL.OpTypeDelete 255]) with 1.
    change (Bytes.len []) with 0. lia.
Qed.

Lemma wellFormed_payload from e : loggable e -> wellFormed from (WAL.payload e).
Proof.
  intros He. split.
  - rewrite len_payload by assumption. now destruct He as (_ & _ & ?).
  - rewrite decode_payload by assumption. discriminate.
Qed.

Lemma applied_payloads from es :
  Forall loggable es ->
  applied from (map WAL.payload es)
  = List.filter (fun e => negb (WAL.Timestamp e <=? from)) es.
Proof.
  induction 1 as [|e es He _ IH]; [reflexivity|].
  cbn [map applied flat_map List.filter]. fold (applied from (map WAL.payload es)).
  rewrite decode_payload, IH by assumption.
  now destruct (WAL.Timestamp e <=? from).
Qed.

(** X2: a WAL file that holds, for each of a list of PUT and DELETE
    entries, the payload [append] lays out, framed with its length and the
    CRC-32C of the payload, replays without error: the callback receives
    exactly the entries after the cutoff, unchanged and in file order. *)
Theorem X2_replay_reads_back_payloads
    (es : list WAL.WALEntry) (from : Z) (acc : list WAL.WALEntry) :
  Forall loggable es ->
  WAL.replayFileFrom WAL.recording (frames (map WAL.payload es)) from acc
  = (acc ++ List.filter (fun e => negb (WAL.Timestamp e <=? from)) es, WAL.ReplayOk).
Proof.
  intros Hes. rewrite replayFileFrom_clean.
  - now rewrite applied_payloads.
  - induction Hes as [|e es He _ IH]; cbn [map]; constructor;
      [now apply wellFormed_payload|exact IH].
Qed.

Lemma X2_replay_reads_back_payloads_witness :
  WAL.replayFileFrom WAL.recording
    (frames (map WAL.payload
       [Sample.e_a; WAL.mkEntry 400 WAL.OpTypeDelete Sample.k_a []])) 300 []
  = ([] ++ List.filter (fun e => negb (WAL.Timestamp e <=? 300))
             [Sample.e_a; WAL.mkEntry 400 WAL.OpTypeDelete Sample.k_a []],
     WAL.ReplayOk).
Proof.
  apply (X2_replay_reads_back_payloads
           [Sample.e_a; WAL.mkEntry 400 WAL.OpTypeDelete Sample.k_a []] 300 []).
  constructor; [|constructor; [|constructor]].
  - split; [left; reflexivity|]. vm_compute. repeat split; congruence.
  - split; [right; split; reflexivity|]. vm_compute. repeat split; congruence.
Defined.

(** ** Write-ahead log: the order of the files *)

Lemma sortPass_spec rest : forall x,
  Permutation (fst (WAL.sortPass x rest) :: snd (WAL.sortPass x rest)) (x :: rest)
  /\ Forall (olderFirst (fst (WAL.sortPass x rest))) (snd (WAL.sortPass x rest))
  /\ olderFirst (fst (WAL.sortPass x rest)) x.
Proof.
  unfold olderFirst.
  induction rest as [|y rest IH]; intros x; cbn [WAL.sortPass].
  - cbn [fst snd]. repeat split; [reflexivity|constructor|lia].
  - destruct (Z.gtb_spec (WAL.timestamp x) (WAL.timestamp y)) as [Hgt|Hle].
    + destruct (IH y) as (Hp & Hall & Hm).
      destruct (WAL.sortPass y rest) as [m r]. cbn [fst snd] in *.
      repeat split.
      * transitivity (x :: m :: r); [apply perm_swap|now constructor].
      * constructor; [lia|exact Hall].
      * lia.
    + destruct (IH x) as (Hp & Hall & Hm).
      destruct (WAL.sortPass x rest) as [m r]. cbn [fst snd] in *.
      repeat split.
      * transitivity (y :: m :: r); [apply perm_swap|].
        transitivity (y :: x :: rest); [now constructor|apply perm_swap].
      * constructor; [lia|exact Hall].
      * lia.
Qed.

Lemma sortFiles_spec n : forall files,
  (length files <= n)%nat ->
  StronglySorted olderFirst (WAL.sortFiles n files)
  /\ Permutation (WAL.sortFiles n files) files.
Proof.
  induction n as [|n IH]; intros files Hlen.
  - destruct files; [|simpl in Hlen; lia]. split; [constructor|reflexivity].
  - destruct files as [|x rest]; [split; [constructor|reflexivity]|].
    cbn [WAL.sortFiles].
    destruct (sortPass_spec rest x) as (Hp & Hall & _).
    destruct (WAL.sortPass x rest) as [m r]. cbn [fst snd] in *.
    assert (length r = length rest) as Hr
        by (apply Permutation_length in Hp; simpl in Hp; lia).
    destruct (IH r) as [Hs Hpr]; [simpl in Hlen; lia|].
    split.
    + constructor; [exact Hs|]. now rewrite Hpr.
    + rewrite Hpr. exact Hp.
Qed.

(** X3: [ReplayFrom] replays the files it keeps (those whose name is not
    below the cutoff) each once and oldest name first, in whatever order
    the directory lists them. *)
Theorem X3_replay_takes_files_oldest_first
    {St : Type} (cb : WAL.WALEntry -> St -> St * bool) (w : WAL.WAL) (from : Z) (s : St) :
  exists files,
    WAL.ReplayFrom cb w from s = WAL.replayFiles cb files from s
    /\ StronglySorted olderFirst files
    /\ Permutation files
         (List.filter (fun f => negb (WAL.timestamp f <? from)) (WAL.walDir w)).
Proof.
  eexists. split; [reflexivity|]. apply sortFiles_spec. lia.
Qed.

(** ** Write-ahead log: which file is open *)

Lemma latest_spec files : forall t acc,
  (WAL.latest files t acc = acc /\ forall g, In g files -> WAL.timestamp g <= t)
  \/ (exists f, WAL.latest files t acc = Some f /\ In f files /\ t < WAL.timestamp f
                /\ forall g, In g files -> WAL.timestamp g <= WAL.timestamp f).
Proof.
  induction files as [|f fs IH]; intros t acc; cbn [WAL.latest].
  - left. split; [reflexivity|]. intros g [].
  - destruct (Z.gtb_spec (WAL.timestamp f) t) as [Hgt|Hle].
    + right. destruct (IH (WAL.timestamp f) (Some f)) as [[Hr Hall]|(f' & Hr & Hin & Hlt & Hall)].
      * exists f. repeat split; [exact Hr|now left|lia|].
        intros g [<-|Hg]; [lia|now apply Hall].
      * exists f'. repeat split; [exact Hr|now right|lia|].
        intros g [<-|Hg]; [lia|now apply Hall].
    + destruct (IH t acc) as [[Hr Hall]|(f' & Hr & Hin & Hlt & Hall)].
      * left. split; [exact Hr|]. intros g [<-|Hg]; [lia|now apply Hall].
      * right. exists f'. repeat split; [exact Hr|now right|lia|].
        intros g [<-|Hg]; [lia|now apply Hall].
Qed.

Lemma timestamps_writeTo ts bs files :
  map WAL.timestamp (WAL.writeTo ts bs files) = map WAL.timestamp files.
Proof.
  unfold WAL.writeTo. induction files as [|f fs IH]; [reflexivity|].
  cbn [map]. rewrite IH. f_equal.
  destruct (Z.eqb_spec (WAL.timestamp f) ts) as [->|]; reflexivity.
Qed.

(** X4: once the directory holds a file with a positive name, [rotate]
    creates no file: it reopens the file with the largest name and takes
    its length as the new size. So [append] never adds a file to such a
    directory, however large the open file has grown. *)
Theorem X4_rotation_reopens_newest_file (w : WAL.WAL) (now op : Z) (k v : list Z) :
  (exists g, In g (WAL.walDir w) /\ 0 < WAL.timestamp g) ->
  WAL.walDir (WAL.rotate now w) = WAL.walDir w
  /\ (exists f, In f (WAL.walDir w)
                /\ WAL.file (WAL.rotate now w) = WAL.timestamp f
                /\ WAL.size (WAL.rotate now w) = Bytes.len (WAL.data f)
                /\ forall g, In g (WAL.walDir w) -> WAL.timestamp g <= WAL.timestamp f)
  /\ map WAL.timestamp (WAL.walDir (WAL.append now op k v w))
     = map WAL.timestamp (WAL.walDir w).
Proof.
  intros (g & Hg & Hpos).
  assert (Hrot : WAL.walDir (WAL.rotate now w) = WAL.walDir w
                 /\ exists f, In f (WAL.walDir w)
                     /\ WAL.file (WAL.rotate now w) = WAL.timestamp f
                     /\ WAL.size (WAL.rotate now w) = Bytes.len (WAL.data f)
                     /\ forall g, In g (WAL.walDir w) -> WAL.timestamp g <= WAL.timestamp f).
  { unfold WAL.rotate, WAL.openCurrentFile.
    destruct (latest_spec (WAL.walDir w) 0 None) as [[_ Hall]|(f & -> & Hin & _ & Hall)].
    - specialize (Hall g Hg). lia.
    - cbn [WAL.walDir WAL.file WAL.size]. split; [reflexivity|]. now exists f. }
  destruct Hrot as [Hdir Hf]. repeat split; [exact Hdir|exact Hf|].
  unfold WAL.append. cbn [WAL.walDir]. rewrite timestamps_writeTo.
  destruct (WAL.size w >=? WAL.maxSize w); [now rewrite Hdir|reflexivity].
Qed.

Lemma X4_rotation_reopens_newest_file_witness :
  WAL.walDir (WAL.rotate 500 Sample.wal_put_a) = WAL.walDir Sample.wal_put_a
  /\ (exists f, In f (WAL.walDir Sample.wal_put_a)
                /\ WAL.file (WAL.rotate 500 Sample.wal_put_a) = WAL.timestamp f
                /\ WAL.size (WAL.rotate 500 Sample.wal_put_a) = Bytes.len (WAL.data f)
                /\ forall g, In g (WAL.walDir Sample.wal_put_a) ->
                             WAL.timestamp g <= WAL.timestamp f)
  /\ map WAL.timestamp
         (WAL.walDir (WAL.append 500 WAL.OpTypePut Sample.k_a Sample.v_1 Sample.wal_put_a))
     = map WAL.timestamp (WAL.walDir Sample.wal_put_a).
Proof.
  apply (X4_rotation_reopens_newest_file Sample.wal_put_a 500 WAL.OpTypePut
           Sample.k_a Sample.v_1).
  eexists. split; [left; reflexivity|]. vm_compute. reflexivity.
Defined.

(** ** Write-ahead log: the size field *)

Lemma openCurrentFile_sizeOk now w :
  0 < now -> NoDup (map WAL.timestamp (WAL.walDir w)) ->
  sizeOk (WAL.openCurrentFile now w).
Proof.
  intros Hnow Hnd. unfold WAL.openCurrentFile, sizeOk.
  destruct (latest_spec (WAL.walDir w) 0 None) as [[-> Hall]|(f & -> & Hin & _ & _)];
    cbn [WAL.walDir WAL.file WAL.size].
  - assert (WAL.hasFile (WAL.walDir w) now = false) as ->.
    { apply not_true_is_false. intros H. apply existsb_exists in H as (g & Hg & Heq).
      apply Z.eqb_eq in Heq. specialize (Hall g Hg). lia. }
    split.
    + rewrite map_app. cbn [map WAL.timestamp]. apply NoDup_app. repeat split.
      * exact Hnd.
      * intros x Hx Hx'. apply list_elem_of_singleton in Hx'. subst x.
        apply list_elem_of_In, in_map_iff in Hx as (g & Heq & Hg).
        specialize (Hall g Hg). lia.
      * apply NoDup_singleton.
    + exists (WAL.mkFile now []). repeat split.
      apply in_or_app. right. now left.
  - split; [exact Hnd|]. now exists f.
Qed.

Lemma append_sizeOk now op k v w :
  0 < now -> sizeOk w -> sizeOk (WAL.append now op k v w).
Proof.
  intros Hnow Hw. unfold WAL.append.
  set (w1 := if WAL.size w >=? WAL.maxSize w then WAL.rotate now w else w).
  assert (Hw1 : sizeOk w1).
  { subst w1. destruct (WAL.size w >=? WAL.maxSize w); [|exact Hw].
    apply openCurrentFile_sizeOk; [exact Hnow|apply Hw]. }
  destruct Hw1 as (Hnd & f & Hin & Hts & Hsize).
  unfold sizeOk. cbn [WAL.walDir WAL.file WAL.size]. split.
  - now rewrite timestamps_writeTo.
  - exists (WAL.mkFile (WAL.file w1)
              (WAL.data f ++ WAL.record (WAL.mkEntry now op k v))).
    repeat split.
    + unfold WAL.writeTo. apply in_map_iff. exists f. split; [|exact Hin].
      now rewrite Hts, Z.eqb_refl.
    + cbn [WAL.data]. rewrite len_app. lia.
Qed.

(** X5: on a directory whose file names are distinct, after [NewWAL] and
    any sequence of appends (with the clock after the epoch) the size field
    of the WAL equals the length of the file that is open, and the file
    names stay distinct. *)
Theorem X5_size_field_is_length_of_open_file
    (files : list WAL.walFile) (now : Z) (calls : list appendCall) :
  NoDup (map WAL.timestamp files) ->
  0 < now ->
  Forall (fun c => 0 < at_time c) calls ->
  sizeOk (appendAll calls (WAL.NewWAL now files)).
Proof.
  intros Hnd Hnow Hcalls.
  assert (H0 : sizeOk (WAL.NewWAL now files))
    by (apply openCurrentFile_sizeOk; assumption).
  unfold appendAll. revert H0. generalize (WAL.NewWAL now files).
  induction Hcalls as [|c cs Hc _ IH]; intros w Hw; [exact Hw|].
  cbn [fold_left]. apply IH. now apply append_sizeOk.
Qed.

Lemma X5_size_field_is_length_of_open_file_witness :
  sizeOk (appendAll [mkCall 300 WAL.OpTypePut Sample.k_a Sample.v_1;
                     mkCall 400 WAL.OpTypeDelete Sample.k_a []]
                    (WAL.NewWAL 100 [])).
Proof.
  apply (X5_size_field_is_length_of_open_file [] 100
           [mkCall 300 WAL.OpTypePut Sample.k_a Sample.v_1;
            mkCall 400 WAL.OpTypeDelete Sample.k_a []]).
  - constructor.
  - lia.
  - repeat constructor.
Defined.

(** ** Replay with any callback *)

Lemma replayLoop_any_callback {St} (cb : WAL.WALEntry -> St -> St * bool) :
  (forall e s, snd (cb e s) = false) ->
  forall fuel rd from acc s,
  exists es r,
    WAL.replayLoop WAL.recording fuel rd from acc = (acc ++ es, r)
    /\ WAL.replayLoop cb fuel rd from s = (applyAll cb es s, r).
Proof.
  intros Hcb. induction fuel as [|fuel IH]; intros rd from acc s.
  - exists [], WAL.ReplayFuel. cbn. now rewrite app_nil_r.
  - cbn [WAL.replayLoop].
    destruct (WAL.ReadFull 8 rd) as [header rd1| |];
      try (eexists [], _; rewrite app_nil_r; split; reflexivity).
    destruct (WAL.ReadFull _ rd1) as [data rd2| |];
      try (eexists [], _; rewrite app_nil_r; split; reflexivity).
    destruct (negb _); [eexists [], _; rewrite app_nil_r; split; reflexivity|].
    destruct (Bytes.Uint64 data) as [u|];
      [|eexists [], _; rewrite app_nil_r; split; reflexivity].
    cbv zeta. destruct (_ <=? from); [apply IH|].
    destruct (WAL.parseAfterTimestamp _ data) as [entry|];
      [|eexists [], _; rewrite app_nil_r; split; reflexivity].
    unfold WAL.recording at 1. cbv iota beta.
    pose proof (Hcb entry s) as Hf. destruct (cb entry s) as [s' failed] eqn:Hcbs.
    simpl in Hf. subst failed.
    destruct (IH rd2 from (acc ++ [entry]) s') as (es & r & Hrec & Hrun).
    exists (entry :: es), r. split.
    + rewrite Hrec. now rewrite <- app_assoc.
    + rewrite Hrun. unfold applyAll. cbn [fold_left]. now rewrite Hcbs.
Qed.

Lemma replayFiles_any_callback {St} (cb : WAL.WALEntry -> St -> St * bool) :
  (forall e s, snd (cb e s) = false) ->
  forall files from acc s,
  exists es r,
    WAL.replayFiles WAL.recording files from acc = (acc ++ es, r)
    /\ WAL.replayFiles cb files from s = (applyAll cb es s, r).
Proof.
  intros Hcb. induction files as [|f files IH]; intros from acc s.
  - exists [], WAL.ReplayOk. cbn. now rewrite app_nil_r.
  - cbn [WAL.replayFiles]. unfold WAL.replayFileFrom.
    destruct (replayLoop_any_callback cb Hcb (S (length (WAL.data f))) (WAL.data f)
                from acc s) as (es & r & -> & ->).
    destruct r; try (exists es; eexists; split; reflexivity).
    destruct (IH from (acc ++ es) (applyAll cb es s)) as (es' & r' & -> & ->).
    exists (es ++ es'), r'. split; [now rewrite <- app_assoc|].
    unfold applyAll. now rewrite fold_left_app.
Qed.

(** Replay with a callback that never fails ends the way replay with the
    recording callback ends, and leaves the state reached by handing the
    recorded entries to the callback one by one. *)
Lemma ReplayFrom_any_callback {St} (cb : WAL.WALEntry -> St -> St * bool) w from s :
  (forall e s, snd (cb e s) = false) ->
  WAL.ReplayFrom cb w from s
  = (applyAll cb (fst (WAL.ReplayFrom WAL.recording w from [])) s,
     snd (WAL.ReplayFrom WAL.recording w from [])).
Proof.
  intros Hcb. unfold WAL.ReplayFrom.
  destruct (replayFiles_any_callback cb Hcb
              (WAL.sortFiles
                 (length (List.filter (fun f => negb (WAL.timestamp f <? from)) (WAL.walDir w)))
                 (List.filter (fun f => negb (WAL.timestamp f <? from)) (WAL.walDir w)))
              from [] s) as (es & r & -> & ->).
  reflexivity.
Qed.

(** ** Recovery *)

Lemma putBytes_cons x es :
  putBytes (x :: es)
  = (if WAL.OpType x =? WAL.OpTypePut
     then Bytes.len (WAL.Key x) + Bytes.len (WAL.Value x) else 0) + putBytes es.
Proof.
  assert (Hput : forall es a,
    fold_left (fun acc e =>
                 if WAL.OpType e =? WAL.OpTypePut
                 then acc + (Bytes.len (WAL.Key e) + Bytes.len (WAL.Value e))
                 else acc) es a = a + putBytes es).
  { unfold putBytes. induction es0 as [|y ys IHy]; intros a; cbn [fold_left]; [lia|].
    rewrite IHy, (IHy (if _ =? _ then 0 + _ else 0)).
    destruct (WAL.OpType y =? WAL.OpTypePut); lia. }
  unfold putBytes at 1. cbn [fold_left]. rewrite Hput.
  destruct (WAL.OpType x =? WAL.OpTypePut); lia.
Qed.

Lemma last_cons_default {A} (x d : A) l : List.last (x :: l) d = List.last l x.
Proof.
  revert x d. induction l as [|y l IH]; intros x d; [reflexivity|].
  change (List.last (x :: y :: l) d) with (List.last (y :: l) d).
  now rewrite (IH y d), (IH y x).
Qed.

Lemma applyEntry_fields x e :
  Engine.memTable (fst (Engine.applyEntry x e)) = applyToMap (Engine.memTable e) x
  /\ Engine.memTableSize (fst (Engine.applyEntry x e))
     = Engine.memTableSize e
       + (if WAL.OpType x =? WAL.OpTypePut
          then Bytes.len (WAL.Key x) + Bytes.len (WAL.Value x) else 0)
  /\ Engine.lastCheckpointedWALTimestamp (fst (Engine.applyEntry x e)) = WAL.Timestamp x
  /\ Engine.wal (fst (Engine.applyEntry x e)) = Engine.wal e
  /\ Engine.disk (fst (Engine.applyEntry x e)) = Engine.disk e
  /\ Engine.lsm (fst (Engine.applyEntry x e)) = Engine.lsm e
  /\ Engine.mu (fst (Engine.applyEntry x e)) = Engine.mu e
  /\ Engine.closed (fst (Engine.applyEntry x e)) = Engine.closed e.
Proof.
  unfold Engine.applyEntry, applyToMap. destruct e. cbn.
  destruct (WAL.OpType x =? WAL.OpTypePut); cbn;
    [|destruct (WAL.OpType x =? WAL.OpTypeDelete); cbn];
    repeat split; lia.
Qed.

Lemma applyAll_applyEntry es : forall e,
  Engine.memTable (applyAll Engine.applyEntry es e)
    = fold_left applyToMap es (Engine.memTable e)
  /\ Engine.memTableSize (applyAll Engine.applyEntry es e)
    = Engine.memTableSize e + putBytes es
  /\ Engine.lastCheckpointedWALTimestamp (applyAll Engine.applyEntry es e)
    = List.last (map WAL.Timestamp es) (Engine.lastCheckpointedWALTimestamp e)
  /\ Engine.wal (applyAll Engine.applyEntry es e) = Engine.wal e
  /\ Engine.disk (applyAll Engine.applyEntry es e) = Engine.disk e
  /\ Engine.lsm (applyAll Engine.applyEntry es e) = Engine.lsm e
  /\ Engine.mu (applyAll Engine.applyEntry es e) = Engine.mu e
  /\ Engine.closed (applyAll Engine.applyEntry es e) = Engine.closed e.
Proof.
  induction es as [|x es IH]; intros e.
  - cbn. repeat split; lia.
  - unfold applyAll in *. cbn [fold_left map].
    destruct (IH (fst (Engine.applyEntry x e))) as (Hm & Hs & Ht & Hw & Hd & Hl & Hmu & Hc).
    destruct (applyEntry_fields x e) as (Fm & Fs & Ft & Fw & Fd & Fl & Fmu & Fc).
    rewrite Hm, Hs, Ht, Hw, Hd, Hl, Hmu, Hc, Fm, Fs, Ft, Fw, Fd, Fl, Fmu, Fc.
    rewrite putBytes_cons, last_cons_default.
    repeat split; lia.
Qed.

(** X6: [recover] starts from the memtable, size and timestamp of the
    checkpoint (empty, 0 and 0 without a usable checkpoint) and applies
    the entries replay yields after that timestamp, in order: PUT stores,
    DELETE removes. The size counter grows by the key and value bytes of
    every replayed PUT and is never reduced; the checkpointed timestamp
    becomes that of the last entry applied. When replay ends with an
    error [recover] returns it, and when the replay loop panics [recover]
    panics and returns nothing; in both cases the entries before that
    point have been applied. The data directory, the index and the WAL
    files are not touched. *)
Theorem X6_recover_applies_replayed_entries (e : Engine.Engine) :
  let '(m0, size0, ts0, _) := Engine.Load (Engine.checkpoint e) in
  let entries := fst (WAL.ReplayFrom WAL.recording (Engine.wal e) ts0 []) in
  let ending := snd (WAL.ReplayFrom WAL.recording (Engine.wal e) ts0 []) in
  run Engine.recover e = (if isPanic ending then None else Some (recoverError ending))
  /\ panics (Engine.recover e) = isPanic ending
  /\ Engine.memTable (after (Engine.recover e)) = fold_left applyToMap entries m0
  /\ Engine.memTableSize (after (Engine.recover e)) = size0 + putBytes entries
  /\ Engine.lastCheckpointedWALTimestamp (after (Engine.recover e))
     = List.last (map WAL.Timestamp entries) ts0
  /\ Engine.wal (after (Engine.recover e)) = Engine.wal e
  /\ Engine.disk (after (Engine.recover e)) = Engine.disk e
  /\ Engine.lsm (after (Engine.recover e)) = Engine.lsm e.
Proof.
  unfold Engine.recover, run.
  destruct (Engine.Load (Engine.checkpoint e)) as [[[m0 size0] ts0] c].
  cbv zeta.
  set (e1 := Engine.set_lastCheckpointedWALTimestamp ts0
               (Engine.set_memTableSize size0
                  (Engine.set_memTable m0 (Engine.set_checkpoint c e)))).
  assert (Hwal : Engine.wal e1 = Engine.wal e) by (destruct e; reflexivity).
  rewrite (ReplayFrom_any_callback Engine.applyEntry (Engine.wal e1) ts0 e1)
    by reflexivity.
  rewrite Hwal.
  destruct (applyAll_applyEntry
              (fst (WAL.ReplayFrom WAL.recording (Engine.wal e) ts0 [])) e1)
    as (Hm & Hs & Ht & Hw & Hd & Hl & _ & _).
  assert (He1 : Engine.memTable e1 = m0 /\ Engine.memTableSize e1 = size0
                /\ Engine.lastCheckpointedWALTimestamp e1 = ts0
                /\ Engine.disk e1 = Engine.disk e /\ Engine.lsm e1 = Engine.lsm e)
    by (destruct e; repeat split).
  destruct He1 as (E1 & E2 & E3 & E4 & E5).
  rewrite E1 in Hm. rewrite E2 in Hs. rewrite E3 in Ht. rewrite Hwal in Hw.
  rewrite E4 in Hd. rewrite E5 in Hl.
  destruct (snd (WAL.ReplayFrom WAL.recording (Engine.wal e) ts0 []));
    cbn [after recoverError isPanic panics]; repeat split; assumption.
Qed.

(** ** Engine: single calls *)

Ltac engine_step :=
  unfold Engine.Put, Engine.Get, Engine.Delete, Engine.createCheckpoint,
    Engine.Lock, Engine.Unlock, Engine.RLock, Engine.RUnlock,
    Engine.gets, Engine.modify, mbind, mret, Engine.M_bind, Engine.M_ret;
  cbn.

Lemma Put_after (e : Engine.Engine) (now : Z) (k v : list Z) :
  Engine.mu e = Engine.Unlocked ->
  Engine.closed e = false ->
  exists ch,
    Engine.Put now k v e
    = Engine.Returned None
        (Engine.set_flushChan ch
           (Engine.set_memTableSize
              (Engine.memTableSize e + (Bytes.len k + Bytes.len v)
               - Engine.oldSizeOf (Engine.memTable e) k)
              (Engine.set_memTable (<[k := v]> (Engine.memTable e))
                 (Engine.set_wal (WAL.AppendPut now k v (Engine.wal e)) e)))).
Proof.
  intros Hmu Hopen. destruct e; cbn in *; subst. engine_step.
  match goal with |- context [if ?c then _ else _] => destruct c end;
    cbn; eexists; reflexivity.
Qed.

(** X7: on an open engine, [Get] of a key right after [Put] of that key
    returns the value just written and no error, whatever the index
    holds. *)
Theorem X7_get_after_put (e : Engine.Engine) (now : Z) (k v : list Z) :
  Engine.mu e = Engine.Unlocked ->
  Engine.closed e = false ->
  run (Engine.Put now k v;; Engine.Get k) e = Some (v, None).
Proof.
  intros Hmu Hopen. destruct (Put_after e now k v Hmu Hopen) as (ch & HPut).
  unfold run, mbind, Engine.M_bind. rewrite HPut.
  destruct e; cbn in *; subst. engine_step.
  now rewrite lookup_insert_eq.
Qed.

Lemma X7_get_after_put_witness :
  run (Engine.Put 300 Scenario.k Scenario.v;; Engine.Get Scenario.k) Scenario.fresh
  = Some (Scenario.v, None).
Proof. apply (X7_get_after_put Scenario.fresh 300 Scenario.k Scenario.v); reflexivity. Defined.

(** X8: [Delete] only takes the key out of the memtable: on an open engine,
    [Get] of a key right after [Delete] of that key returns what the index
    holds for it -- a value flushed earlier comes back, with no error --
    and the error "key not found" only when the index has none. *)
Theorem X8_get_after_delete_answers_from_index (e : Engine.Engine) (now : Z) (k : list Z) :
  Engine.mu e = Engine.Unlocked ->
  Engine.closed e = false ->
  run (Engine.Delete now k;; Engine.Get k) e
  = Some (fromIndex (LSM.Read (Engine.disk e) (Engine.lsm e) k))
  /\ (forall v, LSM.Read (Engine.disk e) (Engine.lsm e) k = Some v ->
        run (Engine.Delete now k;; Engine.Get k) e = Some (v, None))
  /\ (LSM.Read (Engine.disk e) (Engine.lsm e) k = None ->
        run (Engine.Delete now k;; Engine.Get k) e
        = Some ([], Some Engine.ErrKeyNotFound)).
Proof.
  intros Hmu Hopen.
  assert (Hrun : run (Engine.Delete now k;; Engine.Get k) e
                 = Some (fromIndex (LSM.Read (Engine.disk e) (Engine.lsm e) k))).
  { unfold run, fromIndex.
    unfold Engine.Get, Engine.Delete, Engine.Lock, Engine.Unlock, Engine.RLock,
      Engine.RUnlock, Engine.gets, Engine.modify, mbind, mret, Engine.M_bind, Engine.M_ret.
    generalize LSM.Read. intros R. destruct e; cbn in *; subst. cbn.
    rewrite lookup_delete_eq. cbn. destruct (R disk lsm k); reflexivity. }
  split; [exact Hrun|]. split.
  - intros v Hv. now rewrite Hrun, Hv.
  - intros Hn. now rewrite Hrun, Hn.
Qed.

(** The engine has put ("k","v") and flushed it to a level-0 block; the
    delete then finds nothing in the memtable, and the value comes back
    from the index. *)
Lemma X8_get_after_delete_answers_from_index_witness :
  LSM.Read
    (Engine.disk (after (Engine.flush 300
                           (after (Engine.Put 200 Scenario.k Scenario.v Scenario.fresh)))))
    (Engine.lsm (after (Engine.flush 300
                          (after (Engine.Put 200 Scenario.k Scenario.v Scenario.fresh)))))
    Scenario.k = Some Scenario.v
  /\ run (Engine.Delete 400 Scenario.k;; Engine.Get Scenario.k)
         (after (Engine.flush 300
                   (after (Engine.Put 200 Scenario.k Scenario.v Scenario.fresh))))
     = Some (Scenario.v, None).
Proof.
  assert (Hread : LSM.Read
    (Engine.disk (after (Engine.flush 300
                           (after (Engine.Put 200 Scenario.k Scenario.v Scenario.fresh)))))
    (Engine.lsm (after (Engine.flush 300
                          (after (Engine.Put 200 Scenario.k Scenario.v Scenario.fresh)))))
    Scenario.k = Some Scenario.v) by (vm_compute; reflexivity).
  split; [exact Hread|].
  destruct (X8_get_after_delete_answers_from_index
              (after (Engine.flush 300
                        (after (Engine.Put 200 Scenario.k Scenario.v Scenario.fresh))))
              400 Scenario.k) as (_ & Hback & _).
  - reflexivity.
  - reflexivity.
  - exact (Hback Scenario.v Hread).
Defined.

(** X9: [Close] on an open engine leaves the engine's mutex write-locked
    for good, so every later call on the engine -- [Put], [Get], [Delete],
    a checkpoint, a flush, a second [Close] -- waits for the mutex and
    never returns. *)
Theorem X9_calls_after_close_never_return
    (e : Engine.Engine) (now later : Z) (k v : list Z) :
  Engine.mu e = Engine.Unlocked ->
  Engine.closed e = false ->
  returns (Engine.Put later k v (after (Engine.Close now e))) = false
  /\ returns (Engine.Get k (after (Engine.Close now e))) = false
  /\ returns (Engine.Delete later k (after (Engine.Close now e))) = false
  /\ returns (Engine.createCheckpoint later (after (Engine.Close now e))) = false
  /\ returns (Engine.flush later (after (Engine.Close now e))) = false
  /\ returns (Engine.Close later (after (Engine.Close now e))) = false.
Proof.
  intros Hmu Hopen. rewrite (Close_blocks e now Hmu Hopen). cbn [after].
  destruct e; cbn in *; subst. repeat split; reflexivity.
Qed.

Lemma X9_calls_after_close_never_return_witness :
  returns (Engine.Put 300 Scenario.k Scenario.v (after (Engine.Close 200 Scenario.fresh)))
    = false
  /\ returns (Engine.Get Scenario.k (after (Engine.Close 200 Scenario.fresh))) = false
  /\ returns (Engine.Delete 300 Scenario.k (after (Engine.Close 200 Scenario.fresh))) = false
  /\ returns (Engine.createCheckpoint 300 (after (Engine.Close 200 Scenario.fresh))) = false
  /\ returns (Engine.flush 300 (after (Engine.Close 200 Scenario.fresh))) = false
  /\ returns (Engine.Close 300 (after (Engine.Close 200 Scenario.fresh))) = false.
Proof.
  apply (X9_calls_after_close_never_return Scenario.fresh 200 300 Scenario.k Scenario.v);
    reflexivity.
Defined.

(** ** Engine: the size counter on insert-only workloads *)

Lemma memSum_insert (m : gmap (list Z) (list Z)) k v :
  m !! k = None -> memSum (<[k := v]> m) = memSum m + (Bytes.len k + Bytes.len v).
Proof.
  intros Hk. unfold memSum.
  rewrite map_fold_insert_L; [reflexivity| |exact Hk].
  intros. lia.
Qed.

Lemma afterPuts_exact calls : forall e,
  Engine.mu e = Engine.Unlocked ->
  Engine.closed e = false ->
  Engine.memTableSize e = memSum (Engine.memTable e) ->
  NoDup (map put_key calls) ->
  Forall (fun c => Engine.memTable e !! put_key c = None) calls ->
  Engine.memTableSize (afterPuts calls e) = memSum (Engine.memTable (afterPuts calls e))
  /\ Engine.memTable (afterPuts calls e)
     = fold_left (fun m c => <[put_key c := put_value c]> m) calls (Engine.memTable e).
Proof.
  induction calls as [|c cs IH]; intros e Hmu Hopen Hsize Hnd Hfresh.
  - split; [exact Hsize|reflexivity].
  - unfold afterPuts in *. cbn [fold_left].
    destruct (Put_after e (put_time c) (put_key c) (put_value c) Hmu Hopen) as (ch & HPut).
    rewrite HPut. cbn [after].
    inversion Hfresh as [|? ? Hc Hcs]; subst.
    cbn [map] in Hnd. apply NoDup_cons in Hnd as [Hnotin Hnd].
    set (e' := Engine.set_flushChan _ _).
    assert (He' : Engine.mu e' = Engine.Unlocked /\ Engine.closed e' = false
                  /\ Engine.memTable e' = <[put_key c := put_value c]> (Engine.memTable e)
                  /\ Engine.memTableSize e'
                     = Engine.memTableSize e + (Bytes.len (put_key c) + Bytes.len (put_value c))
                       - Engine.oldSizeOf (Engine.memTable e) (put_key c)).
    { subst e'. destruct e; cbn in *; subst. repeat split. }
    destruct He' as (Hmu' & Hopen' & Hmem' & Hsize').
    assert (Hexact : Engine.memTableSize e' = memSum (Engine.memTable e')).
    { rewrite Hsize', Hmem', memSum_insert by assumption.
      unfold Engine.oldSizeOf. rewrite Hc. lia. }
    assert (Hfresh' : Forall (fun c' => Engine.memTable e' !! put_key c' = None) cs).
    { rewrite Hmem'. apply List.Forall_forall. intros c' Hc'.
      rewrite List.Forall_forall in Hcs.
      rewrite lookup_insert_ne; [now apply Hcs|].
      intros Heq. apply Hnotin. rewrite Heq. apply list_elem_of_In, in_map, Hc'. }
    destruct (IH e' Hmu' Hopen' Hexact Hnd Hfresh') as [IH1 IH2].
    split; [exact IH1|]. rewrite IH2. now rewrite Hmem'.
Qed.

(** X10: on an open engine whose size counter equals the byte sum of its
    memtable, any sequence of [Put] calls with distinct keys that are not
    yet in the memtable keeps the counter equal to the byte sum
    (sum of len(key) + len(value) over the entries). *)
Theorem X10_counter_exact_for_new_keys (e : Engine.Engine) (calls : list putCall) :
  Engine.mu e = Engine.Unlocked ->
  Engine.closed e = false ->
  Engine.memTableSize e = memSum (Engine.memTable e) ->
  NoDup (map put_key calls) ->
  Forall (fun c => Engine.memTable e !! put_key c = None) calls ->
  Engine.memTableSize (afterPuts calls e) = memSum (Engine.memTable (afterPuts calls e)).
Proof. intros. now apply afterPuts_exact. Qed.

Lemma X10_counter_exact_for_new_keys_witness :
  Engine.memTableSize (afterPuts [mkPut 200 Scenario.k Scenario.v;
                                  mkPut 300 Sample.k_a Sample.v_1] Scenario.fresh)
  = memSum (Engine.memTable (afterPuts [mkPut 200 Scenario.k Scenario.v;
                                        mkPut 300 Sample.k_a Sample.v_1] Scenario.fresh)).
Proof.
  apply (X10_counter_exact_for_new_keys Scenario.fresh
           [mkPut 200 Scenario.k Scenario.v; mkPut 300 Sample.k_a Sample.v_1]).
  - reflexivity.
  - reflexivity.
  - reflexivity.
  - vm_compute. repeat constructor; rewrite ?elem_of_cons, ?elem_of_nil; intuition congruence.
  - repeat constructor.
Defined.

(** ** Engine: the timestamp a checkpoint carries *)

Lemma roundTrip_valid (fuel : nat) : forall s,
  (length s <= fuel)%nat -> validFrom fuel s = true -> JSON.roundTrip fuel s = s.
Proof.
  induction fuel as [|fuel IH]; intros s Hlen Hv.
  - destruct s; [reflexivity|cbn in Hlen; lia].
  - destruct s as [|b s']; [reflexivity|].
    cbn [validFrom JSON.roundTrip] in *.
    destruct (JSON.runeWidth (b :: s')) as [|w] eqn:Hw; [discriminate|].
    rewrite IH; [apply firstn_skipn| |exact Hv].
    rewrite length_skipn. cbn [length] in *. lia.
Qed.

Lemma key_valid (s : list Z) : validUTF8 s = true -> JSON.key s = s.
Proof. intros H. apply roundTrip_valid; [lia|exact H]. Qed.

Lemma fold_insert_lookup (l : list (list Z * list Z)) :
  forall (acc : gmap (list Z) (list Z)) k,
    NoDup (map fst l) ->
    fold_left (fun acc kv => <[fst kv := snd kv]> acc) l acc !! k
    = match List.find (fun kv => Bytes.eqb (fst kv) k) l with
      | Some kv => Some (snd kv)
      | None => acc !! k
      end.
Proof.
  induction l as [|[k0 v0] l IH]; intros acc k Hnd; [reflexivity|].
  cbn [fold_left List.find fst snd map] in *. apply NoDup_cons in Hnd as [Hk0 Hnd].
  rewrite IH by exact Hnd.
  destruct (Bytes.eqb k0 k) eqn:Heq.
  - apply eqb_true in Heq. subst k0.
    destruct (List.find _ l) as [kv|] eqn:Hf; [|apply lookup_insert_eq].
    apply find_some in Hf as [Hin Hkv]. apply eqb_true in Hkv.
    exfalso. apply Hk0. rewrite <- Hkv. apply list_elem_of_In. now apply in_map.
  - destruct (List.find _ l); [reflexivity|].
    apply lookup_insert_ne. intros ->. now rewrite (proj2 (eqb_true k k) eq_refl) in Heq.
Qed.

(** A memtable whose keys are all valid UTF-8 comes back from the JSON
    document as it was. *)
Lemma mapKeys_valid (m : gmap (list Z) (list Z)) :
  map_Forall (fun k _ => validUTF8 k = true) m -> JSON.mapKeys m = m.
Proof.
  intros Hvalid. unfold JSON.mapKeys.
  set (l := Sort.Slice (fun a b => Bytes.ltb (fst a) (fst b)) (map_to_list m)).
  assert (Hperm : Permutation l (map_to_list m)) by apply Slice_Permutation.
  clearbody l.
  assert (Hkeys : forall acc : gmap (list Z) (list Z),
            fold_left (fun acc kv => <[JSON.key (fst kv) := snd kv]> acc) l acc
            = fold_left (fun acc kv => <[fst kv := snd kv]> acc) l acc).
  { assert (Hl : List.Forall (fun kv => validUTF8 (fst kv) = true) l).
    { apply List.Forall_forall. intros [k v] Hin. cbn [fst].
      apply (Permutation_in _ Hperm) in Hin. apply list_elem_of_In in Hin.
      apply elem_of_map_to_list in Hin. exact (Hvalid k v Hin). }
    clear Hperm. induction Hl as [|kv l' Hkv _ IH]; intros acc; [reflexivity|].
    cbn [fold_left]. now rewrite (key_valid _ Hkv), IH. }
  rewrite Hkeys.
  assert (Hnd : NoDup (map fst l)).
  { rewrite (Permutation_map fst Hperm). apply NoDup_fst_map_to_list. }
  apply map_eq. intros k. rewrite (fold_insert_lookup l ∅ k Hnd).
  destruct (List.find _ l) as [[k' v']|] eqn:Hf.
  - apply find_some in Hf as [Hin Hk]. cbn [fst] in Hk. apply eqb_true in Hk. subst k'.
    apply (Permutation_in _ Hperm) in Hin. apply list_elem_of_In in Hin.
    apply elem_of_map_to_list in Hin. cbn [snd]. now rewrite Hin.
  - rewrite lookup_empty. destruct (m !! k) as [v|] eqn:Hm; [|reflexivity].
    exfalso. apply elem_of_map_to_list in Hm. apply list_elem_of_In in Hm.
    apply (Permutation_in _ (Permutation_sym Hperm)) in Hm.
    pose proof (find_none _ _ Hf _ Hm) as Hno. cbn [fst] in Hno.
    now rewrite (proj2 (eqb_true k k) eq_refl) in Hno.
Qed.

(** X11: [Put] does not advance the engine's last checkpointed WAL
    timestamp. A checkpoint taken right after a [Put] holds the memtable
    with the new entry, as the JSON document gives it back, but carries
    the timestamp the engine had before the call, so the checkpoint does
    not count the record of that [Put] as covered. The memtable in the
    document is the engine's own when all its keys are valid UTF-8; the
    encoder replaces every byte of a key that is not by U+FFFD. *)
Theorem X11_checkpoint_after_put_keeps_old_timestamp
    (e : Engine.Engine) (now later : Z) (k v : list Z) :
  Engine.mu e = Engine.Unlocked ->
  Engine.closed e = false ->
  Engine.stored (Engine.checkpoint
     (after ((Engine.Put now k v;; Engine.createCheckpoint later) e)))
  = Engine.Saved
      (Engine.mkData later (Engine.lastCheckpointedWALTimestamp e)
         (JSON.mapKeys (<[k := v]> (Engine.memTable e)))
         (Engine.memTableSize e + (Bytes.len k + Bytes.len v)
          - Engine.oldSizeOf (Engine.memTable e) k))
  /\ (map_Forall (fun key _ => validUTF8 key = true) (<[k := v]> (Engine.memTable e)) ->
      JSON.mapKeys (<[k := v]> (Engine.memTable e)) = <[k := v]> (Engine.memTable e)).
Proof.
  intros Hmu Hopen. split; [|apply mapKeys_valid].
  destruct (Put_after e now k v Hmu Hopen) as (ch & HPut).
  unfold mbind, Engine.M_bind. rewrite HPut.
  destruct e; cbn in *; subst. reflexivity.
Qed.

(** The key "k" is valid UTF-8 and is stored as it is; the key [0xFF] is
    not, and is stored as U+FFFD. *)
Lemma X11_checkpoint_after_put_keeps_old_timestamp_witness :
  Engine.stored (Engine.checkpoint
     (after ((Engine.Put 300 Scenario.k Scenario.v;; Engine.createCheckpoint 400)
               Scenario.fresh)))
  = Engine.Saved (Engine.mkData 400 0 (<[Scenario.k := Scenario.v]> ∅) 2)
  /\ Engine.stored (Engine.checkpoint
     (after ((Engine.Put 300 [255] Scenario.v;; Engine.createCheckpoint 400)
               Scenario.fresh)))
  = Engine.Saved (Engine.mkData 400 0 (<[JSON.replacement := Scenario.v]> ∅) 2).
Proof.
  destruct (X11_checkpoint_after_put_keeps_old_timestamp Scenario.fresh 300 400
              Scenario.k Scenario.v eq_refl eq_refl) as [Hdoc Hsame].
  destruct (X11_checkpoint_after_put_keeps_old_timestamp Scenario.fresh 300 400
              [255] Scenario.v eq_refl eq_refl) as [Hdoc' _].
  split.
  - rewrite Hdoc, Hsame; [reflexivity|].
    apply map_Forall_insert_2; [reflexivity|]. intros key val Hin.
    change (Engine.memTable Scenario.fresh) with (∅ : gmap (list Z) (list Z)) in Hin.
    now rewrite lookup_empty in Hin.
  - rewrite Hdoc'. reflexivity.
Defined.

(** ** Opening a store whose log cannot be replayed *)

Lemma recover_ends (e : Engine.Engine) :
  exists e2,
    Engine.mu e2 = Engine.mu e /\ Engine.closed e2 = Engine.closed e
    /\ (Engine.recover e = Engine.Panicked e2
        \/ exists r, Engine.recover e = Engine.Returned r e2).
Proof.
  unfold Engine.recover.
  destruct (Engine.Load (Engine.checkpoint e)) as [[[m0 size0] ts0] c].
  cbv zeta.
  set (e1 := Engine.set_lastCheckpointedWALTimestamp ts0
               (Engine.set_memTableSize size0
                  (Engine.set_memTable m0 (Engine.set_checkpoint c e)))).
  rewrite (ReplayFrom_any_callback Engine.applyEntry (Engine.wal e1) ts0 e1)
    by reflexivity.
  destruct (applyAll_applyEntry
              (fst (WAL.ReplayFrom WAL.recording (Engine.wal e1) ts0 [])) e1)
    as (_ & _ & _ & _ & _ & _ & Hmu & Hcl).
  assert (He1 : Engine.mu e1 = Engine.mu e /\ Engine.closed e1 = Engine.closed e)
    by (destruct e; split; reflexivity).
  destruct He1 as [E1 E2]. rewrite E1 in Hmu. rewrite E2 in Hcl.
  eexists. split; [exact Hmu|]. split; [exact Hcl|].
  destruct (snd (WAL.ReplayFrom WAL.recording (Engine.wal e1) ts0 []));
    (left; reflexivity) || (right; eexists; reflexivity).
Qed.

(** X24: [NewEngine] never reports a recovery error. When [recover]
    returns an error -- a record of the log does not pass the CRC check,
    say -- [NewEngine] calls [Close] before returning the error, [Close]
    waits for the mutex it already holds, and [NewEngine] does not
    return. *)
Theorem X24_open_never_returns_when_recovery_fails
    (now : Z) (d : Disk.disk) (walFiles : list WAL.walFile) (c : Engine.checkpointFile)
    (err : Engine.error) :
  run Engine.recover (Engine.create now d walFiles c) = Some (Some err) ->
  returns (Engine.NewEngine now d walFiles c) = false
  /\ Engine.mu (after (Engine.NewEngine now d walFiles c)) = Engine.WriteLocked.
Proof.
  intros Hrec. unfold Engine.NewEngine, mbind, Engine.M_bind.
  destruct (recover_ends (Engine.create now d walFiles c))
    as (e2 & Hmu & Hcl & [Hr|[r Hr]]);
    unfold run in Hrec; rewrite Hr in Hrec; [discriminate|].
  inversion Hrec; subst r. rewrite Hr.
  rewrite (Close_blocks e2 now Hmu Hcl). split; reflexivity.
Qed.

Lemma X24_open_never_returns_when_recovery_fails_witness :
  returns (Engine.NewEngine 400 [] (WAL.walDir Sample.wal_put_a) Engine.NoFile) = false
  /\ Engine.mu (after (Engine.NewEngine 400 [] (WAL.walDir Sample.wal_put_a) Engine.NoFile))
     = Engine.WriteLocked.
Proof.
  apply (X24_open_never_returns_when_recovery_fails 400 [] (WAL.walDir Sample.wal_put_a)
           Engine.NoFile (Engine.ErrRecover (WAL.ReplayErr WAL.ErrCRCMismatch))).
  vm_compute. reflexivity.
Defined.

(** ** SHA-256 yields 32 bytes *)

Lemma length_round st kw : length (SHA256.round st kw) = length st.
Proof.
  unfold SHA256.round.
  repeat (destruct st as [|? st]; try reflexivity).
Qed.

Lemma length_rounds kws : forall st, length (fold_left SHA256.round kws st) = length st.
Proof.
  induction kws as [|kw kws IH]; intros st; [reflexivity|].
  cbn [fold_left]. now rewrite IH, length_round.
Qed.

Lemma length_block st chunk : length (SHA256.block st chunk) = length st.
Proof.
  unfold SHA256.block. rewrite length_map, length_combine, length_rounds. lia.
Qed.

Lemma length_Sum256 d : length (SHA256.Sum256 d) = 32%nat.
Proof.
  unfold SHA256.Sum256.
  assert (Hst : forall cs st, length (fold_left SHA256.block cs st) = length st).
  { induction cs as [|c cs IH]; intros st; [reflexivity|].
    cbn [fold_left]. now rewrite IH, length_block. }
  assert (Hflat : forall st : list Z, length (flat_map (SHA256.putBE 4) st) = (4 * length st)%nat).
  { induction st as [|x st IH]; [reflexivity|].
    cbn [flat_map]. rewrite length_app, IH. unfold SHA256.putBE.
    rewrite length_rev, length_putLE. simpl. lia. }
  rewrite Hflat, Hst. vm_compute. reflexivity.
Qed.

(** ** Reading back what [Encode] writes *)

Lemma take_exact a rest : Block.take (Bytes.len a) (a ++ rest) = Some (a, rest).
Proof.
  unfold Block.take. rewrite len_app. pose proof (len_nonneg rest).
  replace (Bytes.len a <=? Bytes.len a + Bytes.len rest) with true
    by (symmetry; apply Z.leb_le; lia).
  unfold Bytes.len. rewrite Nat2Z.id.
  rewrite firstn_app, firstn_all, Nat.sub_diag, skipn_app, skipn_all, Nat.sub_diag.
  cbn [firstn skipn app]. now rewrite app_nil_r.
Qed.

Lemma readUint_putLE n v rest :
  Block.readUint (Z.of_nat n) (Bytes.putLE n v ++ rest)
  = Some (Z.land v (Z.ones (8 * Z.of_nat n)), rest).
Proof.
  unfold Block.readUint.
  replace (Z.of_nat n) with (Bytes.len (Bytes.putLE n v)) at 1
    by (unfold Bytes.len; now rewrite length_putLE).
  rewrite take_exact. cbn. now rewrite getLE_putLE.
Qed.

Lemma readUint32 v rest :
  0 <= v < 2 ^ 32 ->
  Block.readUint 4 (Bytes.PutUint32 v ++ rest) = Some (v, rest).
Proof.
  intros Hv. change 4 with (Z.of_nat 4). unfold Bytes.PutUint32.
  rewrite readUint_putLE. change (8 * Z.of_nat 4) with 32.
  rewrite Z.land_ones by lia. now rewrite Z.mod_small.
Qed.

Lemma uint32_small x : 0 <= x < 2 ^ 32 -> Block.uint32 x = x.
Proof.
  intros Hx. unfold Block.uint32. rewrite Z.land_ones by lia. now apply Z.mod_small.
Qed.

Lemma len_encodePair p :
  Bytes.len (Block.encodePair p) = 8 + Bytes.len (Block.key p) + Bytes.len (Block.value p).
Proof.
  unfold Block.encodePair. rewrite !len_app.
  change (Bytes.len (Bytes.PutUint32 (Block.uint32 (Bytes.len (Block.key p))))) with 4.
  change (Bytes.len (Bytes.PutUint32 (Block.uint32 (Bytes.len (Block.value p))))) with 4.
  lia.
Qed.

Lemma len_flat_encode ps p :
  In p ps ->
  8 + Bytes.len (Block.key p) + Bytes.len (Block.value p)
  <= Bytes.len (flat_map Block.encodePair ps).
Proof.
  induction ps as [|q ps IH]; intros Hin; [destruct Hin|].
  cbn [flat_map]. rewrite len_app, len_encodePair.
  pose proof (len_nonneg (flat_map Block.encodePair ps)).
  pose proof (len_nonneg (Block.key q)). pose proof (len_nonneg (Block.value q)).
  destruct Hin as [->|Hin]; [lia|]. specialize (IH Hin). lia.
Qed.

Lemma count_le_flat_encode ps :
  Z.of_nat (length ps) <= Bytes.len (flat_map Block.encodePair ps).
Proof.
  induction ps as [|q ps IH]; [unfold Bytes.len; simpl; lia|].
  cbn [flat_map length]. rewrite len_app, len_encodePair.
  pose proof (len_nonneg (Block.key q)). pose proof (len_nonneg (Block.value q)). lia.
Qed.

Lemma readPairs_encode ps : forall rest,
  Bytes.len (flat_map Block.encodePair ps) < 2 ^ 32 ->
  Block.readPairs (length ps) (flat_map Block.encodePair ps ++ rest) = Some ps.
Proof.
  induction ps as [|p ps IH]; intros rest Hlen; [reflexivity|].
  cbn [flat_map] in *. rewrite len_app, len_encodePair in Hlen.
  pose proof (len_nonneg (flat_map Block.encodePair ps)).
  pose proof (len_nonneg (Block.key p)). pose proof (len_nonneg (Block.value p)).
  cbn [length Block.readPairs]. unfold Block.encodePair at 1.
  rewrite !uint32_small by lia. rewrite <- !app_assoc.
  rewrite readUint32 by lia. cbn [mbind option_bind].
  rewrite take_exact. cbn [mbind option_bind].
  rewrite readUint32 by lia. cbn [mbind option_bind].
  rewrite take_exact. cbn [mbind option_bind].
  rewrite IH by lia. cbn [mbind option_bind]. now destruct p.
Qed.

Lemma take_all a : Block.take (Bytes.len a) a = Some (a, []).
Proof. rewrite <- (app_nil_r a) at 2. apply take_exact. Qed.

Lemma uint32_range x : 0 <= Block.uint32 x < 2 ^ 32.
Proof. unfold Block.uint32. rewrite Z.land_ones by lia. apply Z.mod_pos_bound. lia. Qed.

Lemma int64_of_land ts :
  - 2 ^ 63 <= ts < 2 ^ 63 -> Bytes.int64_of_uint64 (Z.land ts (Z.ones 64)) = ts.
Proof.
  intros Hts. rewrite Z.land_ones by lia. unfold Bytes.int64_of_uint64.
  destruct (Z.lt_ge_cases ts 0) as [Hneg|Hpos].
  - assert (ts mod 2 ^ 64 = ts + 2 ^ 64) as ->.
    { symmetry. apply (Z.mod_unique_pos _ _ (-1)); lia. }
    destruct (Z.ltb_spec (ts + 2 ^ 64) (2 ^ 63)); lia.
  - rewrite Z.mod_small by lia. destruct (Z.ltb_spec ts (2 ^ 63)); lia.
Qed.

Lemma Add_MinKey k v b :
  Block.MinKey (Block.stats (Block.Add k v b)) = k
  \/ Block.MinKey (Block.stats (Block.Add k v b)) = Block.MinKey (Block.stats b).
Proof. unfold Block.Add. cbn. destruct (_ || _); auto. Qed.

Lemma Add_MaxKey k v b :
  Block.MaxKey (Block.stats (Block.Add k v b)) = k
  \/ Block.MaxKey (Block.stats (Block.Add k v b)) = Block.MaxKey (Block.stats b).
Proof. unfold Block.Add. cbn. destruct (_ || _); auto. Qed.

Lemma fields_build ps : forall b,
  let b' := fold_left (fun b p => Block.Add (Block.key p) (Block.value p) b) ps b in
  Block.header b' = Block.header b
  /\ Block.Min (Block.stats b') = Block.Min (Block.stats b)
  /\ Block.Max (Block.stats b') = Block.Max (Block.stats b)
  /\ (Block.MinKey (Block.stats b') = Block.MinKey (Block.stats b)
      \/ exists p, In p ps /\ Block.key p = Block.MinKey (Block.stats b'))
  /\ (Block.MaxKey (Block.stats b') = Block.MaxKey (Block.stats b)
      \/ exists p, In p ps /\ Block.key p = Block.MaxKey (Block.stats b')).
Proof.
  induction ps as [|p ps IH]; intros b; cbn zeta.
  - repeat split; auto.
  - cbn [fold_left].
    destruct (IH (Block.Add (Block.key p) (Block.value p) b))
      as (Hh & Hmin & Hmax & Hmk & Hxk).
    cbn zeta in *. rewrite Hh, Hmin, Hmax. repeat split.
    + destruct Hmk as [Hmk|(q & Hq & Hk)].
      * destruct (Add_MinKey (Block.key p) (Block.value p) b) as [E|E]; rewrite E in Hmk;
          [right; exists p; split; [now left|now symmetry]|now left].
      * right. exists q. split; [now right|exact Hk].
    + destruct Hxk as [Hxk|(q & Hq & Hk)].
      * destruct (Add_MaxKey (Block.key p) (Block.value p) b) as [E|E]; rewrite E in Hxk;
          [right; exists p; split; [now left|now symmetry]|now left].
      * right. exists q. split; [now right|exact Hk].
Qed.

Lemma build_shape t ps :
  exists minK maxK,
    build t ps
    = Block.mkBlock (Block.mkHeader 0 0 0 0 0 t (repeat 0 32))
                    (Block.mkStats 0 0 minK maxK) [] ps
    /\ (minK = [] \/ exists p, In p ps /\ Block.key p = minK)
    /\ (maxK = [] \/ exists p, In p ps /\ Block.key p = maxK).
Proof.
  unfold build.
  destruct (fields_build ps (Block.NewBlock t)) as (Hh & Hmin & Hmax & Hmk & Hxk).
  pose proof (pairs_build ps (Block.NewBlock t)) as Hps.
  pose proof (Data_build ps (Block.NewBlock t)) as Hd.
  cbv zeta in *.
  destruct (fold_left _ ps (Block.NewBlock t)) as [h st d qs].
  cbn [Block.header Block.stats Block.Data Block.pairs Block.NewBlock Block.Min Block.Max
       Block.MinKey Block.MaxKey app] in *.
  destruct st as [mn mx minK maxK].
  cbn [Block.Min Block.Max Block.MinKey Block.MaxKey] in *. subst.
  exists minK, maxK. repeat split; assumption.
Qed.

Lemma key_len_bound ps k :
  (k = [] \/ exists p, In p ps /\ Block.key p = k) ->
  Bytes.len (payloadOf ps) < 2 ^ 32 ->
  0 <= Bytes.len k < 2 ^ 32.
Proof.
  intros Hk Hlen. pose proof (len_nonneg k). split; [lia|].
  destruct Hk as [->|(p & Hp & <-)]; [unfold Bytes.len; simpl; lia|].
  unfold payloadOf, Block.encodePairs in Hlen. rewrite len_app in Hlen.
  apply (Slice_In Block.less) in Hp.
  pose proof (len_flat_encode _ _ Hp).
  pose proof (len_nonneg (Block.value p)).
  change (Bytes.len (Bytes.PutUint32 _)) with 4 in Hlen. lia.
Qed.

Lemma decode_key (k rest : list Z) :
  (if Bytes.len k >? 0
   then Block.take (Bytes.len k) ((if Bytes.len k >? 0 then k else []) ++ rest)
   else Some ([], (if Bytes.len k >? 0 then k else []) ++ rest))
  = Some (k, rest).
Proof.
  destruct (Z.gtb_spec (Bytes.len k) 0) as [Hpos|Hzero].
  - apply take_exact.
  - assert (k = []) as -> by (destruct k; [reflexivity|unfold Bytes.len in *; simpl in *; lia]).
    reflexivity.
Qed.

Lemma readPairs_payload ps :
  Bytes.len (Block.encodePairs ps) < 2 ^ 32 ->
  ('(pairCount, buffer) ← Block.readUint 4 (Block.encodePairs ps);
   Block.readPairs (Z.to_nat pairCount) buffer) = Some ps.
Proof.
  unfold Block.encodePairs. rewrite len_app.
  change (Bytes.len (Bytes.PutUint32 _)) with 4. intros Hlen.
  pose proof (count_le_flat_encode ps).
  rewrite uint32_small by lia. rewrite readUint32 by lia. cbn [mbind option_bind].
  rewrite Nat2Z.id. rewrite <- (app_nil_r (flat_map Block.encodePair ps)).
  apply readPairs_encode. lia.
Qed.

Lemma Decode_Encode_build (t t' : Z) (ps : list Block.keyValuePair) :
  - 2 ^ 63 <= t < 2 ^ 63 ->
  Bytes.len (payloadOf ps) < 2 ^ 32 ->
  Block.Decode (Block.NewBlock t') (snd (Block.Encode (build t ps)))
  = Some (Block.Finalize (build t ps)).
Proof.
  intros Ht Hlen.
  destruct (build_shape t ps) as (minK & maxK & -> & HminK & HmaxK).
  pose proof (key_len_bound ps minK HminK Hlen) as Hmin.
  pose proof (key_len_bound ps maxK HmaxK Hlen) as Hmax.
  unfold Block.Encode. cbn [Block.Data]. change (Bytes.len [] =? 0) with true. cbv iota.
  unfold Block.Finalize.
  cbn [Block.header Block.stats Block.Data Block.pairs Block.DataType Block.CompressionType
       Block.Count Block.RawSizeBytes Block.StoredSizeBytes Block.CreatedAt Block.BlockID
       Block.Min Block.Max Block.MinKey Block.MaxKey snd].
  fold (payloadOf ps).
  set (sorted := Sort.Slice Block.less ps).
  set (id := SHA256.Sum256 (payloadOf ps)).
  pose proof (len_nonneg (payloadOf ps)).
  rewrite (uint32_small (Bytes.len (payloadOf ps))) by lia.
  unfold Block.Decode.
  change ([Z.land 0 255; Z.land 0 255] ++ ?R) with (Bytes.putLE 1 0 ++ Bytes.putLE 1 0 ++ R).
  change 1 with (Z.of_nat 1). rewrite readUint_putLE. cbn [mbind option_bind].
  rewrite readUint_putLE. cbn [mbind option_bind].
  rewrite readUint32 by apply uint32_range. cbn [mbind option_bind].
  rewrite readUint32 by lia. cbn [mbind option_bind].
  rewrite readUint32 by lia. cbn [mbind option_bind].
  change 8 with (Z.of_nat 8). unfold Bytes.PutUint64.
  rewrite readUint_putLE. cbn [mbind option_bind].
  replace 32 with (Bytes.len id) at 1
    by (unfold Bytes.len, id; now rewrite length_Sum256).
  rewrite take_exact. cbn [mbind option_bind].
  rewrite readUint_putLE. cbn [mbind option_bind].
  rewrite readUint_putLE. cbn [mbind option_bind].
  cbn [Block.NewBlock Block.stats Block.MinKey Block.MaxKey].
  rewrite (uint32_small (Bytes.len minK)), (uint32_small (Bytes.len maxK)) by lia.
  rewrite readUint32 by lia. cbn [mbind option_bind].
  rewrite decode_key. cbn [mbind option_bind].
  rewrite readUint32 by lia. cbn [mbind option_bind].
  rewrite decode_key. cbn [mbind option_bind].
  rewrite take_all. cbn [mbind option_bind].
  assert (Hflat : Bytes.len (flat_map Block.encodePair sorted) < 2 ^ 32
                  /\ Z.of_nat (length sorted) < 2 ^ 32).
  { pose proof (count_le_flat_encode sorted). unfold payloadOf, Block.encodePairs in Hlen.
    rewrite len_app in Hlen. change (Bytes.len (Bytes.PutUint32 _)) with 4 in Hlen.
    fold sorted in Hlen. lia. }
  destruct Hflat as [Hflat Hcount].
  assert (Hread : Block.readUint 4 (payloadOf ps)
                  = Some (Z.of_nat (length sorted), flat_map Block.encodePair sorted)).
  { unfold payloadOf, Block.encodePairs. fold sorted.
    rewrite uint32_small by lia. apply readUint32. lia. }
  rewrite Hread. cbn [mbind option_bind]. rewrite Nat2Z.id.
  rewrite <- (app_nil_r (flat_map Block.encodePair sorted)).
  rewrite readPairs_encode by assumption. cbn [mbind option_bind].
  rewrite int64_of_land by lia. rewrite !Z.land_0_l.
  reflexivity.
Qed.

(** X12: a block built by adding pairs and written by [Encode] is read
    back by [Decode] as the finalized block: the same header (count, sizes,
    creation time, block id), the same min and max key, the same payload
    and the pairs sorted by key. The payload must fit the 32-bit size
    field and the creation time an [int64]. *)
Theorem X12_decode_reads_back_encoded_block
    (t t' : Z) (ps : list Block.keyValuePair) :
  - 2 ^ 63 <= t < 2 ^ 63 ->
  Bytes.len (payloadOf ps) < 2 ^ 32 ->
  Block.Decode (Block.NewBlock t') (snd (Block.Encode (build t ps)))
  = Some (Block.Finalize (build t ps)).
Proof. apply Decode_Encode_build. Qed.

Lemma X12_decode_reads_back_encoded_block_witness :
  Block.Decode (Block.NewBlock 0) (snd (Block.Encode (build 1 Scenario.ab)))
  = Some (Block.Finalize (build 1 Scenario.ab)).
Proof.
  apply (X12_decode_reads_back_encoded_block 1 0 Scenario.ab).
  - lia.
  - vm_compute. reflexivity.
Defined.

(** ** Looking a key up in a block *)

Lemma find_present ps k v :
  NoDup (map Block.key ps) -> In (Block.mkPair k v) ps -> Block.find k ps = Some v.
Proof.
  induction ps as [|p ps IH]; intros Hnd Hin; [destruct Hin|].
  cbn [map] in Hnd. apply NoDup_cons in Hnd as [Hnotin Hnd].
  cbn [Block.find]. destruct Hin as [->|Hin].
  - cbn [Block.key Block.value]. now rewrite (proj2 (eqb_true k k) eq_refl).
  - destruct (Bytes.eqb (Block.key p) k) eqn:E; [|now apply IH].
    apply eqb_true in E. exfalso. apply Hnotin. rewrite E.
    apply list_elem_of_In. change k with (Block.key (Block.mkPair k v)). now apply in_map.
Qed.

Lemma find_absent ps k :
  ~ In k (map Block.key ps) -> Block.find k ps = None.
Proof.
  induction ps as [|p ps IH]; intros Hnotin; [reflexivity|].
  cbn [Block.find]. destruct (Bytes.eqb (Block.key p) k) eqn:E.
  - apply eqb_true in E. exfalso. apply Hnotin. now left.
  - apply IH. intros Hin. apply Hnotin. now right.
Qed.

Lemma Finalize_pairs t ps :
  Block.pairs (Block.Finalize (build t ps)) = Sort.Slice Block.less ps.
Proof.
  destruct (build_shape t ps) as (minK & maxK & -> & _). reflexivity.
Qed.

Lemma Get_finalized_present t ps k v :
  NoDup (map Block.key ps) -> In (Block.mkPair k v) ps ->
  Block.Get k (Block.Finalize (build t ps)) = Some v.
Proof.
  intros Hnd Hin. unfold Block.Get. rewrite Finalize_pairs.
  pose proof (Slice_Permutation Block.less ps) as Hperm.
  apply find_present.
  - now rewrite (Permutation_map Block.key Hperm).
  - now apply (Slice_In Block.less).
Qed.

(** X13: in a finalized block the pairs are the pairs that were added,
    ordered by key (no pair's key is less than the key before it), and the
    header counts them. When the keys added are distinct, [Get] returns
    for every key the value added with it; for a key that was not added it
    reports "key not found". *)
Theorem X13_finalized_block_is_sorted_and_answers_get
    (t : Z) (ps : list Block.keyValuePair) :
  NoDup (map Block.key ps) ->
  Permutation (Block.pairs (Block.Finalize (build t ps))) ps
  /\ Sorted (inOrder Block.less) (Block.pairs (Block.Finalize (build t ps)))
  /\ Block.Count (Block.header (Block.Finalize (build t ps)))
     = Block.uint32 (Z.of_nat (length ps))
  /\ (forall k v, In (Block.mkPair k v) ps ->
                  Block.Get k (Block.Finalize (build t ps)) = Some v)
  /\ (forall k, ~ In k (map Block.key ps) ->
                Block.Get k (Block.Finalize (build t ps)) = None).
Proof.
  intros Hnd.
  pose proof (Slice_Permutation Block.less ps) as Hperm.
  assert (Hless : forall a b, Block.less a b = true -> Block.less b a = false)
    by (intros a b; apply ltb_asym).
  repeat split.
  - now rewrite Finalize_pairs.
  - rewrite Finalize_pairs. now apply Slice_Sorted.
  - destruct (build_shape t ps) as (minK & maxK & -> & _).
    unfold Block.Finalize. cbn [Block.header Block.Count Block.pairs].
    now rewrite (Permutation_length Hperm).
  - intros k v Hin. now apply Get_finalized_present.
  - intros k Hnotin. unfold Block.Get. rewrite Finalize_pairs.
    apply find_absent. intros Hin. apply Hnotin.
    apply in_map_iff in Hin as (p & Hk & Hp). apply in_map_iff. exists p.
    split; [exact Hk|]. exact (proj1 (Slice_In Block.less ps p) Hp).
Qed.

Lemma X13_finalized_block_is_sorted_and_answers_get_witness :
  Permutation (Block.pairs (Block.Finalize (build 1 Scenario.ba))) Scenario.ba
  /\ Sorted (inOrder Block.less) (Block.pairs (Block.Finalize (build 1 Scenario.ba)))
  /\ Block.Count (Block.header (Block.Finalize (build 1 Scenario.ba)))
     = Block.uint32 (Z.of_nat (length Scenario.ba))
  /\ (forall k v, In (Block.mkPair k v) Scenario.ba ->
                  Block.Get k (Block.Finalize (build 1 Scenario.ba)) = Some v)
  /\ (forall k, ~ In k (map Block.key Scenario.ba) ->
                Block.Get k (Block.Finalize (build 1 Scenario.ba)) = None).
Proof.
  apply (X13_finalized_block_is_sorted_and_answers_get 1 Scenario.ba).
  vm_compute. repeat constructor; rewrite ?elem_of_cons, ?elem_of_nil; intuition congruence.
Defined.

(** ** The key range of a block *)

Lemma leb_refl a : Bytes.leb a a = true.
Proof. unfold Bytes.leb. now rewrite Compare_refl. Qed.

Lemma ltb_leb a b : Bytes.ltb a b = true -> Bytes.leb a b = true.
Proof. unfold Bytes.ltb, Bytes.leb. now destruct (Bytes.Compare a b). Qed.

Lemma ltb_leb_trans a b c :
  Bytes.ltb a b = true -> Bytes.leb b c = true -> Bytes.leb a c = true.
Proof.
  intros Hab Hbc. unfold Bytes.leb in Hbc.
  destruct (Bytes.Compare b c) eqn:E; try discriminate.
  - apply Compare_eq in E. subst. now apply ltb_leb.
  - apply ltb_leb. apply (ltb_trans a b c Hab). unfold Bytes.ltb. now rewrite E.
Qed.

Lemma leb_ltb_trans a b c :
  Bytes.leb a b = true -> Bytes.ltb b c = true -> Bytes.leb a c = true.
Proof.
  intros Hab Hbc. unfold Bytes.leb in Hab.
  destruct (Bytes.Compare a b) eqn:E; try discriminate.
  - apply Compare_eq in E. subst. now apply ltb_leb.
  - apply ltb_leb. refine (ltb_trans a b c _ Hbc). unfold Bytes.ltb. now rewrite E.
Qed.

Lemma not_ltb_leb a b : Bytes.ltb a b = false -> Bytes.leb b a = true.
Proof.
  unfold Bytes.ltb, Bytes.leb. rewrite (Compare_antisym a b).
  destruct (Bytes.Compare a b); simpl; congruence.
Qed.

Lemma len_zero_nil (a : list Z) : (Bytes.len a =? 0) = true <-> a = [].
Proof.
  split.
  - intros H. apply Z.eqb_eq in H. destruct a; [reflexivity|].
    unfold Bytes.len in H. simpl in H. lia.
  - intros ->. reflexivity.
Qed.

Lemma build_snoc t ps p :
  build t (ps ++ [p]) = Block.Add (Block.key p) (Block.value p) (build t ps).
Proof. unfold build. now rewrite fold_left_app. Qed.

Lemma build_range t ps :
  Forall (fun p => Block.key p <> []) ps ->
  (ps = [] /\ Block.MinKey (Block.stats (build t ps)) = []
   /\ Block.MaxKey (Block.stats (build t ps)) = [])
  \/ (Block.MinKey (Block.stats (build t ps)) <> []
      /\ Block.MaxKey (Block.stats (build t ps)) <> []
      /\ forall p, In p ps ->
           Bytes.leb (Block.MinKey (Block.stats (build t ps))) (Block.key p) = true
           /\ Bytes.leb (Block.key p) (Block.MaxKey (Block.stats (build t ps))) = true).
Proof.
  induction ps as [|q qs IH] using rev_ind; intros Hne.
  - left. repeat split.
  - right. apply Forall_app in Hne as [Hqs Hq].
    apply Forall_cons in Hq as [Hq _].
    rewrite build_snoc. set (b := build t qs) in *.
    unfold Block.Add. cbn [Block.stats Block.MinKey Block.MaxKey].
    destruct (IH Hqs) as [(-> & -> & ->)|(Hmin & Hmax & Hall)].
    + change (Bytes.len [] =? 0) with true. cbn [orb].
      repeat split; try assumption;
        destruct H as [<-|[]]; apply leb_refl.
    + assert ((Bytes.len (Block.MinKey (Block.stats b)) =? 0) = false) as ->
        by (apply not_true_is_false; intros H; apply len_zero_nil in H; contradiction).
      assert ((Bytes.len (Block.MaxKey (Block.stats b)) =? 0) = false) as ->
        by (apply not_true_is_false; intros H; apply len_zero_nil in H; contradiction).
      cbn [orb].
      destruct (Bytes.ltb (Block.key q) (Block.MinKey (Block.stats b))) eqn:Elo,
               (Bytes.ltb (Block.MaxKey (Block.stats b)) (Block.key q)) eqn:Ehi;
        (split; [assumption|split; [assumption|]]);
        intros p Hp; apply in_app_or in Hp as [Hp|[<-|[]]];
        try (destruct (Hall p Hp) as [Hlo Hhi]);
        split;
        eauto using leb_refl, ltb_leb, ltb_leb_trans, leb_ltb_trans, not_ltb_leb.
Qed.

Lemma keys_in_range (t : Z) (ps : list Block.keyValuePair) (p : Block.keyValuePair) :
  Forall (fun p => Block.key p <> []) ps ->
  In p ps ->
  LSM.keyInRange (Block.key p)
    (Block.MinKey (Block.stats (build t ps))) (Block.MaxKey (Block.stats (build t ps)))
  = true.
Proof.
  intros Hne Hp. unfold LSM.keyInRange.
  destruct (build_range t ps Hne) as [(-> & _)|(_ & _ & Hall)]; [destruct Hp|].
  destruct (Hall p Hp) as [-> ->]. reflexivity.
Qed.

(** X14: when none of the keys added to a block is empty, every key added
    lies within the block's min and max key (bounds included). *)
Theorem X14_added_keys_lie_in_key_range
    (t : Z) (ps : list Block.keyValuePair) (p : Block.keyValuePair) :
  Forall (fun p => Block.key p <> []) ps ->
  In p ps ->
  LSM.keyInRange (Block.key p)
    (Block.MinKey (Block.stats (build t ps))) (Block.MaxKey (Block.stats (build t ps)))
  = true.
Proof. apply keys_in_range. Qed.

Lemma X14_added_keys_lie_in_key_range_witness :
  LSM.keyInRange (Block.key (Block.mkPair Scenario.k Scenario.v))
    (Block.MinKey (Block.stats (build 1 Scenario.ab)))
    (Block.MaxKey (Block.stats (build 1 Scenario.ab)))
  = true.
Proof.
  apply (X14_added_keys_lie_in_key_range 1 Scenario.ab (Block.mkPair Scenario.k Scenario.v)).
  - repeat constructor; vm_compute; congruence.
  - right. left. reflexivity.
Defined.

(** ** Writing a block to level 0 and reading it back *)

Lemma level_triggerCompaction t i :
  LSM.level (LSM.triggerCompaction t) i = LSM.level t i.
Proof. unfold LSM.triggerCompaction. now destruct (LSM.compacting t). Qed.

Lemma Write_shape now b d tr :
  (0 < length (LSM.levels tr))%nat ->
  let p : Disk.path :=
    (0%nat, Fmt.Int now ++ Bytes.ofString "_"%string ++ Block.ID b ++ LSM.blk) in
  fst (LSM.Write now b d tr) = Disk.write p (snd (Block.Encode b)) now d
  /\ exists bi,
       LSM.level (snd (LSM.Write now b d tr)) 0 = LSM.level tr 0 ++ [bi]
       /\ LSM.path bi = p
       /\ LSM.size bi = Bytes.len (snd (Block.Encode b))
       /\ LSM.minKey bi = Block.MinKey (Block.stats (fst (Block.Encode b)))
       /\ LSM.maxKey bi = Block.MaxKey (Block.stats (fst (Block.Encode b)))
       /\ (forall i, i <> 0%nat ->
             LSM.level (snd (LSM.Write now b d tr)) i = LSM.level tr i).
Proof.
  intros Hlen p. unfold LSM.Write. fold p.
  destruct (Block.Encode b) as [b' bs]. cbn [fst snd].
  split; [reflexivity|].
  eexists. repeat split.
  - destruct (LSM.shouldCompact _ 0); rewrite ?level_triggerCompaction;
      rewrite level_setLevel; (destruct (decide _) as [_|Hn]; [reflexivity|]);
      exfalso; apply Hn; (split; [reflexivity|exact Hlen]).
  - reflexivity.
  - reflexivity.
  - reflexivity.
  - reflexivity.
  - intros i Hi.
    destruct (LSM.shouldCompact _ 0); rewrite ?level_triggerCompaction;
      rewrite level_setLevel; (destruct (decide _) as [[Heq _]|_]; [congruence|reflexivity]).
Qed.

Lemma Read_after_Write
    (now t : Z) (ps : list Block.keyValuePair) (d : Disk.disk) (tr : LSM.LSMTree)
    (k v : list Z) :
  (0 < length (LSM.levels tr))%nat ->
  - 2 ^ 63 <= t < 2 ^ 63 ->
  Bytes.len (payloadOf ps) < 2 ^ 32 ->
  NoDup (map Block.key ps) ->
  Forall (fun p => Block.key p <> []) ps ->
  In (Block.mkPair k v) ps ->
  LSM.Read (fst (LSM.Write now (build t ps) d tr))
           (snd (LSM.Write now (build t ps) d tr)) k = Some v.
Proof.
  intros Hlv Ht Hlen Hnd Hne Hin.
  destruct (Write_shape now (build t ps) d tr Hlv)
    as (Hd & bi & Hl0 & Hpath & _ & Hmin & Hmax & _).
  cbv zeta in *.
  assert (HF : fst (Block.Encode (build t ps)) = Block.Finalize (build t ps)).
  { unfold Block.Encode. destruct (build_shape t ps) as (minK & maxK & -> & _). reflexivity. }
  assert (Hstats : Block.stats (Block.Finalize (build t ps)) = Block.stats (build t ps))
    by reflexivity.
  rewrite HF, Hstats in Hmin, Hmax.
  unfold LSM.Read. cbn [seq LSM.readLevels]. unfold LSM.readLevel at 1.
  cbn [Nat.eqb]. rewrite Hl0, rev_app_distr. cbn [rev app LSM.scanNewestFirst].
  rewrite Hmin, Hmax.
  pose proof (keys_in_range t ps (Block.mkPair k v) Hne Hin) as Hrange.
  cbn [Block.key] in Hrange. rewrite Hrange.
  unfold LSM.readFromBlock. rewrite Hpath, Hd, read_write_same.
  cbn [mbind option_bind Disk.contents].
  rewrite (Decode_Encode_build t 0 ps Ht Hlen).
  cbn [mbind option_bind].
  now rewrite (Get_finalized_present t ps k v Hnd Hin).
Qed.

(** X15: after [Write] of a block of pairs with distinct, non-empty keys
    to a tree, [Read] of any of these keys returns the value written with
    it, whatever the tree held before: the newest level-0 block is
    searched first. (The payload must fit the 32-bit size field.) *)
Theorem X15_read_after_write_finds_value
    (now t : Z) (ps : list Block.keyValuePair) (d : Disk.disk) (tr : LSM.LSMTree)
    (k v : list Z) :
  (0 < length (LSM.levels tr))%nat ->
  - 2 ^ 63 <= t < 2 ^ 63 ->
  Bytes.len (payloadOf ps) < 2 ^ 32 ->
  NoDup (map Block.key ps) ->
  Forall (fun p => Block.key p <> []) ps ->
  In (Block.mkPair k v) ps ->
  LSM.Read (fst (LSM.Write now (build t ps) d tr))
           (snd (LSM.Write now (build t ps) d tr)) k = Some v.
Proof. apply Read_after_Write. Qed.

Lemma X15_read_after_write_finds_value_witness :
  LSM.Read (fst (LSM.Write 300 (build 0 Scenario.ab) [] (LSM.NewLSMTree [])))
           (snd (LSM.Write 300 (build 0 Scenario.ab) [] (LSM.NewLSMTree [])))
           Scenario.k = Some Scenario.v.
Proof.
  apply (X15_read_after_write_finds_value 300 0 Scenario.ab [] (LSM.NewLSMTree [])
           Scenario.k Scenario.v).
  - vm_compute. lia.
  - lia.
  - vm_compute. reflexivity.
  - vm_compute. repeat constructor; rewrite ?elem_of_cons, ?elem_of_nil; intuition congruence.
  - repeat constructor; vm_compute; congruence.
  - right. left. reflexivity.
Defined.

(** ** Flushing the memtable and reading from the index *)

Lemma build_pairsOf (t : Z) (m : gmap (list Z) (list Z)) :
  fold_left (fun b kv => Block.Add (kv.1) (kv.2) b) (map_to_list m) (Block.NewBlock t)
  = build t (pairsOf m).
Proof.
  unfold build, pairsOf. generalize (Block.NewBlock t).
  induction (map_to_list m) as [|kv l IH]; intros b; [reflexivity|].
  cbn [fold_left map]. now rewrite IH.
Qed.

Lemma pairsOf_keys (m : gmap (list Z) (list Z)) :
  map Block.key (pairsOf m) = (map_to_list m).*1.
Proof.
  unfold pairsOf. induction (map_to_list m) as [|kv l IH]; [reflexivity|].
  cbn. now rewrite IH.
Qed.

Lemma pairsOf_In (m : gmap (list Z) (list Z)) (k v : list Z) :
  In (Block.mkPair k v) (pairsOf m) <-> m !! k = Some v.
Proof.
  unfold pairsOf. rewrite in_map_iff. split.
  - intros ([k' v'] & Heq & Hin). cbn in Heq. inversion Heq; subst.
    apply list_elem_of_In in Hin. now apply elem_of_map_to_list in Hin.
  - intros Hm. exists (k, v). split; [reflexivity|].
    apply list_elem_of_In. now apply elem_of_map_to_list.
Qed.

Lemma flush_then_Get (e : Engine.Engine) (now : Z) (k v : list Z) :
  Engine.mu e = Engine.Unlocked ->
  Engine.closed e = false ->
  (0 < length (LSM.levels (Engine.lsm e)))%nat ->
  0 <= now < 2 ^ 63 ->
  Engine.memTable e !! [] = None ->
  Bytes.len (payloadOf (pairsOf (Engine.memTable e))) < 2 ^ 32 ->
  Engine.memTable e !! k = Some v ->
  run (Engine.flush now;; Engine.Get k) e = Some (v, None).
Proof.
  intros Hmu Hopen Hlv Hnow Hne Hlen Hk.
  assert (Ht : - 2 ^ 63 <= now / 1000000000 < 2 ^ 63).
  { split.
    - transitivity 0; [lia|]. apply Z.div_pos; lia.
    - apply Z.div_lt_upper_bound; lia. }
  assert (Hnd : NoDup (map Block.key (pairsOf (Engine.memTable e))))
    by (rewrite pairsOf_keys; apply NoDup_fst_map_to_list).
  assert (Hkeys : Forall (fun p => Block.key p <> []) (pairsOf (Engine.memTable e))).
  { apply List.Forall_forall. intros [k' v'] Hin Heq. cbn in Heq. subst k'.
    apply pairsOf_In in Hin. congruence. }
  pose proof (Read_after_Write now (now / 1000000000) (pairsOf (Engine.memTable e))
                (Engine.disk e) (Engine.lsm e) k v Hlv Ht Hlen Hnd Hkeys
                (proj2 (pairsOf_In _ k v) Hk)) as Hread.
  unfold run, Engine.flush, Engine.Get, Engine.Lock, Engine.Unlock, Engine.RLock,
    Engine.RUnlock, Engine.gets, Engine.modify, mbind, mret, Engine.M_bind, Engine.M_ret.
  rewrite Hmu. destruct e; cbn in *; subst. cbn.
  rewrite build_pairsOf.
  destruct (LSM.Write now (build (now / 1000000000) (pairsOf memTable)) disk lsm)
    as [d' t'] eqn:HW.
  cbn in *. rewrite lookup_empty. cbn. now rewrite Hread.
Qed.

(** X16: a key of the memtable is still answered after a flush. On an open
    engine whose memtable has no empty key, after [flush] the memtable is
    empty and [Get] of a key that was in it returns its value, now read
    from the level-0 block the flush wrote. (The encoded memtable must fit
    the 32-bit size field of a block.) *)
Theorem X16_get_after_flush (e : Engine.Engine) (now : Z) (k v : list Z) :
  Engine.mu e = Engine.Unlocked ->
  Engine.closed e = false ->
  (0 < length (LSM.levels (Engine.lsm e)))%nat ->
  0 <= now < 2 ^ 63 ->
  Engine.memTable e !! [] = None ->
  Bytes.len (payloadOf (pairsOf (Engine.memTable e))) < 2 ^ 32 ->
  Engine.memTable e !! k = Some v ->
  run (Engine.flush now;; Engine.Get k) e = Some (v, None)
  /\ Engine.memTable (after (Engine.flush now e)) = ∅
  /\ Engine.memTableSize (after (Engine.flush now e)) = 0.
Proof.
  intros Hmu Hopen Hlv Hnow Hne Hlen Hk. split; [now apply flush_then_Get|].
  clear Hopen Hlv Hnow Hne Hlen Hk.
  unfold Engine.flush, Engine.Lock, Engine.Unlock,
    Engine.gets, Engine.modify, mbind, mret, Engine.M_bind, Engine.M_ret.
  rewrite Hmu. generalize LSM.Write; intros W.
  destruct e; cbn.
  match goal with |- context [W ?a ?b ?c ?d] => destruct (W a b c d) end.
  split; reflexivity.
Qed.

Lemma X16_get_after_flush_witness :
  run (Engine.flush 300;; Engine.Get Scenario.k)
      (after (Engine.Put 200 Scenario.k Scenario.v Scenario.fresh))
  = Some (Scenario.v, None)
  /\ Engine.memTable
       (after (Engine.flush 300 (after (Engine.Put 200 Scenario.k Scenario.v Scenario.fresh))))
     = ∅
  /\ Engine.memTableSize
       (after (Engine.flush 300 (after (Engine.Put 200 Scenario.k Scenario.v Scenario.fresh))))
     = 0.
Proof.
  apply (X16_get_after_flush
           (after (Engine.Put 200 Scenario.k Scenario.v Scenario.fresh)) 300
           Scenario.k Scenario.v).
  - reflexivity.
  - reflexivity.
  - vm_compute. lia.
  - lia.
  - vm_compute. reflexivity.
  - vm_compute. reflexivity.
  - vm_compute. reflexivity.
Defined.

(** * The binary search of [findBlockIndex] *)

Lemma leb_cases a b : Bytes.leb a b = true -> a = b \/ Bytes.ltb a b = true.
Proof.
  unfold Bytes.leb, Bytes.ltb. destruct (Bytes.Compare a b) eqn:E; try discriminate; auto.
  left. now apply Compare_eq.
Qed.

Lemma leb_ltb_ltb a b c :
  Bytes.leb a b = true -> Bytes.ltb b c = true -> Bytes.ltb a c = true.
Proof.
  intros Hab Hbc. destruct (leb_cases a b Hab) as [->|Hlt]; [assumption|].
  now apply (ltb_trans a b c).
Qed.

Lemma ltb_leb_ltb a b c :
  Bytes.ltb a b = true -> Bytes.leb b c = true -> Bytes.ltb a c = true.
Proof.
  intros Hab Hbc. destruct (leb_cases b c Hbc) as [<-|Hlt]; [assumption|].
  now apply (ltb_trans a b c).
Qed.

Lemma leb_not_ltb a b : Bytes.leb a b = true -> Bytes.ltb b a = false.
Proof.
  unfold Bytes.ltb, Bytes.leb. rewrite (Compare_antisym a b).
  destruct (Bytes.Compare a b); simpl; congruence.
Qed.

Lemma orderedLevel_min_max bs i b :
  orderedLevel bs = true -> nth_error bs i = Some b ->
  Bytes.leb (LSM.minKey b) (LSM.maxKey b) = true.
Proof.
  revert i. induction bs as [|c bs IH]; intros [|i] Ho Hi; try discriminate.
  - cbn in Hi. inversion Hi; subst. cbn in Ho.
    apply andb_prop in Ho as [Ho _]. now apply andb_prop in Ho as [Ho _].
  - cbn in Hi, Ho. apply andb_prop in Ho as [_ Ho]. now apply (IH i).
Qed.

Lemma orderedLevel_lt bs i j bi bj :
  orderedLevel bs = true -> (i < j)%nat ->
  nth_error bs i = Some bi -> nth_error bs j = Some bj ->
  Bytes.ltb (LSM.maxKey bi) (LSM.minKey bj) = true.
Proof.
  revert i j. induction bs as [|c bs IH]; intros i j Ho Hij Hi Hj.
  - destruct i; discriminate.
  - cbn in Ho. apply andb_prop in Ho as [Ho Hrest]. apply andb_prop in Ho as [_ Hall].
    destruct j as [|j]; [lia|]. cbn in Hj. destruct i as [|i].
    + cbn in Hi. inversion Hi; subst.
      rewrite forallb_forall in Hall. apply Hall. now apply nth_error_In in Hj.
    + cbn in Hi. apply (IH i j); auto. lia.
Qed.

Section Search.

Variable bs : list LSM.blockInfo.
Variable k : list Z.

Lemma search_sound (fuel : nat) : forall left right idx,
  0 <= left ->
  LSM.search fuel bs k left right = idx ->
  idx = -1 \/
  (left <= idx <= right /\
   exists b, nth_error bs (Z.to_nat idx) = Some b /\ covers k b = true).
Proof.
  induction fuel as [|fuel IH]; intros left right idx Hl Hs; cbn in Hs.
  - left. congruence.
  - destruct (left <=? right) eqn:Hlr; [|left; congruence].
    apply Z.leb_le in Hlr.
    assert (Hmid : left <= (left + right) / 2 <= right).
    { split; [apply Z.div_le_lower_bound|apply Z.div_le_upper_bound]; lia. }
    destruct (nth_error bs (Z.to_nat ((left + right) / 2))) as [b|] eqn:Hb;
      [|left; congruence].
    destruct (Bytes.ltb k (LSM.minKey b)) eqn:Hlo.
    + destruct (IH _ _ _ Hl Hs) as [?|[Hr Hex]]; [now left|right].
      split; [lia|exact Hex].
    + destruct (Bytes.ltb (LSM.maxKey b) k) eqn:Hhi.
      * destruct (IH ((left + right) / 2 + 1) right idx ltac:(lia) Hs) as [?|[Hr Hex]];
          [now left|right].
        split; [lia|exact Hex].
      * right. subst idx. split; [lia|]. exists b. split; [exact Hb|].
        unfold covers, LSM.keyInRange.
        now rewrite (not_ltb_leb _ _ Hlo), (not_ltb_leb _ _ Hhi).
Qed.

Hypothesis Hordered : orderedLevel bs = true.

Lemma search_finds (i : nat) (b : LSM.blockInfo) :
  nth_error bs i = Some b -> covers k b = true ->
  forall (fuel : nat) left right,
    0 <= left -> right < Z.of_nat (length bs) ->
    left <= Z.of_nat i <= right ->
    right - left + 1 < Z.of_nat fuel ->
    LSM.search fuel bs k left right = Z.of_nat i.
Proof.
  intros Hi Hcov. unfold covers, LSM.keyInRange in Hcov.
  apply andb_prop in Hcov as [Hmin Hmax].
  induction fuel as [|fuel IH]; intros left right Hl Hr Hin Hfuel; [lia|].
  cbn [LSM.search].
  assert (Hlr : (left <=? right) = true) by (apply Z.leb_le; lia).
  rewrite Hlr.
  assert (Hmid : left <= (left + right) / 2 <= right).
  { split; [apply Z.div_le_lower_bound|apply Z.div_le_upper_bound]; lia. }
  set (mid := (left + right) / 2) in *.
  destruct (nth_error bs (Z.to_nat mid)) as [bm|] eqn:Hbm.
  2:{ apply nth_error_None in Hbm. lia. }
  assert (Hlt : forall i' j' bi bj, (i' < j')%nat ->
            nth_error bs i' = Some bi -> nth_error bs j' = Some bj ->
            Bytes.ltb (LSM.maxKey bi) (LSM.minKey bj) = true)
    by (intros; eapply orderedLevel_lt; eauto).
  assert (Hmm : Bytes.leb (LSM.minKey bm) (LSM.maxKey bm) = true)
    by (eapply orderedLevel_min_max; eauto).
  assert (Hbb : Bytes.leb (LSM.minKey b) (LSM.maxKey b) = true)
    by (eapply orderedLevel_min_max; eauto).
  (* the key is above every block before [b] and below every block after it *)
  assert (Hbelow : (Z.to_nat mid < i)%nat -> Bytes.ltb (LSM.maxKey bm) k = true).
  { intros Hlti. apply (ltb_leb_ltb _ (LSM.minKey b)); [|exact Hmin].
    now apply (Hlt (Z.to_nat mid) i). }
  assert (Habove : (i < Z.to_nat mid)%nat -> Bytes.ltb k (LSM.minKey bm) = true).
  { intros Hlti. apply (leb_ltb_ltb _ (LSM.maxKey b)); [exact Hmax|].
    now apply (Hlt i (Z.to_nat mid)). }
  destruct (Bytes.ltb k (LSM.minKey bm)) eqn:Hlo.
  - (* go left: [b] is before [mid] *)
    assert (Z.of_nat i < mid).
    { destruct (Z.lt_trichotomy (Z.of_nat i) mid) as [?|[Heq|Hgt]]; [assumption| |].
      - rewrite <- Heq, Nat2Z.id in Hbm. rewrite Hi in Hbm. inversion Hbm; subst bm.
        rewrite (leb_not_ltb _ _ Hmin) in Hlo. discriminate.
      - assert (Hc : Bytes.ltb (LSM.maxKey bm) k = true) by (apply Hbelow; lia).
        assert (Hc' : Bytes.ltb (LSM.minKey bm) k = true)
          by (now apply (leb_ltb_ltb _ (LSM.maxKey bm))).
        rewrite (ltb_asym _ _ Hc') in Hlo. discriminate. }
    apply IH; lia.
  - destruct (Bytes.ltb (LSM.maxKey bm) k) eqn:Hhi.
    + (* go right: [b] is after [mid] *)
      assert (mid < Z.of_nat i).
      { destruct (Z.lt_trichotomy (Z.of_nat i) mid) as [Hlti|[Heq|?]]; [| |assumption].
        - specialize (Habove ltac:(lia)). discriminate.
        - rewrite <- Heq, Nat2Z.id in Hbm. rewrite Hi in Hbm. inversion Hbm; subst bm.
          rewrite (leb_not_ltb _ _ Hmax) in Hhi. discriminate. }
      apply IH; lia.
    + destruct (Z.lt_trichotomy (Z.of_nat i) mid) as [Hlti|[Heq|Hgt]].
      * specialize (Habove ltac:(lia)). discriminate.
      * now symmetry.
      * specialize (Hbelow ltac:(lia)). discriminate.
Qed.

End Search.

(** X17: on a level whose blocks are ordered by key and do not overlap,
    the binary search of [findBlockIndex] returns the index of the block
    that covers the key, and [-1] exactly when no block of the level
    covers it. *)
Theorem X17_findBlockIndex_finds_covering_block
    (t : LSM.LSMTree) (lv : nat) (k : list Z) :
  orderedLevel (LSM.level t lv) = true ->
  (forall i b, nth_error (LSM.level t lv) i = Some b -> covers k b = true ->
     LSM.findBlockIndex t lv k = Z.of_nat i)
  /\ (LSM.findBlockIndex t lv k = -1 <->
      forall b, In b (LSM.level t lv) -> covers k b = false).
Proof.
  intros Ho. assert (Hfind : forall i b,
    nth_error (LSM.level t lv) i = Some b -> covers k b = true ->
    LSM.findBlockIndex t lv k = Z.of_nat i).
  { intros i b Hi Hcov. unfold LSM.findBlockIndex.
    assert (i < length (LSM.level t lv))%nat by (apply nth_error_Some; congruence).
    apply (search_finds _ k Ho i b Hi Hcov); lia. }
  split; [exact Hfind|]. split.
  - intros Hnone b Hin. destruct (covers k b) eqn:Hcov; [|reflexivity].
    apply In_nth_error in Hin as [i Hi]. rewrite (Hfind i b Hi Hcov) in Hnone. lia.
  - intros Hnone.
    unfold LSM.findBlockIndex.
    destruct (search_sound (LSM.level t lv) k (S (length (LSM.level t lv))) 0
                (Z.of_nat (length (LSM.level t lv)) - 1) _ (Z.le_refl 0) eq_refl)
      as [Hm|[_ (b & Hb & Hcov)]]; [exact Hm|].
    apply nth_error_In in Hb. rewrite (Hnone b Hb) in Hcov. discriminate.
Qed.

Lemma X17_findBlockIndex_finds_covering_block_witness :
  let t := LSM.setLevel 1
             [LSM.mkBlockInfo (1%nat, Scenario.k) 10 Sample.k_a Sample.k_a 0;
              LSM.mkBlockInfo (1%nat, Scenario.v) 10 Scenario.k Scenario.v 0]
             (LSM.NewLSMTree []) in
  (forall i b, nth_error (LSM.level t 1) i = Some b -> covers Scenario.k b = true ->
     LSM.findBlockIndex t 1 Scenario.k = Z.of_nat i)
  /\ (LSM.findBlockIndex t 1 Scenario.k = -1 <->
      forall b, In b (LSM.level t 1) -> covers Scenario.k b = false).
Proof.
  intros t. apply (X17_findBlockIndex_finds_covering_block t 1 Scenario.k).
  vm_compute. reflexivity.
Defined.

(** * The column encoders *)

Lemma ReadFull_app (a rest : list Z) :
  Encoding.ReadFull (length a) (a ++ rest) = Some (a, rest).
Proof.
  unfold Encoding.ReadFull. rewrite length_app.
  replace (length a <=? length a + length rest)%nat with true
    by (symmetry; apply Nat.leb_le; lia).
  now rewrite take_app_length, drop_app_length.
Qed.

Lemma length_binaryWrite (w : nat) (l : list Z) :
  length (Encoding.binaryWrite w l) = (length l * w)%nat.
Proof.
  unfold Encoding.binaryWrite. induction l as [|x l IH]; [reflexivity|].
  cbn [flat_map length]. rewrite length_app, length_putLE, IH. lia.
Qed.

Lemma uints_binaryWrite (w : nat) (l : list Z) :
  Encoding.uints w (length l) (Encoding.binaryWrite w l)
  = map (fun v => Z.land v (Z.ones (8 * Z.of_nat w))) l.
Proof.
  unfold Encoding.binaryWrite. induction l as [|x l IH]; [reflexivity|].
  cbn [flat_map length Encoding.uints map].
  pose proof (take_app_length (Bytes.putLE w x) (flat_map (Bytes.putLE w) l)) as Ht.
  pose proof (drop_app_length (Bytes.putLE w x) (flat_map (Bytes.putLE w) l)) as Hd.
  rewrite length_putLE in Ht, Hd. rewrite Ht, Hd, getLE_putLE.
  now rewrite IH.
Qed.

Lemma binaryRead_binaryWrite (w : nat) (l rest : list Z) :
  Encoding.binaryRead w (length l) (Encoding.binaryWrite w l ++ rest)
  = Some (map (fun v => Z.land v (Z.ones (8 * Z.of_nat w))) l, rest).
Proof.
  unfold Encoding.binaryRead. rewrite <- length_binaryWrite, ReadFull_app.
  cbn. now rewrite uints_binaryWrite.
Qed.

Lemma map_id_on {A} (f : A -> A) (p : A -> bool) (l : list A) :
  (forall x, p x = true -> f x = x) -> forallb p l = true -> map f l = l.
Proof.
  intros Hf. induction l as [|x l IH]; [reflexivity|].
  cbn. intros H. apply andb_prop in H as [Hx Hl]. now rewrite Hf, IH.
Qed.

Lemma int32_of_land (x : Z) :
  - 2 ^ 31 <= x < 2 ^ 31 -> Encoding.int32_of_uint32 (Z.land x (Z.ones 32)) = x.
Proof.
  intros Hx. rewrite Z.land_ones by lia. unfold Encoding.int32_of_uint32.
  destruct (Z.lt_ge_cases x 0) as [Hneg|Hpos].
  - assert (x mod 2 ^ 32 = x + 2 ^ 32) as ->.
    { symmetry. apply (Z.mod_unique_pos _ _ (-1)); lia. }
    replace (x + 2 ^ 32 <? 2 ^ 31) with false by (symmetry; apply Z.ltb_ge; lia). lia.
  - rewrite Z.mod_small by lia.
    now replace (x <? 2 ^ 31) with true by (symmetry; apply Z.ltb_lt; lia).
Qed.

Lemma Fixed_Decode_Encode (src : Encoding.values) (bs rest : list Z) :
  wellTyped src = true ->
  Encoding.Fixed.Encode src = Some bs ->
  Encoding.Fixed.Decode (bs ++ rest) (kindOf src) (count src) = Go.Done (src, rest).
Proof.
  intros Hty Henc.
  destruct src as [l|l|l|l|l|l]; cbn in Henc; inversion Henc; subst bs; clear Henc;
    cbn [kindOf count Encoding.Fixed.Decode]; unfold Encoding.Fixed.read, Bytes.len;
    try (replace (Z.of_nat (length l) <? 0) with false by (symmetry; apply Z.ltb_ge; lia));
    rewrite ?Nat2Z.id.
  - rewrite binaryRead_binaryWrite, map_map. do 2 f_equal. f_equal.
    apply (map_id_on _ (fun x => (- 2 ^ 31 <=? x) && (x <? 2 ^ 31))); [|exact Hty].
    intros x Hx. apply andb_prop in Hx as [H1 H2].
    apply Z.leb_le in H1. apply Z.ltb_lt in H2.
    change (8 * Z.of_nat 4) with 32. apply int32_of_land. lia.
  - rewrite binaryRead_binaryWrite, map_map. do 2 f_equal. f_equal.
    apply (map_id_on _ (fun x => (- 2 ^ 63 <=? x) && (x <? 2 ^ 63))); [|exact Hty].
    intros x Hx. apply andb_prop in Hx as [H1 H2].
    apply Z.leb_le in H1. apply Z.ltb_lt in H2.
    change (8 * Z.of_nat 8) with 64. apply int64_of_land. lia.
  - rewrite binaryRead_binaryWrite. do 2 f_equal. f_equal.
    apply (map_id_on _ (fun x => (0 <=? x) && (x <? 2 ^ 32))); [|exact Hty].
    intros x Hx. apply andb_prop in Hx as [H1 H2].
    apply Z.leb_le in H1. apply Z.ltb_lt in H2.
    change (8 * Z.of_nat 4) with 32. rewrite Z.land_ones by lia. apply Z.mod_small. lia.
  - rewrite binaryRead_binaryWrite. do 2 f_equal. f_equal.
    apply (map_id_on _ (fun x => (0 <=? x) && (x <? 2 ^ 64))); [|exact Hty].
    intros x Hx. apply andb_prop in Hx as [H1 H2].
    apply Z.leb_le in H1. apply Z.ltb_lt in H2.
    change (8 * Z.of_nat 8) with 64. rewrite Z.land_ones by lia. apply Z.mod_small. lia.
  - rewrite <- (length_map Encoding.byteOfBool l).
    rewrite binaryRead_binaryWrite, !map_map. do 2 f_equal. f_equal.
    clear Hty. induction l as [|b l IH]; [reflexivity|].
    cbn [map]. rewrite IH. f_equal. now destruct b.
Qed.

(** X18: the fixed-width encoder round-trips. For a slice of [int32],
    [int64], [float32], [float64] or [bool] values, [Decode] of the bytes
    [Encode] wrote, asked for the same element type and as many values,
    returns the slice and leaves the reader at the byte after it. *)
Theorem X18_fixed_decode_reads_back_encoded_values
    (src : Encoding.values) (bs rest : list Z) :
  wellTyped src = true ->
  Encoding.Fixed.Encode src = Some bs ->
  Encoding.Fixed.Decode (bs ++ rest) (kindOf src) (count src) = Go.Done (src, rest).
Proof. apply Fixed_Decode_Encode. Qed.

Lemma X18_fixed_decode_reads_back_encoded_values_witness :
  Encoding.Fixed.Decode
    (Encoding.binaryWrite 8 [-1; 0; 2 ^ 63 - 1; - 2 ^ 63] ++ [7])
    Encoding.KInt64 4
  = Go.Done (Encoding.Int64s [-1; 0; 2 ^ 63 - 1; - 2 ^ 63], [7]).
Proof.
  apply (X18_fixed_decode_reads_back_encoded_values
           (Encoding.Int64s [-1; 0; 2 ^ 63 - 1; - 2 ^ 63]) _ [7]).
  - vm_compute. reflexivity.
  - reflexivity.
Defined.

Lemma totalLen_cons (v : list Z) (l : list (list Z)) :
  totalLen (v :: l) = Bytes.len v + totalLen l.
Proof. unfold totalLen. cbn [concat]. apply len_app. Qed.

Lemma totalLen_nonneg (l : list (list Z)) : 0 <= totalLen l.
Proof. apply len_nonneg. Qed.

Lemma encoding_uint32_small (x : Z) : 0 <= x < 2 ^ 32 -> Encoding.uint32 x = x.
Proof.
  intros Hx. unfold Encoding.uint32. rewrite Z.land_ones by lia. now apply Z.mod_small.
Qed.

Lemma offsets_ends (l : list (list Z)) : forall start,
  0 <= start -> start + totalLen l < 2 ^ 32 ->
  Encoding.String.offsets start l = ends start l.
Proof.
  induction l as [|v l IH]; intros start H0 Hb; [reflexivity|].
  rewrite totalLen_cons in Hb.
  pose proof (len_nonneg v). pose proof (totalLen_nonneg l).
  cbn [Encoding.String.offsets ends].
  rewrite (encoding_uint32_small (Bytes.len v)) by lia.
  rewrite (encoding_uint32_small (start + Bytes.len v)) by lia.
  f_equal. apply IH; lia.
Qed.

Lemma ends_range (l : list (list Z)) : forall start,
  0 <= start -> start + totalLen l < 2 ^ 32 ->
  List.Forall (fun x => 0 <= x < 2 ^ 32) (ends start l).
Proof.
  induction l as [|v l IH]; intros start H0 Hb; [constructor|].
  rewrite totalLen_cons in Hb.
  pose proof (len_nonneg v). pose proof (totalLen_nonneg l).
  cbn [ends]. constructor; [lia|]. apply IH; lia.
Qed.

Lemma length_ends (l : list (list Z)) start : length (ends start l) = length l.
Proof. revert start. induction l as [|v l IH]; intros start; cbn; [reflexivity|]. now rewrite IH. Qed.

Lemma last_ends (l : list (list Z)) : forall start d,
  l <> [] -> List.last (ends start l) d = start + totalLen l.
Proof.
  induction l as [|v l IH]; intros start d Hne; [congruence|].
  rewrite totalLen_cons. destruct l as [|v' l].
  - change (totalLen []) with 0. cbn [ends List.last]. lia.
  - change (List.last (ends start (v :: v' :: l)) d)
      with (List.last (ends (start + Bytes.len v) (v' :: l)) d).
    rewrite IH by congruence. lia.
Qed.

Lemma cut_ends (l : list (list Z)) : forall pre,
  Encoding.String.cut (pre ++ concat l) (Bytes.len pre) (ends (Bytes.len pre) l) = Some l.
Proof.
  induction l as [|v l IH]; intros pre; [reflexivity|].
  cbn [ends Encoding.String.cut concat].
  rewrite slice_middle. cbn [mbind option_bind].
  rewrite <- len_app. rewrite (app_assoc pre v (concat l)), IH. reflexivity.
Qed.

Lemma land_id_on_range (l : list Z) :
  List.Forall (fun x => 0 <= x < 2 ^ 32) l ->
  map (fun v => Z.land v (Z.ones (8 * Z.of_nat 4))) l = l.
Proof.
  induction 1 as [|x l Hx Hl IH]; [reflexivity|].
  cbn [map]. rewrite IH. f_equal.
  change (8 * Z.of_nat 4) with 32. rewrite Z.land_ones by lia. now apply Z.mod_small.
Qed.

Lemma String_Decode_Encode (l : list (list Z)) (bs rest : list Z) :
  totalLen l < 2 ^ 32 ->
  Encoding.String.Encode (Encoding.Strings l) = Some bs ->
  Encoding.String.Decode (bs ++ rest) Encoding.KString (Z.of_nat (length l))
  = Go.Done (Encoding.Strings l, rest).
Proof.
  intros Hb Henc. cbn in Henc. inversion Henc; subst bs; clear Henc.
  cbn [Encoding.String.Decode].
  destruct l as [|v l]; [reflexivity|].
  replace (Z.of_nat (length (v :: l)) =? 0) with false
    by (symmetry; apply Z.eqb_neq; cbn [length]; lia).
  replace (Z.of_nat (length (v :: l)) <? 0) with false
    by (symmetry; apply Z.ltb_ge; lia).
  rewrite Nat2Z.id, (offsets_ends (v :: l) 0) by lia.
  rewrite <- (length_ends (v :: l) 0), <- app_assoc, binaryRead_binaryWrite.
  rewrite (land_id_on_range _ (ends_range (v :: l) 0 (Z.le_refl 0) Hb)).
  rewrite (last_ends (v :: l) 0 0) by congruence.
  unfold totalLen, Bytes.len. rewrite Z.add_0_l, Nat2Z.id, ReadFull_app.
  pose proof (cut_ends (v :: l) []) as Hcut. cbn [app] in Hcut.
  change (Bytes.len []) with 0 in Hcut. now rewrite Hcut.
Qed.

(** X19: the string encoder round-trips. When the strings hold fewer
    than 2^32 bytes together, [Decode] of the bytes [Encode] wrote, asked
    for as many values, returns the strings and leaves the reader at the
    byte after them. *)
Theorem X19_string_decode_reads_back_encoded_strings
    (l : list (list Z)) (bs rest : list Z) :
  totalLen l < 2 ^ 32 ->
  Encoding.String.Encode (Encoding.Strings l) = Some bs ->
  Encoding.String.Decode (bs ++ rest) Encoding.KString (Z.of_nat (length l))
  = Go.Done (Encoding.Strings l, rest).
Proof. apply String_Decode_Encode. Qed.

Lemma X19_string_decode_reads_back_encoded_strings_witness :
  Encoding.String.Decode
    ((Encoding.binaryWrite 4 (Encoding.String.offsets 0 [Scenario.k; []; Sample.k_a])
      ++ concat [Scenario.k; []; Sample.k_a]) ++ [9])
    Encoding.KString 3
  = Go.Done (Encoding.Strings [Scenario.k; []; Sample.k_a], [9]).
Proof.
  apply (X19_string_decode_reads_back_encoded_strings
           [Scenario.k; []; Sample.k_a] _ [9]).
  - vm_compute. reflexivity.
  - reflexivity.
Defined.

(** * Memory-mapped blocks *)

Lemma int64_small (x : Z) : - 2 ^ 63 <= x < 2 ^ 63 -> Go.int64 x = x.
Proof. intros Hx. unfold Go.int64. rewrite Z.mod_small by lia. lia. Qed.

Lemma index_at (pre : list Z) (x : Z) (rest : list Z) :
  Bytes.index (pre ++ x :: rest) (Bytes.len pre) = Some x.
Proof.
  unfold Bytes.index. rewrite len_app. pose proof (len_nonneg pre).
  pose proof (len_nonneg rest).
  replace (Bytes.len (x :: rest)) with (1 + Bytes.len rest)
    by (unfold Bytes.len; cbn [length]; lia).
  replace ((0 <=? Bytes.len pre) && (Bytes.len pre <? Bytes.len pre + (1 + Bytes.len rest)))
    with true by (symmetry; apply andb_true_intro; split;
                  [apply Z.leb_le|apply Z.ltb_lt]; lia).
  unfold Bytes.len. rewrite Nat2Z.id.
  rewrite nth_error_app2 by lia. now rewrite Nat.sub_diag.
Qed.

Lemma le32_bytes (pre : list Z) (b0 b1 b2 b3 : Z) (rest : list Z) :
  Bytes.len pre + 3 < 2 ^ 63 ->
  Mmap.le32 (pre ++ [b0; b1; b2; b3] ++ rest) (Bytes.len pre)
  = Some (Bytes.getLE [b0; b1; b2; b3]).
Proof.
  intros Hb. pose proof (len_nonneg pre). unfold Mmap.le32.
  rewrite !int64_small by lia.
  cbn [app]. rewrite index_at. cbn [mbind option_bind].
  replace (pre ++ b0 :: b1 :: b2 :: b3 :: rest) with ((pre ++ [b0]) ++ b1 :: b2 :: b3 :: rest)
    by (now rewrite <- app_assoc).
  replace (Bytes.len pre + 1) with (Bytes.len (pre ++ [b0])) by (now rewrite len_app).
  rewrite index_at. cbn [mbind option_bind].
  replace ((pre ++ [b0]) ++ b1 :: b2 :: b3 :: rest) with ((pre ++ [b0; b1]) ++ b2 :: b3 :: rest)
    by (now rewrite <- !app_assoc).
  replace (Bytes.len pre + 2) with (Bytes.len (pre ++ [b0; b1])) by (now rewrite len_app).
  rewrite index_at. cbn [mbind option_bind].
  replace ((pre ++ [b0; b1]) ++ b2 :: b3 :: rest) with ((pre ++ [b0; b1; b2]) ++ b3 :: rest)
    by (now rewrite <- !app_assoc).
  replace (Bytes.len pre + 3) with (Bytes.len (pre ++ [b0; b1; b2])) by (now rewrite len_app).
  rewrite index_at. cbn [mbind option_bind]. f_equal.
  cbn [Bytes.getLE]. rewrite Z.shiftl_0_l, Z.lor_0_r.
  rewrite !Z.shiftl_lor, !Z.shiftl_shiftl by lia. cbn [Z.add Pos.add Pos.succ].
  now rewrite !Z.lor_assoc.
Qed.

Lemma le32_PutUint32 (pre : list Z) (x : Z) (rest : list Z) :
  0 <= x < 2 ^ 32 -> Bytes.len pre + 3 < 2 ^ 63 ->
  Mmap.le32 (pre ++ Bytes.PutUint32 x ++ rest) (Bytes.len pre) = Some x.
Proof.
  intros Hx Hb. rewrite <- (getLE_PutUint32 x Hx) at 2.
  unfold Bytes.PutUint32. cbn [Bytes.putLE]. now apply le32_bytes.
Qed.

Lemma encodePair_fits (p : Block.keyValuePair) :
  fits32 p ->
  Block.encodePair p
  = Bytes.PutUint32 (Bytes.len (Block.key p)) ++ Block.key p
    ++ Bytes.PutUint32 (Bytes.len (Block.value p)) ++ Block.value p.
Proof.
  intros [Hk Hv]. unfold Block.encodePair.
  pose proof (len_nonneg (Block.key p)). pose proof (len_nonneg (Block.value p)).
  now rewrite !uint32_small by lia.
Qed.

Lemma gtb_false (a b : Z) : a <= b -> (a >? b) = false.
Proof. intros H. rewrite Z.gtb_ltb. apply Z.ltb_ge. lia. Qed.

Lemma scan_pairs (ps : list Block.keyValuePair) :
  forall (pre : list Z) (idx : gmap (list Z) Z) (fuel : nat),
    List.Forall fits32 ps ->
    Bytes.len (pre ++ flat_map Block.encodePair ps) < 2 ^ 62 ->
    (length ps < fuel)%nat ->
    Mmap.scan fuel (pre ++ flat_map Block.encodePair ps)
              (Bytes.len (pre ++ flat_map Block.encodePair ps)) (Bytes.len pre) idx
    = Some (Go.Done (indexFrom (Bytes.len pre) ps idx)).
Proof.
  induction ps as [|p ps IH]; intros pre idx fuel Hfit Hlen Hfuel.
  - destruct fuel as [|fuel]; [cbn in Hfuel; lia|].
    cbn [flat_map Mmap.scan indexFrom]. rewrite app_nil_r.
    now rewrite Z.ltb_irrefl.
  - destruct fuel as [|fuel]; [cbn in Hfuel; lia|].
    inversion Hfit as [|? ? Hp Hps]; subst.
    cbn [flat_map indexFrom] in *. rewrite (encodePair_fits p Hp) in *.
    destruct Hp as [Hk Hv].
    set (K := Block.key p) in *. set (V := Block.value p) in *.
    set (R := flat_map Block.encodePair ps) in *.
    pose proof (len_nonneg pre) as Npre. pose proof (len_nonneg K) as NK.
    pose proof (len_nonneg V) as NV. pose proof (len_nonneg R) as NR.
    remember (pre ++ (Bytes.PutUint32 (Bytes.len K) ++ K
                      ++ Bytes.PutUint32 (Bytes.len V) ++ V) ++ R) as d eqn:Hd.
    assert (Hsize : Bytes.len d
                    = Bytes.len pre + 8 + Bytes.len K + Bytes.len V + Bytes.len R).
    { subst d. rewrite !len_app.
      change (Bytes.len (Bytes.PutUint32 (Bytes.len K))) with 4.
      change (Bytes.len (Bytes.PutUint32 (Bytes.len V))) with 4. lia. }
    assert (H1 : Mmap.le32 d (Bytes.len pre) = Some (Bytes.len K)).
    { subst d. rewrite <- !app_assoc. apply le32_PutUint32; lia. }
    assert (H2 : Bytes.slice d (Bytes.len pre + 4) (Bytes.len pre + 4 + Bytes.len K)
                 = Some K).
    { subst d. rewrite <- !app_assoc.
      rewrite (app_assoc pre (Bytes.PutUint32 (Bytes.len K))).
      replace (Bytes.len pre + 4) with (Bytes.len (pre ++ Bytes.PutUint32 (Bytes.len K)))
        by (now rewrite len_app).
      apply slice_middle. }
    assert (H3 : Mmap.le32 d (Bytes.len pre + 4 + Bytes.len K) = Some (Bytes.len V)).
    { subst d. rewrite <- !app_assoc.
      rewrite (app_assoc (Bytes.PutUint32 (Bytes.len K)) K).
      rewrite (app_assoc pre (Bytes.PutUint32 (Bytes.len K) ++ K)).
      replace (Bytes.len pre + 4 + Bytes.len K)
        with (Bytes.len (pre ++ Bytes.PutUint32 (Bytes.len K) ++ K))
        by (rewrite !len_app; change (Bytes.len (Bytes.PutUint32 (Bytes.len K))) with 4; lia).
      apply le32_PutUint32; [lia|].
      rewrite !len_app. change (Bytes.len (Bytes.PutUint32 (Bytes.len K))) with 4. lia. }
    cbn [Mmap.scan].
    replace (Bytes.len pre <? Bytes.len d) with true by (symmetry; apply Z.ltb_lt; lia).
    rewrite (int64_small (Bytes.len pre + 4)) by lia.
    rewrite (gtb_false (Bytes.len pre + 4)) by lia.
    rewrite H1.
    rewrite (int64_small (Bytes.len pre + 4 + Bytes.len K)) by lia.
    rewrite (gtb_false (Bytes.len pre + 4 + Bytes.len K)) by lia.
    rewrite H2.
    rewrite (int64_small (Bytes.len pre + 4 + Bytes.len K + 4)) by lia.
    rewrite (gtb_false (Bytes.len pre + 4 + Bytes.len K + 4)) by lia.
    rewrite H3.
    rewrite (int64_small (Bytes.len pre + 4 + Bytes.len K + 4 + Bytes.len V)) by lia.
    specialize (IH (pre ++ Bytes.PutUint32 (Bytes.len K) ++ K
                    ++ Bytes.PutUint32 (Bytes.len V) ++ V)
                   (<[K := Bytes.len pre + 4 + Bytes.len K]> idx) fuel Hps).
    replace ((pre ++ Bytes.PutUint32 (Bytes.len K) ++ K
              ++ Bytes.PutUint32 (Bytes.len V) ++ V) ++ R) with d in IH
      by (subst d; now rewrite <- !app_assoc).
    replace (Bytes.len (pre ++ Bytes.PutUint32 (Bytes.len K) ++ K
                        ++ Bytes.PutUint32 (Bytes.len V) ++ V))
      with (Bytes.len pre + 4 + Bytes.len K + 4 + Bytes.len V) in IH
      by (rewrite !len_app;
          change (Bytes.len (Bytes.PutUint32 (Bytes.len K))) with 4;
          change (Bytes.len (Bytes.PutUint32 (Bytes.len V))) with 4; lia).
    rewrite IH; [|lia|cbn [length] in Hfuel; lia].
    do 2 f_equal. f_equal. lia.
Qed.

Lemma indexFrom_notin (ps : list Block.keyValuePair) :
  forall off idx k, ~ In k (map Block.key ps) -> indexFrom off ps idx !! k = idx !! k.
Proof.
  induction ps as [|p ps IH]; intros off idx k Hk; [reflexivity|].
  cbn [indexFrom]. rewrite IH by (intros Hin; apply Hk; now right).
  apply lookup_insert_ne. intros Heq. apply Hk. now left.
Qed.

Lemma indexFrom_found (before after : list Block.keyValuePair) (p : Block.keyValuePair) :
  forall off idx,
    ~ In (Block.key p) (map Block.key after) ->
    indexFrom off (before ++ p :: after) idx !! Block.key p
    = Some (off + Bytes.len (flat_map Block.encodePair before) + 4 + Bytes.len (Block.key p)).
Proof.
  induction before as [|q before IH]; intros off idx Hk.
  - cbn [app indexFrom flat_map]. rewrite indexFrom_notin by exact Hk.
    rewrite lookup_insert_eq. change (Bytes.len []) with 0. f_equal. lia.
  - cbn [app indexFrom flat_map]. rewrite IH by exact Hk.
    rewrite len_app, len_encodePair. f_equal. lia.
Qed.

Lemma len_flat_encode_pos (ps : list Block.keyValuePair) :
  ps <> [] -> 8 <= Bytes.len (flat_map Block.encodePair ps).
Proof.
  destruct ps as [|p ps]; [congruence|]. intros _. cbn [flat_map].
  rewrite len_app, len_encodePair.
  pose proof (len_nonneg (Block.key p)). pose proof (len_nonneg (Block.value p)).
  pose proof (len_nonneg (flat_map Block.encodePair ps)). lia.
Qed.

Lemma MmapBlock_Get_laid_out
    (hdr : list Z) (before after : list Block.keyValuePair) (k v : list Z) :
  Bytes.len hdr = 8 ->
  List.Forall fits32 (before ++ Block.mkPair k v :: after) ->
  ~ In k (map Block.key after) ->
  Bytes.len (hdr ++ flat_map Block.encodePair (before ++ Block.mkPair k v :: after)) < 2 ^ 62 ->
  exists b,
    Mmap.NewMmapBlock (hdr ++ flat_map Block.encodePair (before ++ Block.mkPair k v :: after))
    = Some (Go.Done b)
    /\ Mmap.Get b k
       = if (Bytes.len v =? 0) && (length after =? 0)%nat then Go.Failed else Go.Done v.
Proof.
  intros Hhdr Hfit Hk Hlen.
  set (ps := before ++ Block.mkPair k v :: after) in *.
  pose proof (scan_pairs ps hdr ∅ (S (length (hdr ++ flat_map Block.encodePair ps)))
                Hfit Hlen) as Hscan.
  assert (Hps : (length ps < S (length (hdr ++ flat_map Block.encodePair ps)))%nat).
  { rewrite length_app. pose proof (count_le_flat_encode ps) as Hc.
    unfold Bytes.len in Hc. lia. }
  specialize (Hscan Hps). rewrite Hhdr in Hscan.
  remember (hdr ++ flat_map Block.encodePair ps) as d eqn:Hd.
  unfold Mmap.NewMmapBlock, Mmap.loadHeader, Mmap.NewMmapFile, Mmap.Data, Mmap.Size.
  cbn [Mmap.file Mmap.data Mmap.size Mmap.index Mmap.minKey Mmap.maxKey].
  assert (Hd8 : 8 <= Bytes.len d).
  { subst d. rewrite len_app. pose proof (len_nonneg (flat_map Block.encodePair ps)). lia. }
  replace (Bytes.len d <? 8) with false by (symmetry; apply Z.ltb_ge; lia).
  rewrite Hscan. eexists. split; [reflexivity|].
  unfold Mmap.Get. cbn [Mmap.index Mmap.file].
  pose proof (indexFrom_found before after (Block.mkPair k v) 8 ∅ Hk) as Hidx.
  cbn [Block.key] in Hidx. fold ps in Hidx. rewrite Hidx.
  (* the layout around the value *)
  apply List.Forall_forall with (x := Block.mkPair k v) in Hfit;
    [|unfold ps; apply in_or_app; right; now left].
  pose proof (encodePair_fits _ Hfit) as Henc. destruct Hfit as [Hkl Hvl].
  cbn [Block.key Block.value] in Henc, Hkl, Hvl.
  set (B := flat_map Block.encodePair before) in *.
  set (A := flat_map Block.encodePair after) in *.
  assert (Hd' : d = (hdr ++ B ++ Bytes.PutUint32 (Bytes.len k) ++ k)
                    ++ Bytes.PutUint32 (Bytes.len v) ++ v ++ A).
  { subst d. unfold ps. rewrite flat_map_app. cbn [flat_map]. rewrite Henc.
    fold B. fold A. now rewrite <- !app_assoc. }
  pose proof (len_nonneg B) as NB. pose proof (len_nonneg k) as Nk.
  pose proof (len_nonneg v) as Nv. pose proof (len_nonneg A) as NA.
  set (off := 8 + Bytes.len B + 4 + Bytes.len k) in *.
  assert (Hoff : Bytes.len (hdr ++ B ++ Bytes.PutUint32 (Bytes.len k) ++ k) = off).
  { rewrite !len_app. change (Bytes.len (Bytes.PutUint32 (Bytes.len k))) with 4.
    unfold off. lia. }
  assert (Hsize : Bytes.len d = off + 4 + Bytes.len v + Bytes.len A).
  { rewrite Hd', len_app, Hoff, !len_app.
    change (Bytes.len (Bytes.PutUint32 (Bytes.len v))) with 4. lia. }
  assert (Hlen' : Bytes.len d < 2 ^ 62) by exact Hlen.
  assert (R1 : Mmap.Read (Mmap.mkMmapFile (Some d) (Bytes.len d)) off 4
               = Go.Done (Bytes.PutUint32 (Bytes.len v))).
  { unfold Mmap.Read. cbn [Mmap.data Mmap.size].
    replace ((off <? 0) || (off >=? Bytes.len d)) with false
      by (symmetry; apply orb_false_intro; [apply Z.ltb_ge|rewrite Z.geb_leb; apply Z.leb_gt];
          unfold off in *; lia).
    rewrite (int64_small (off + 4)) by (unfold off in *; lia).
    rewrite (gtb_false (off + 4)) by lia.
    rewrite (int64_small (off + 4)) by (unfold off in *; lia).
    pose proof (slice_middle (hdr ++ B ++ Bytes.PutUint32 (Bytes.len k) ++ k)
                  (Bytes.PutUint32 (Bytes.len v)) (v ++ A)) as Hs.
    rewrite Hoff, <- Hd' in Hs.
    change (Bytes.len (Bytes.PutUint32 (Bytes.len v))) with 4 in Hs.
    now rewrite Hs. }
  rewrite R1.
  pose proof (le32_PutUint32 [] (Bytes.len v) []) as Hle.
  cbn [app] in Hle. rewrite app_nil_r in Hle. change (Bytes.len []) with 0 in Hle.
  rewrite Hle by lia. clear Hle.
  rewrite (int64_small (off + 4)) by (unfold off in *; lia).
  unfold Mmap.Read. cbn [Mmap.data Mmap.size].
  destruct ((Bytes.len v =? 0) && (length after =? 0)%nat) eqn:Hlast.
  - apply andb_prop in Hlast as [Hv0 Ha0].
    apply Z.eqb_eq in Hv0. apply Nat.eqb_eq in Ha0.
    destruct after; [|discriminate]. change (Bytes.len A) with 0 in Hsize.
    replace ((off + 4 <? 0) || (off + 4 >=? Bytes.len d)) with true; [reflexivity|].
    symmetry. apply orb_true_intro. right. rewrite Z.geb_leb. apply Z.leb_le. lia.
  - assert (off + 4 < Bytes.len d).
    { apply andb_false_elim in Hlast as [Hv0|Ha0].
      - apply Z.eqb_neq in Hv0. lia.
      - apply Nat.eqb_neq in Ha0.
        assert (8 <= Bytes.len A) by (apply len_flat_encode_pos; now destruct after).
        lia. }
    replace ((off + 4 <? 0) || (off + 4 >=? Bytes.len d)) with false
      by (symmetry; apply orb_false_intro; [apply Z.ltb_ge|rewrite Z.geb_leb; apply Z.leb_gt];
          unfold off in *; lia).
    rewrite (int64_small (off + 4 + Bytes.len v)) by (unfold off in *; lia).
    rewrite (gtb_false (off + 4 + Bytes.len v)) by lia.
    rewrite (int64_small (off + 4 + Bytes.len v)) by (unfold off in *; lia).
    pose proof (slice_middle ((hdr ++ B ++ Bytes.PutUint32 (Bytes.len k) ++ k)
                              ++ Bytes.PutUint32 (Bytes.len v)) v A) as Hs.
    rewrite len_app, Hoff, <- app_assoc, <- Hd' in Hs.
    change (Bytes.len (Bytes.PutUint32 (Bytes.len v))) with 4 in Hs.
    now rewrite Hs.
Qed.

(** X20: a memory-mapped block reads back a file laid out as it expects:
    eight header bytes, then pairs as key length, key, value length,
    value. [NewMmapBlock] loads the file, and [Get] of a key returns the
    value of the last pair with that key -- except that a lookup of the
    very last pair of the file fails with an error when its value is
    empty, because the value then starts at the end of the file. *)
Theorem X20_mmap_block_reads_back_laid_out_pairs
    (hdr : list Z) (before after : list Block.keyValuePair) (k v : list Z) :
  Bytes.len hdr = 8 ->
  List.Forall fits32 (before ++ Block.mkPair k v :: after) ->
  ~ In k (map Block.key after) ->
  Bytes.len (hdr ++ flat_map Block.encodePair (before ++ Block.mkPair k v :: after)) < 2 ^ 62 ->
  exists b,
    Mmap.NewMmapBlock (hdr ++ flat_map Block.encodePair (before ++ Block.mkPair k v :: after))
    = Some (Go.Done b)
    /\ Mmap.Get b k
       = if (Bytes.len v =? 0) && (length after =? 0)%nat then Go.Failed else Go.Done v.
Proof. apply MmapBlock_Get_laid_out. Qed.

Lemma X20_mmap_block_reads_back_laid_out_pairs_witness :
  exists b,
    Mmap.NewMmapBlock
      (Bytes.PutUint64 2
       ++ flat_map Block.encodePair
            ([Block.mkPair Sample.k_a Sample.v_1]
             ++ Block.mkPair Scenario.k Scenario.v :: [Block.mkPair Scenario.w []]))
    = Some (Go.Done b)
    /\ Mmap.Get b Scenario.k
       = if (Bytes.len Scenario.v =? 0) && (length [Block.mkPair Scenario.w []] =? 0)%nat
         then Go.Failed else Go.Done Scenario.v.
Proof.
  apply (X20_mmap_block_reads_back_laid_out_pairs (Bytes.PutUint64 2)
           [Block.mkPair Sample.k_a Sample.v_1] [Block.mkPair Scenario.w []]
           Scenario.k Scenario.v).
  - reflexivity.
  - repeat constructor; vm_compute; reflexivity.
  - vm_compute. intros [H|[]]. discriminate H.
  - vm_compute. reflexivity.
Defined.

(** ** Reads of a mapped file *)

Lemma slice_range (d : list Z) (offset length : Z) :
  0 <= offset -> 0 <= length -> offset + length <= Bytes.len d ->
  Bytes.slice d offset (offset + length) = Some (range d offset length).
Proof.
  intros Ho Hl Hb. unfold Bytes.slice, range.
  replace ((0 <=? offset) && (offset <=? offset + length) && (offset + length <=? Bytes.len d))
    with true.
  - now replace (offset + length - offset) with length by lia.
  - symmetry. rewrite !andb_true_iff. repeat split; apply Z.leb_le; lia.
Qed.

Lemma range_clamp (d : list Z) (offset length : Z) :
  0 <= offset <= Bytes.len d -> Bytes.len d - offset <= length ->
  range d offset (Bytes.len d - offset) = range d offset length.
Proof.
  intros Ho Hl. unfold range, Bytes.len in *.
  rewrite !firstn_all2; [reflexivity| |]; rewrite length_skipn; lia.
Qed.

Lemma Read_range (contents : list Z) (offset length : Z) :
  Bytes.len contents < 2 ^ 62 ->
  0 <= offset < Bytes.len contents ->
  0 <= length < 2 ^ 62 ->
  Mmap.Read (Mmap.NewMmapFile contents) offset length
  = Go.Done (range contents offset length).
Proof.
  intros Hs Ho Hl. unfold Mmap.Read, Mmap.NewMmapFile. cbn [Mmap.data Mmap.size].
  replace ((offset <? 0) || (offset >=? Bytes.len contents)) with false
    by (symmetry; apply orb_false_intro; [apply Z.ltb_ge|rewrite Z.geb_leb; apply Z.leb_gt];
        lia).
  rewrite (int64_small (offset + length)) by lia.
  destruct (offset + length >? Bytes.len contents) eqn:Hc.
  - rewrite Z.gtb_ltb in Hc. apply Z.ltb_lt in Hc.
    rewrite (int64_small (Bytes.len contents - offset)) by lia.
    rewrite int64_small by lia.
    rewrite slice_range by lia. f_equal. apply range_clamp; lia.
  - rewrite Z.gtb_ltb in Hc. apply Z.ltb_ge in Hc.
    rewrite int64_small by lia. now rewrite slice_range by lia.
Qed.

Lemma length_range (d : list Z) (offset length : Z) :
  0 <= offset -> 0 <= length ->
  Bytes.len (range d offset length) = Z.min length (Z.max 0 (Bytes.len d - offset)).
Proof.
  intros Ho Hl. unfold range, Bytes.len. rewrite length_firstn, length_skipn. lia.
Qed.

Lemma ReadAt_range (contents p : list Z) (offset : Z) :
  Bytes.len contents < 2 ^ 62 ->
  0 <= offset < Bytes.len contents ->
  Bytes.len p < 2 ^ 62 ->
  Mmap.ReadAt (Mmap.NewMmapFile contents) p offset
  = Go.Done (range contents offset (Bytes.len p)
             ++ skipn (length (range contents offset (Bytes.len p))) p,
             Bytes.len (range contents offset (Bytes.len p))).
Proof.
  intros Hs Ho Hp. pose proof (len_nonneg p) as Np.
  unfold Mmap.ReadAt, Mmap.NewMmapFile. cbn [Mmap.data Mmap.size].
  replace ((offset <? 0) || (offset >=? Bytes.len contents)) with false
    by (symmetry; apply orb_false_intro; [apply Z.ltb_ge|rewrite Z.geb_leb; apply Z.leb_gt];
        lia).
  rewrite (int64_small (offset + Bytes.len p)) by lia.
  pose proof (length_range contents offset (Bytes.len p) ltac:(lia) Np) as Hlen.
  assert (Hfit : firstn (length p) (range contents offset (Bytes.len p))
                 = range contents offset (Bytes.len p)).
  { apply firstn_all2. clear -Hlen Np. unfold Bytes.len in *. lia. }
  destruct (offset + Bytes.len p >? Bytes.len contents) eqn:Hc.
  - rewrite Z.gtb_ltb in Hc. apply Z.ltb_lt in Hc.
    rewrite (int64_small (Bytes.len contents - offset)) by lia.
    rewrite int64_small by lia.
    rewrite slice_range by lia.
    rewrite (range_clamp contents offset (Bytes.len p)) by lia.
    rewrite Hfit. do 2 f_equal. lia.
  - rewrite Z.gtb_ltb in Hc. apply Z.ltb_ge in Hc.
    rewrite int64_small by lia. rewrite slice_range by lia.
    rewrite Hfit. do 2 f_equal. lia.
Qed.

(** X25: reads of a mapped file stay inside the file. For an offset in
    the file and a length that is not negative, [Read] returns the bytes
    from the offset on, as many as asked for or as many as the file has left;
    [ReadAt] puts the bytes [Read] returns for the length of the buffer at
    the front of the buffer, leaves the rest of the buffer as it was, and
    reports their number. *)
Theorem X25_mmap_reads_are_cut_at_end_of_file
    (contents p : list Z) (offset n : Z) :
  Bytes.len contents < 2 ^ 62 ->
  0 <= offset < Bytes.len contents ->
  0 <= n < 2 ^ 62 ->
  Bytes.len p < 2 ^ 62 ->
  Mmap.Read (Mmap.NewMmapFile contents) offset n
  = Go.Done (range contents offset n)
  /\ Bytes.len (range contents offset n)
     = Z.min n (Bytes.len contents - offset)
  /\ Mmap.ReadAt (Mmap.NewMmapFile contents) p offset
     = Go.Done (range contents offset (Bytes.len p)
                ++ skipn (length (range contents offset (Bytes.len p))) p,
                Bytes.len (range contents offset (Bytes.len p))).
Proof.
  intros Hs Ho Hl Hp. split; [now apply Read_range|].
  split; [rewrite length_range by lia; lia|now apply ReadAt_range].
Qed.

Lemma X25_mmap_reads_are_cut_at_end_of_file_witness :
  Mmap.Read (Mmap.NewMmapFile [1; 2; 3; 4; 5]) 3 4 = Go.Done (range [1; 2; 3; 4; 5] 3 4)
  /\ Bytes.len (range [1; 2; 3; 4; 5] 3 4) = Z.min 4 (Bytes.len [1; 2; 3; 4; 5] - 3)
  /\ Mmap.ReadAt (Mmap.NewMmapFile [1; 2; 3; 4; 5]) [0; 0; 0] 3
     = Go.Done (range [1; 2; 3; 4; 5] 3 (Bytes.len [0; 0; 0])
                ++ skipn (length (range [1; 2; 3; 4; 5] 3 (Bytes.len [0; 0; 0]))) [0; 0; 0],
                Bytes.len (range [1; 2; 3; 4; 5] 3 (Bytes.len [0; 0; 0]))).
Proof.
  apply (X25_mmap_reads_are_cut_at_end_of_file [1; 2; 3; 4; 5] [0; 0; 0] 3 4);
    vm_compute; repeat split; congruence.
Defined.

(** * The tree's own compaction: [compactLevel] and [runCompaction] *)

Lemma rename_read (p q : Disk.path) (d d' : Disk.disk) :
  Disk.rename p q d = Some d' ->
  Disk.read q d' = Disk.read p d
  /\ (forall r, r <> p -> r <> q -> Disk.read r d' = Disk.read r d).
Proof.
  unfold Disk.rename. destruct (Disk.read p d) as [f|] eqn:Hp; [|discriminate].
  destruct (Disk.samePath p q) eqn:Hpq.
  - apply samePath_true in Hpq. subst q. intros H. inversion H; subst d'. now split.
  - apply samePath_false in Hpq. intros H. inversion H; subst d'. clear H. split.
    + rewrite read_app, read_remove_other by congruence.
      rewrite read_remove_same. cbn [Disk.read].
      now rewrite (proj2 (samePath_true q q) eq_refl).
    + intros r Hrp Hrq. rewrite read_app, !read_remove_other by assumption.
      cbn [Disk.read]. apply samePath_false in Hrq. rewrite Hrq.
      now destruct (Disk.read r d).
Qed.

Lemma setLevel_setLevel (i : nat) (a b : list LSM.blockInfo) (t : LSM.LSMTree) :
  LSM.setLevel i a (LSM.setLevel i b t) = LSM.setLevel i a t.
Proof. unfold LSM.setLevel. cbn. now rewrite list_insert_insert_eq. Qed.

Lemma setLevel_same (i : nat) (t : LSM.LSMTree) :
  (i < length (LSM.levels t))%nat -> LSM.setLevel i (LSM.level t i) t = t.
Proof.
  intros Hi. destruct t as [ls a b c e f]. unfold LSM.setLevel, LSM.level. cbn in *.
  f_equal. apply list_insert_id. rewrite nth_lookup.
  destruct (lookup_lt_is_Some_2 ls i Hi) as [x Hx]. now rewrite Hx.
Qed.

Lemma length_setLevel (i : nat) (a : list LSM.blockInfo) (t : LSM.LSMTree) :
  length (LSM.levels (LSM.setLevel i a t)) = length (LSM.levels t).
Proof. unfold LSM.setLevel. cbn. apply length_insert. Qed.

Lemma moveBlocks_spec (next : nat) (bs : list LSM.blockInfo) :
  forall (d : Disk.disk) (t : LSM.LSMTree),
    (next < length (LSM.levels t))%nat ->
    NoDup (map (fun b => snd (LSM.path b)) bs) ->
    List.Forall (fun b => Disk.read (LSM.path b) d <> None) bs ->
    exists d',
      LSM.moveBlocks next bs d t
      = (d', LSM.setLevel next (LSM.level t next ++ map (LSM.moved next) bs) t)
      /\ (forall b, In b bs ->
            Disk.read (next, snd (LSM.path b)) d' = Disk.read (LSM.path b) d)
      /\ (forall r, ~ In (snd r) (map (fun b => snd (LSM.path b)) bs) ->
            Disk.read r d' = Disk.read r d).
Proof.
  induction bs as [|b bs IH]; intros d t Hnext Hnd Hex.
  - exists d. cbn [LSM.moveBlocks fold_left map]. rewrite app_nil_r, setLevel_same by exact Hnext.
    split; [reflexivity|]. split; [intros ? []|reflexivity].
  - apply NoDup_cons in Hnd as [Hb Hnd]. inversion Hex as [|? ? Hbd Hex']; subst.
    unfold LSM.moveBlocks. cbn [fold_left].
    destruct (Disk.rename (LSM.path b) (next, snd (LSM.path b)) d) as [d1|] eqn:Hren.
    2:{ unfold Disk.rename in Hren. destruct (Disk.read (LSM.path b) d); [|congruence].
        destruct (Disk.samePath _ _); discriminate. }
    destruct (rename_read _ _ _ _ Hren) as [Hq Hother].
    assert (Hkeep : forall r, snd r <> snd (LSM.path b) -> Disk.read r d1 = Disk.read r d).
    { intros r Hr. apply Hother; intros ->; apply Hr; reflexivity. }
    destruct (IH d1 (LSM.setLevel next (LSM.level t next ++ [LSM.moved next b]) t))
      as (d' & Hmv & Hnew & Hrest).
    + now rewrite length_setLevel.
    + exact Hnd.
    + apply List.Forall_forall. intros b' Hb'. rewrite Hkeep.
      * revert b' Hb'. now apply List.Forall_forall.
      * intros Heq. apply Hb. rewrite <- Heq. apply list_elem_of_In.
        now apply (in_map (fun b => snd (LSM.path b))).
    + exists d'. unfold LSM.moveBlocks in Hmv. rewrite Hmv. split; [|split].
      * f_equal. rewrite setLevel_setLevel. f_equal.
        rewrite level_setLevel. destruct (decide _) as [_|Hn]; [|exfalso; apply Hn; now split].
        now rewrite <- app_assoc.
      * intros b' [<-|Hb']; [|rewrite (Hnew b' Hb')].
        -- rewrite Hrest; [exact Hq|]. cbn [snd]. intros Hin. apply Hb.
           now apply list_elem_of_In.
        -- apply Hkeep. intros Heq. apply Hb. rewrite <- Heq. apply list_elem_of_In.
           now apply (in_map (fun b => snd (LSM.path b))).
      * intros r Hr. rewrite Hrest; [apply Hkeep|]; intros H; apply Hr; cbn [map].
        -- now left.
        -- now right.
Qed.

Lemma insert_middle {A} (pre : list A) (a x : A) (rest : list A) :
  <[length pre := x]> (pre ++ a :: rest) = pre ++ x :: rest.
Proof.
  induction pre as [|y pre IH]; [reflexivity|].
  change (y :: <[length pre := x]> (pre ++ a :: rest) = y :: (pre ++ x :: rest)).
  now rewrite IH.
Qed.

Lemma insert_after_middle {A} (pre : list A) (a b x : A) (rest : list A) :
  <[S (length pre) := x]> (pre ++ a :: b :: rest) = pre ++ a :: x :: rest.
Proof.
  induction pre as [|y pre IH]; [reflexivity|].
  change (y :: <[S (length pre) := x]> (pre ++ a :: b :: rest)
          = y :: (pre ++ a :: x :: rest)).
  now rewrite IH.
Qed.

Lemma nth_after_middle {A} (pre : list A) (a b d : A) (rest : list A) :
  nth (S (length pre)) (pre ++ a :: b :: rest) d = b.
Proof. induction pre as [|y pre IH]; [reflexivity|]. exact IH. Qed.

Lemma levels_split (ls : list (list LSM.blockInfo)) (lv : nat) :
  (S lv < length ls)%nat ->
  ls = firstn lv ls ++ nth lv ls [] :: nth (S lv) ls [] :: skipn (S (S lv)) ls
  /\ length (firstn lv ls) = lv.
Proof.
  intros Hlv. split; [|rewrite length_take; lia].
  destruct (lookup_lt_is_Some_2 ls lv ltac:(lia)) as [a Ha].
  destruct (lookup_lt_is_Some_2 ls (S lv) Hlv) as [b Hb].
  rewrite !nth_lookup, Ha, Hb.
  change (ls = firstn lv ls ++ a :: b :: skipn (S (S lv)) ls).
  rewrite <- (drop_S ls b (S lv) Hb). now rewrite (take_drop_middle ls lv a Ha).
Qed.

Lemma entry_moved (next : nat) (d d' : Disk.disk) (b : LSM.blockInfo) :
  Disk.read (next, snd (LSM.path b)) d' = Disk.read (LSM.path b) d ->
  entry d' (LSM.moved next b) = entry d b.
Proof. intros H. unfold entry, LSM.moved. cbn. now rewrite H. Qed.

Lemma entry_kept (d d' : Disk.disk) (b : LSM.blockInfo) :
  Disk.read (LSM.path b) d' = Disk.read (LSM.path b) d -> entry d' b = entry d b.
Proof. intros H. unfold entry. now rewrite H. Qed.

(** One pass of [compactLevel] on the level after [pre]. *)
Lemma compact_step (d : Disk.disk) (t : LSM.LSMTree)
    (pre post : list (list LSM.blockInfo)) (bs nx : list LSM.blockInfo) :
  LSM.levels t = pre ++ bs :: nx :: post ->
  NoDup (map fileName (concat (LSM.levels t))) ->
  List.Forall (fun b => Disk.read (LSM.path b) d <> None) (concat (LSM.levels t)) ->
  exists d1 t2,
    LSM.moveBlocks (S (length pre)) (LSM.level t (length pre)) d t
    = (d1, LSM.setLevel (S (length pre))
             (nx ++ map (LSM.moved (S (length pre))) bs) t)
    /\ t2 = LSM.setLevel (length pre) []
              (LSM.setLevel (S (length pre))
                 (nx ++ map (LSM.moved (S (length pre))) bs) t)
    /\ LSM.levels t2 = pre ++ [] :: (nx ++ map (LSM.moved (S (length pre))) bs) :: post
    /\ Permutation (view d1 t2) (view d t).
Proof.
  intros Hls Hnd Hex.
  assert (Hbs : LSM.level t (length pre) = bs)
    by (unfold LSM.level; rewrite Hls; apply nth_middle).
  assert (Hnx : LSM.level t (S (length pre)) = nx)
    by (unfold LSM.level; rewrite Hls; apply nth_after_middle).
  assert (Hcat : concat (LSM.levels t) = concat pre ++ bs ++ nx ++ concat post).
  { rewrite Hls, concat_app. now cbn [concat]. }
  rewrite Hcat in Hnd, Hex.
  (* the names of the level's blocks occur nowhere else *)
  assert (Hnd' : NoDup (map fileName bs ++ map fileName (concat pre ++ nx ++ concat post))).
  { rewrite !map_app in Hnd.
    rewrite (Permutation_app_swap_app (map fileName (concat pre))) in Hnd.
    now rewrite !map_app. }
  apply NoDup_app in Hnd' as (Hndbs & Hdisj & _).
  destruct (moveBlocks_spec (S (length pre)) bs d t) as (d1 & Hmv & Hnew & Hrest).
  - rewrite Hls, length_app. cbn [length]. lia.
  - exact Hndbs.
  - apply List.Forall_forall. intros b Hb. rewrite List.Forall_forall in Hex.
    apply Hex. apply in_or_app. right. apply in_or_app. now left.
  - rewrite Hnx in Hmv. rewrite Hbs.
    exists d1. eexists. split; [exact Hmv|]. split; [reflexivity|].
    assert (Hls2 : LSM.levels
               (LSM.setLevel (length pre) []
                  (LSM.setLevel (S (length pre))
                     (nx ++ map (LSM.moved (S (length pre))) bs) t))
             = pre ++ [] :: (nx ++ map (LSM.moved (S (length pre))) bs) :: post).
    { unfold LSM.setLevel. cbn [LSM.levels]. rewrite Hls.
      now rewrite insert_after_middle, insert_middle. }
    split; [exact Hls2|].
    unfold view. rewrite Hls2, Hcat, concat_app. cbn [concat app].
    rewrite !map_app.
    assert (Hkeep : forall l, (forall b, In b l -> In b (concat pre ++ nx ++ concat post)) ->
                map (entry d1) l = map (entry d) l).
    { intros l Hl. apply map_ext_in. intros b Hb. apply entry_kept, Hrest.
      intros Hin. apply list_elem_of_In in Hin.
      apply (Hdisj _ Hin). apply list_elem_of_In.
      apply (in_map fileName). now apply Hl. }
    rewrite (Hkeep (concat pre)), (Hkeep nx), (Hkeep (concat post)).
    + rewrite map_map.
      rewrite (map_ext_in (fun x => entry d1 (LSM.moved (S (length pre)) x)) (entry d) bs)
        by (intros b Hb; apply entry_moved; now apply Hnew).
      apply Permutation_app_head.
      rewrite <- app_assoc. apply Permutation_app_swap_app.
    + intros b Hb. apply in_or_app. right. apply in_or_app. now right.
    + intros b Hb. apply in_or_app. right. apply in_or_app. now left.
    + intros b Hb. apply in_or_app. now left.
Qed.

Lemma sum_Permutation (l l' : list Z) :
  Permutation l l' -> fold_right Z.add 0 l = fold_right Z.add 0 l'.
Proof. induction 1; cbn [fold_right]; lia. Qed.

Lemma view_names (d : Disk.disk) (t : LSM.LSMTree) :
  map (fun e => e.1.1.1.1.1) (view d t) = map fileName (concat (LSM.levels t)).
Proof. unfold view. rewrite map_map. reflexivity. Qed.

Lemma view_sizes (d : Disk.disk) (t : LSM.LSMTree) :
  map (fun e => e.1.1.1.1.2) (view d t) = map LSM.size (concat (LSM.levels t)).
Proof. unfold view. rewrite map_map. reflexivity. Qed.

Lemma view_files (d : Disk.disk) (t : LSM.LSMTree) :
  map (fun e => e.2) (view d t)
  = map (fun b => Disk.read (LSM.path b) d) (concat (LSM.levels t)).
Proof. unfold view. rewrite map_map. reflexivity. Qed.

Lemma Forall_of_map {A B} (f : A -> B) (P : B -> Prop) (l : list A) :
  List.Forall P (map f l) <-> List.Forall (fun x => P (f x)) l.
Proof.
  induction l as [|x l IH]; cbn [map]; split; intros H; try constructor;
    inversion H; subst; auto; now apply IH.
Qed.

Lemma intact_perm (d d' : Disk.disk) (t t' : LSM.LSMTree) :
  intact d t ->
  Permutation (view d' t') (view d t) ->
  length (LSM.levels t') = 7%nat ->
  LSM.compactionThresholds t' = LSM.compactionThresholds t ->
  intact d' t'.
Proof.
  intros (_ & Hnd & Hex & Hsz & Htot) Hperm Hlen Hth.
  split; [exact Hlen|]. split; [|split; [|split]].
  - rewrite <- (view_names d'). rewrite (Permutation_map (fun e => e.1.1.1.1.1) Hperm).
    now rewrite view_names.
  - apply (Forall_of_map (fun b => Disk.read (LSM.path b) d') (fun o => o <> None)).
    rewrite <- view_files.
    eapply Permutation_Forall; [apply Permutation_map; symmetry; exact Hperm|].
    rewrite view_files. now apply Forall_of_map.
  - apply (Forall_of_map LSM.size (fun s => 0 <= s)).
    rewrite <- (view_sizes d').
    eapply Permutation_Forall; [apply Permutation_map; symmetry; exact Hperm|].
    rewrite view_sizes. now apply Forall_of_map.
  - rewrite Hth. unfold totalSize in *. rewrite <- (view_sizes d').
    rewrite (sum_Permutation _ _ (Permutation_map (fun e => e.1.1.1.1.2) Hperm)).
    now rewrite view_sizes.
Qed.

Lemma fold_left_sizes (bs : list LSM.blockInfo) : forall acc,
  fold_left (fun acc b => acc + LSM.size b) bs acc = acc + totalSize bs.
Proof.
  unfold totalSize. induction bs as [|b bs IH]; intros acc; cbn [fold_left map fold_right].
  - lia.
  - rewrite IH. lia.
Qed.

Lemma totalSize_app (a b : list LSM.blockInfo) :
  totalSize (a ++ b) = totalSize a + totalSize b.
Proof.
  unfold totalSize. induction a as [|x a IH]; cbn [app map fold_right]; [lia|].
  rewrite IH. lia.
Qed.

Lemma totalSize_nonneg (bs : list LSM.blockInfo) :
  List.Forall (fun b => 0 <= LSM.size b) bs -> 0 <= totalSize bs.
Proof.
  unfold totalSize. induction 1 as [|b bs Hb _ IH]; cbn [map fold_right]; lia.
Qed.

Lemma totalSize_level (ls : list (list LSM.blockInfo)) (l : list LSM.blockInfo) :
  List.Forall (fun b => 0 <= LSM.size b) (concat ls) ->
  In l ls -> totalSize l <= totalSize (concat ls).
Proof.
  induction ls as [|x ls IH]; intros Hsz Hin; [destruct Hin|].
  cbn [concat] in *. apply Forall_app in Hsz as [Hx Hls]. rewrite totalSize_app.
  pose proof (totalSize_nonneg _ Hx). pose proof (totalSize_nonneg _ Hls).
  destruct Hin as [->|Hin]; [lia|]. specialize (IH Hls Hin). lia.
Qed.

Lemma shouldCompact_last (d : Disk.disk) (t : LSM.LSMTree) :
  intact d t -> LSM.shouldCompact t 6 = false.
Proof.
  intros (Hlen & _ & _ & Hsz & Htot). unfold LSM.shouldCompact.
  rewrite fold_left_sizes, Z.add_0_l.
  assert (totalSize (LSM.level t 6) <= totalSize (concat (LSM.levels t))).
  { apply totalSize_level; [exact Hsz|]. unfold LSM.level. apply nth_In. lia. }
  rewrite Z.geb_leb. apply Z.leb_gt. lia.
Qed.

Lemma shouldCompact_empty (t : LSM.LSMTree) (lv : nat) :
  LSM.level t lv = [] -> 0 < nth lv (LSM.compactionThresholds t) 0 ->
  LSM.shouldCompact t lv = false.
Proof.
  intros He Hth. unfold LSM.shouldCompact. rewrite He. cbn [fold_left].
  rewrite Z.geb_leb. apply Z.leb_gt. lia.
Qed.

Lemma shouldCompact_ext (t t' : LSM.LSMTree) (lv : nat) :
  LSM.level t' lv = LSM.level t lv ->
  LSM.compactionThresholds t' = LSM.compactionThresholds t ->
  LSM.shouldCompact t' lv = LSM.shouldCompact t lv.
Proof. intros Hl Hth. unfold LSM.shouldCompact. now rewrite Hl, Hth. Qed.

Lemma compactFrom_spec (below : nat) : forall (lv : nat) (d : Disk.disk) (t : LSM.LSMTree),
  (lv + below = 6)%nat -> (1 <= below)%nat -> intact d t ->
  exists d' t',
    LSM.compactFrom below lv d t = Go.Done (d', t')
    /\ LSM.level t' lv = []
    /\ (forall j, (j < lv)%nat -> LSM.level t' j = LSM.level t j)
    /\ Permutation (view d' t') (view d t)
    /\ length (LSM.levels t') = 7%nat
    /\ LSM.compactionThresholds t' = LSM.compactionThresholds t.
Proof.
  induction below as [|below IH]; intros lv d t Hsum Hpos Hin; [lia|].
  pose proof Hin as (Hlen & Hnd & Hex & _).
  destruct (levels_split (LSM.levels t) lv ltac:(lia)) as [Hls Hpre].
  remember (firstn lv (LSM.levels t)) as pre eqn:Epre. clear Epre.
  remember (skipn (S (S lv)) (LSM.levels t)) as post eqn:Epost. clear Epost.
  fold (LSM.level t lv) in Hls. fold (LSM.level t (S lv)) in Hls.
  destruct (compact_step d t pre post _ _ Hls Hnd Hex) as (d1 & t2 & Hmv & Ht2 & Hls2 & Hperm).
  rewrite Hpre in Hmv, Ht2, Hls2.
  assert (Hlen2 : length (LSM.levels t2) = 7%nat)
    by (subst t2; now rewrite !length_setLevel).
  assert (Hth2 : LSM.compactionThresholds t2 = LSM.compactionThresholds t)
    by (subst t2; reflexivity).
  assert (Hin2 : intact d1 t2) by (eapply intact_perm; eauto).
  assert (Hlv2 : LSM.level t2 lv = []).
  { subst t2. rewrite level_setLevel. destruct (decide _) as [_|Hn]; [reflexivity|].
    exfalso. apply Hn. split; [reflexivity|]. rewrite length_setLevel. lia. }
  assert (Hlow2 : forall j, (j < lv)%nat -> LSM.level t2 j = LSM.level t j).
  { intros j Hj. subst t2. rewrite !level_setLevel.
    destruct (decide _) as [[? _]|_]; [lia|]. destruct (decide _) as [[? _]|_]; [lia|].
    reflexivity. }
  cbn [LSM.compactFrom]. rewrite Hmv. rewrite <- Ht2.
  destruct (LSM.shouldCompact t2 (S lv)) eqn:Hsc.
  - destruct (Nat.eq_dec lv 5%nat) as [->|Hne].
    { rewrite (shouldCompact_last d1 t2 Hin2) in Hsc. discriminate. }
    destruct (IH (S lv) d1 t2 ltac:(lia) ltac:(lia) Hin2)
      as (d' & t' & Hrun & _ & Hlow & Hperm' & Hlen' & Hth').
    exists d', t'. split; [exact Hrun|]. split; [|split; [|split; [|split]]].
    + rewrite Hlow by lia. exact Hlv2.
    + intros j Hj. rewrite Hlow by lia. now apply Hlow2.
    + now rewrite Hperm'.
    + exact Hlen'.
    + now rewrite Hth'.
  - exists d1, t2. repeat split; auto.
Qed.

(** X21: [compactLevel] loses no block. On a tree with its seven levels
    whose blocks have distinct file names, a file each and, together, less
    than the last level's threshold, [compactLevel] of a level 0 to 5
    returns; afterwards the level is empty, the levels before it are as
    they were, and the tree holds the same blocks as before -- each with
    its name, size, key range and creation time, and with the file it had
    now found at the path the index records for it. *)
Theorem X21_compactLevel_moves_blocks_without_loss
    (d : Disk.disk) (t : LSM.LSMTree) (lv : nat) :
  intact d t -> (lv <= 5)%nat ->
  exists d' t',
    LSM.compactLevel lv d t = Go.Done (d', t')
    /\ LSM.level t' lv = []
    /\ (forall j, (j < lv)%nat -> LSM.level t' j = LSM.level t j)
    /\ Permutation (view d' t') (view d t).
Proof.
  intros Hin Hlv. unfold LSM.compactLevel.
  destruct (compactFrom_spec (6 - lv) lv d t ltac:(lia) ltac:(lia) Hin)
    as (d' & t' & Hrun & He & Hlow & Hperm & _).
  exists d', t'. auto.
Qed.

Lemma X21_compactLevel_moves_blocks_without_loss_witness :
  exists d' t',
    LSM.compactLevel 0 (fst Scenario.written) (snd Scenario.written) = Go.Done (d', t')
    /\ LSM.level t' 0 = []
    /\ (forall j, (j < 0)%nat -> LSM.level t' j = LSM.level (snd Scenario.written) j)
    /\ Permutation (view d' t') (view (fst Scenario.written) (snd Scenario.written)).
Proof.
  apply (X21_compactLevel_moves_blocks_without_loss
           (fst Scenario.written) (snd Scenario.written) 0).
  - unfold intact. split; [vm_compute; reflexivity|].
    split; [vm_compute; apply NoDup_singleton|].
    split; [vm_compute; repeat constructor; discriminate|].
    split; [vm_compute; repeat constructor; discriminate|].
    vm_compute. reflexivity.
  - lia.
Defined.

Lemma runCompaction_from (n : nat) : forall (a : nat) (d : Disk.disk) (t : LSM.LSMTree),
  (a + n = 6)%nat ->
  intact d t ->
  (forall lv, (lv < 6)%nat -> 0 < nth lv (LSM.compactionThresholds t) 0) ->
  (forall j, (j < a)%nat -> LSM.shouldCompact t j = false) ->
  exists d' t',
    fold_left
      (fun (s : Go.outcome (Disk.disk * LSM.LSMTree)) lv =>
         match s with
         | Go.Done (d, t) =>
             if LSM.shouldCompact t lv then LSM.compactLevel lv d t else Go.Done (d, t)
         | Go.Failed => Go.Failed
         | Go.Panicked => Go.Panicked
         end)
      (seq a n) (Go.Done (d, t))
    = Go.Done (d', t')
    /\ Permutation (view d' t') (view d t)
    /\ intact d' t'
    /\ (forall j, (j < 6)%nat -> LSM.shouldCompact t' j = false).
Proof.
  induction n as [|n IH]; intros a d t Hsum Hin Hth Hdone.
  - exists d, t. cbn [seq fold_left]. split; [reflexivity|]. split; [reflexivity|].
    split; [exact Hin|]. intros j Hj. apply Hdone. lia.
  - cbn [seq fold_left].
    destruct (LSM.shouldCompact t a) eqn:Hsc.
    + unfold LSM.compactLevel.
      destruct (compactFrom_spec (6 - a) a d t ltac:(lia) ltac:(lia) Hin)
        as (d1 & t1 & Hrun & He & Hlow & Hperm & Hlen & Hth1).
      rewrite Hrun.
      assert (Hin1 : intact d1 t1) by (eapply intact_perm; eauto).
      destruct (IH (S a) d1 t1 ltac:(lia) Hin1) as (d' & t' & Hfold & Hperm' & Hin' & Hall).
      * intros lv Hlv. rewrite Hth1. now apply Hth.
      * intros j Hj. destruct (Nat.eq_dec j a) as [->|Hne].
        -- apply shouldCompact_empty; [exact He|]. rewrite Hth1. apply Hth. lia.
        -- rewrite (shouldCompact_ext t t1 j); [apply Hdone; lia| |exact Hth1].
           apply Hlow. lia.
      * exists d', t'. split; [exact Hfold|]. split; [now rewrite Hperm'|].
        split; [exact Hin'|exact Hall].
    + destruct (IH (S a) d t ltac:(lia) Hin Hth) as (d' & t' & Hfold & Hperm' & Hin' & Hall).
      * intros j Hj. destruct (Nat.eq_dec j a) as [->|Hne]; [exact Hsc|].
        apply Hdone. lia.
      * exists d', t'. auto.
Qed.

(** X22: [runCompaction] brings every level under its threshold and
    loses no block. On a tree with its seven levels and positive
    thresholds, whose blocks have distinct file names, a file each and,
    together, less than the last level's threshold, [runCompaction]
    returns; afterwards no level has reached its threshold, and the tree
    holds the same blocks as before, each with the file it had. *)
Theorem X22_runCompaction_leaves_no_level_over_threshold
    (d : Disk.disk) (t : LSM.LSMTree) :
  intact d t ->
  (forall lv, (lv < 6)%nat -> 0 < nth lv (LSM.compactionThresholds t) 0) ->
  exists d' t',
    LSM.runCompaction d t = Go.Done (d', t')
    /\ Permutation (view d' t') (view d t)
    /\ (forall lv, (lv < 7)%nat -> LSM.shouldCompact t' lv = false).
Proof.
  intros Hin Hth. unfold LSM.runCompaction.
  destruct (runCompaction_from 6 0 d t eq_refl Hin Hth) as (d' & t' & Hfold & Hperm & Hin' & Hall).
  - intros j Hj. lia.
  - exists d', t'. split; [exact Hfold|]. split; [exact Hperm|].
    intros lv Hlv. destruct (Nat.eq_dec lv 6%nat) as [->|Hne].
    + exact (shouldCompact_last d' t' Hin').
    + apply Hall. lia.
Qed.

Lemma X22_runCompaction_leaves_no_level_over_threshold_witness :
  let d : Disk.disk := [((0%nat, Scenario.k), Disk.mkInfo Scenario.v 300)] in
  let t := LSM.setLevel 0
             [LSM.mkBlockInfo (0%nat, Scenario.k) (64 * 1024 * 1024) Scenario.k Scenario.k 300]
             (LSM.NewLSMTree []) in
  exists d' t',
    LSM.runCompaction d t = Go.Done (d', t')
    /\ Permutation (view d' t') (view d t)
    /\ (forall lv, (lv < 7)%nat -> LSM.shouldCompact t' lv = false).
Proof.
  intros d t. apply (X22_runCompaction_leaves_no_level_over_threshold d t).
  - unfold intact. split; [vm_compute; reflexivity|].
    split; [vm_compute; apply NoDup_singleton|].
    split; [vm_compute; repeat constructor; discriminate|].
    split; [vm_compute; repeat constructor; discriminate|].
    vm_compute. reflexivity.
  - intros lv Hlv.
    do 6 (destruct lv as [|lv]; [vm_compute; reflexivity|]). lia.
Defined.

(** * The compaction manager: [RunCompaction] *)

Lemma runLevels_skip (a1 a2 : bool) (c : Compaction.CompactionManager) (t : LSM.LSMTree)
    (pre rest : list nat) :
  (forall j, In j pre -> LSM.shouldCompact t j = false \/ LSM.level t j = []) ->
  Compaction.runLevels a1 a2 (pre ++ rest) c t = Compaction.runLevels a1 a2 rest c t.
Proof.
  induction pre as [|j pre IH]; intros Hskip; [reflexivity|].
  cbn [app Compaction.runLevels].
  destruct (Hskip j (or_introl eq_refl)) as [Hsc|He].
  - rewrite Hsc. cbn [negb]. apply IH. intros; apply Hskip; now right.
  - rewrite He. cbn [length Nat.eqb].
    destruct (negb (LSM.shouldCompact t j)); apply IH; intros; apply Hskip; now right.
Qed.

Lemma seq_split_at (lv : nat) :
  (lv < 6)%nat -> seq 0 6 = seq 0 lv ++ lv :: seq (S lv) (5 - lv).
Proof.
  intros Hlv. replace 6%nat with (lv + S (5 - lv))%nat at 1 by lia.
  now rewrite seq_app.
Qed.

Lemma RunCompaction_forgets_level
    (a1 a2 : bool) (c : Compaction.CompactionManager) (t : LSM.LSMTree) (lv : nat) :
  Compaction.TasksInQueue c <= Compaction.numWorkers c * 2 ->
  (lv < 6)%nat ->
  (forall j, (j < lv)%nat -> LSM.shouldCompact t j = false \/ LSM.level t j = []) ->
  LSM.shouldCompact t lv = true ->
  LSM.level t lv <> [] ->
  exists offered,
    concat (map Compaction.blocks offered) = LSM.level t lv
    /\ length offered
       = (if (lv =? 0)%nat && (4 <? length (LSM.level t lv))%nat then 2 else 1)%nat
    /\ List.Forall (fun task => Compaction.sourceLevel task = lv
                                /\ Compaction.targetLevel task = S lv) offered
    /\ snd (Compaction.RunCompaction a1 a2 c t) = LSM.setLevel lv [] t
    /\ Compaction.taskChan (fst (Compaction.RunCompaction a1 a2 c t))
       = Compaction.taskChan c ++ taken [a1; a2] offered
    /\ Compaction.TasksDropped (fst (Compaction.RunCompaction a1 a2 c t))
       = Compaction.TasksDropped c + refused [a1; a2] offered.
Proof.
  intros Hq Hlv Hskip Hsc Hne. unfold Compaction.RunCompaction.
  rewrite (gtb_false _ _ Hq), (seq_split_at lv Hlv), runLevels_skip.
  2:{ intros j Hj. apply in_seq in Hj. apply Hskip. lia. }
  cbn [Compaction.runLevels]. rewrite Hsc. cbn [negb].
  destruct (LSM.level t lv) as [|b0 bs0] eqn:Hbs; [congruence|].
  rewrite <- Hbs in *. clear Hne.
  replace (length (LSM.level t lv) =? 0)%nat with false
    by (symmetry; apply Nat.eqb_neq; rewrite Hbs; cbn [length]; lia).
  replace (lv + 1)%nat with (S lv) by lia.
  destruct ((lv =? 0)%nat && (4 <? length (LSM.level t lv))%nat) eqn:Hbatch.
  - apply andb_prop in Hbatch as [_ Hmany]. apply Nat.ltb_lt in Hmany.
    set (n := length (LSM.level t lv)) in *.
    set (batchSize := ((n + 1) / 2)%nat).
    assert (Hb1 : (1 <= batchSize)%nat)
      by (unfold batchSize; apply Nat.div_le_lower_bound; lia).
    assert (Hb2 : (batchSize < n)%nat)
      by (unfold batchSize; apply Nat.Div0.div_lt_upper_bound; lia).
    exists [Compaction.mkTask lv (S lv) (firstn batchSize (LSM.level t lv));
            Compaction.mkTask lv (S lv) (skipn batchSize (LSM.level t lv))].
    split; [cbn [map concat Compaction.blocks]; now rewrite app_nil_r, firstn_skipn|].
    split; [reflexivity|].
    split; [repeat constructor|]. split; [reflexivity|].
    unfold Compaction.ScheduleCompaction.
    replace (length (firstn batchSize (LSM.level t lv)) =? 0)%nat with false
      by (symmetry; apply Nat.eqb_neq; rewrite length_take; fold n; lia).
    replace (length (skipn batchSize (LSM.level t lv)) =? 0)%nat with false
      by (symmetry; apply Nat.eqb_neq; rewrite length_drop; fold n; lia).
    unfold taken, refused.
    destruct a1, a2; cbn; rewrite <- ?app_assoc, ?app_nil_r; split; reflexivity || lia.
  - exists [Compaction.mkTask lv (S lv) (LSM.level t lv)].
    split; [cbn [map concat Compaction.blocks]; now rewrite app_nil_r|].
    split; [reflexivity|].
    split; [repeat constructor|]. split; [reflexivity|].
    unfold Compaction.ScheduleCompaction.
    replace (length (LSM.level t lv) =? 0)%nat with false
      by (symmetry; apply Nat.eqb_neq; rewrite Hbs; cbn [length]; lia).
    unfold taken, refused.
    destruct a1; cbn; rewrite ?app_nil_r; split; reflexivity || lia.
Qed.

(** X23: [RunCompaction] forgets a level's blocks whether or not their
    compaction was queued. When the queue statistic lets the cycle run,
    the first level (0 to 5) that has reached its threshold and holds
    blocks is emptied in the index; its blocks are offered to the task
    channel in one task, or in two for a level 0 of more than four
    blocks. A task the channel does not take in time is counted as
    dropped and its blocks are then neither in the index nor in the
    queue. *)
Theorem X23_RunCompaction_empties_level_even_when_task_dropped
    (a1 a2 : bool) (c : Compaction.CompactionManager) (t : LSM.LSMTree) (lv : nat) :
  Compaction.TasksInQueue c <= Compaction.numWorkers c * 2 ->
  (lv < 6)%nat ->
  (forall j, (j < lv)%nat -> LSM.shouldCompact t j = false \/ LSM.level t j = []) ->
  LSM.shouldCompact t lv = true ->
  LSM.level t lv <> [] ->
  exists offered,
    concat (map Compaction.blocks offered) = LSM.level t lv
    /\ length offered
       = (if (lv =? 0)%nat && (4 <? length (LSM.level t lv))%nat then 2 else 1)%nat
    /\ List.Forall (fun task => Compaction.sourceLevel task = lv
                                /\ Compaction.targetLevel task = S lv) offered
    /\ snd (Compaction.RunCompaction a1 a2 c t) = LSM.setLevel lv [] t
    /\ Compaction.taskChan (fst (Compaction.RunCompaction a1 a2 c t))
       = Compaction.taskChan c ++ taken [a1; a2] offered
    /\ Compaction.TasksDropped (fst (Compaction.RunCompaction a1 a2 c t))
       = Compaction.TasksDropped c + refused [a1; a2] offered.
Proof. apply RunCompaction_forgets_level. Qed.

Lemma X23_RunCompaction_empties_level_even_when_task_dropped_witness :
  let t := LSM.setLevel 0
             [LSM.mkBlockInfo (0%nat, Scenario.k) (64 * 1024 * 1024) Scenario.k Scenario.k 0]
             (LSM.NewLSMTree []) in
  let c := Compaction.mkCompactionManager 4 [] 0 0 in
  exists offered,
    concat (map Compaction.blocks offered) = LSM.level t 0
    /\ length offered
       = (if (0 =? 0)%nat && (4 <? length (LSM.level t 0))%nat then 2 else 1)%nat
    /\ List.Forall (fun task => Compaction.sourceLevel task = 0%nat
                                /\ Compaction.targetLevel task = 1%nat) offered
    /\ snd (Compaction.RunCompaction false false c t) = LSM.setLevel 0 [] t
    /\ Compaction.taskChan (fst (Compaction.RunCompaction false false c t))
       = Compaction.taskChan c ++ taken [false; false] offered
    /\ Compaction.TasksDropped (fst (Compaction.RunCompaction false false c t))
       = Compaction.TasksDropped c + refused [false; false] offered.
Proof.
  intros t c.
  apply (X23_RunCompaction_empties_level_even_when_task_dropped false false c t 0).
  - vm_compute. discriminate.
  - lia.
  - intros j Hj. lia.
  - vm_compute. reflexivity.
  - vm_compute. discriminate.
Defined.

(** * Lookups in a reopened index *)

Lemma leb_antisym (a b : list Z) :
  Bytes.leb a b = true -> Bytes.leb b a = true -> a = b.
Proof.
  unfold Bytes.leb. rewrite (Compare_antisym a b).
  destruct (Bytes.Compare a b) eqn:E; cbn; try discriminate.
  intros _ _. now apply Compare_eq.
Qed.

(** A level none of whose blocks covers the key yields nothing. *)
Lemma readLevel_uncovered (d : Disk.disk) (t : LSM.LSMTree) (k : list Z) (lv : nat) :
  (forall b, In b (LSM.level t lv) -> covers k b = false) ->
  LSM.readLevel d t k lv = None.
Proof.
  intros H. unfold LSM.readLevel. destruct (lv =? 0)%nat eqn:Hlv.
  - apply Nat.eqb_eq in Hlv. subst lv.
    assert (Hrev : forall b, In b (rev (LSM.level t 0)) -> covers k b = false)
      by (intros b Hb; apply H; now apply in_rev).
    induction (rev (LSM.level t 0)) as [|b bs IH]; [reflexivity|].
    cbn [LSM.scanNewestFirst].
    pose proof (Hrev b (or_introl eq_refl)) as Hb. unfold covers in Hb. rewrite Hb.
    apply IH. intros; apply Hrev; now right.
  - unfold LSM.findBlockIndex.
    destruct (search_sound (LSM.level t lv) k (S (length (LSM.level t lv))) 0
                (Z.of_nat (length (LSM.level t lv)) - 1) _ (Z.le_refl 0) eq_refl)
      as [Hm|[_ (b & Hb & Hcov)]].
    + now rewrite Hm.
    + apply nth_error_In in Hb. rewrite (H b Hb) in Hcov. discriminate.
Qed.

Lemma loadLevel_files (d : Disk.disk) (lv : nat) (b : LSM.blockInfo) :
  In b (LSM.loadLevel d lv) ->
  LSM.minKey b = snd (LSM.path b) /\ LSM.maxKey b = snd (LSM.path b)
  /\ Fmt.HasSuffix (snd (LSM.path b)) LSM.blk = true
  /\ exists f, In (LSM.path b, f) d.
Proof.
  unfold LSM.loadLevel. intros H. apply in_flat_map in H as [[name info] [Hdir H]].
  destruct (Fmt.HasSuffix name LSM.blk) eqn:Hs; cbn [negb] in H; [|destruct H].
  destruct H as [<-|[]]. cbn [LSM.minKey LSM.maxKey LSM.path snd].
  repeat split; try assumption.
  unfold Disk.ReadDir in Hdir. apply Slice_In in Hdir.
  apply in_map_iff in Hdir as ([[l n] f] & Heq & Hin). cbn in Heq. inversion Heq; subst.
  apply filter_In in Hin as [Hin Hl]. cbn in Hl. apply Nat.eqb_eq in Hl. subst l.
  now exists info.
Qed.

Lemma NewLSMTree_blocks (d : Disk.disk) (P : LSM.blockInfo -> Prop) :
  (forall lv b, In b (LSM.loadLevel d lv) -> P b) ->
  forall lv b, In b (LSM.level (LSM.NewLSMTree d) lv) -> P b.
Proof.
  intros Hload. unfold LSM.NewLSMTree, LSM.loadExistingBlocks.
  set (all t := forall lv b, In b (LSM.level t lv) -> P b).
  enough (Hfold : forall lvs t, all t ->
            all (fold_left
              (fun t lv =>
                 LSM.setLevel lv
                   (Sort.Slice (fun a b => Bytes.ltb (LSM.minKey a) (LSM.minKey b))
                               (LSM.level t lv ++ LSM.loadLevel d lv)) t) lvs t)).
  { apply Hfold. intros lv' b' Hb'. unfold LSM.level in Hb'. cbn [LSM.levels] in Hb'.
    do 7 (destruct lv' as [|lv']; [destruct Hb'|]). destruct lv'; destruct Hb'. }
  induction lvs as [|l lvs IH]; intros t Ht; [exact Ht|].
  cbn [fold_left]. apply IH. intros lv' b' Hb'.
  rewrite level_setLevel in Hb'. destruct (decide _) as [[-> _]|_].
  - apply Slice_In in Hb'. apply in_app_or in Hb' as [Hb'|Hb'].
    + eapply Ht; eauto.
    + eapply Hload; eauto.
  - eapply Ht; eauto.
Qed.

Lemma Read_reopened (d : Disk.disk) (k : list Z) :
  (forall p f, In (p, f) d -> Fmt.HasSuffix (snd p) LSM.blk = true -> snd p <> k) ->
  LSM.Read d (LSM.NewLSMTree d) k = None.
Proof.
  intros Hk. unfold LSM.Read.
  assert (Hun : forall lv b, In b (LSM.level (LSM.NewLSMTree d) lv) -> covers k b = false).
  { intros lv b Hb.
    destruct (NewLSMTree_blocks d
                (fun b => LSM.minKey b = snd (LSM.path b) /\ LSM.maxKey b = snd (LSM.path b)
                          /\ Fmt.HasSuffix (snd (LSM.path b)) LSM.blk = true
                          /\ exists f, In (LSM.path b, f) d)
                (loadLevel_files d) lv b Hb) as (Hmin & Hmax & Hs & f & Hf).
    unfold covers, LSM.keyInRange. rewrite Hmin, Hmax.
    destruct (Bytes.leb (snd (LSM.path b)) k) eqn:H1; [|reflexivity].
    destruct (Bytes.leb k (snd (LSM.path b))) eqn:H2; [|reflexivity].
    exfalso. apply (Hk _ _ Hf Hs). now apply leb_antisym. }
  induction (seq 0 7) as [|lv lvs IH]; [reflexivity|].
  cbn [LSM.readLevels]. rewrite readLevel_uncovered by (apply Hun). exact IH.
Qed.

(** X26: a reopened index finds no flushed key. [NewLSMTree] records the
    file name of each block as its min and max key, so on the tree it
    builds over a data directory [Read] reports "key not found" for every
    key that is not itself the name of a [.blk] file of the directory,
    whatever the block files hold. *)
Theorem X26_reopened_index_finds_only_file_names (d : Disk.disk) (k : list Z) :
  (forall p f, In (p, f) d -> Fmt.HasSuffix (snd p) LSM.blk = true -> snd p <> k) ->
  LSM.Read d (LSM.NewLSMTree d) k = None.
Proof. apply Read_reopened. Qed.

Lemma X26_reopened_index_finds_only_file_names_witness :
  LSM.Read (fst Scenario.written) (LSM.NewLSMTree (fst Scenario.written)) Scenario.k = None.
Proof.
  apply (X26_reopened_index_finds_only_file_names (fst Scenario.written) Scenario.k).
  intros p f Hin _ Heq. vm_compute in Hin. destruct Hin as [Hin|[]].
  inversion Hin; subst. vm_compute in Heq. discriminate Heq.
Defined.
